(** * Voice generation agent: script parsing, voice assignment and audio assembly

    A shallow embedding of the Python sources
      - [src/readers/script_parser.py]  (dialogue and narration parsers),
      - [app.py]                        (dialect normalisation, WAV combining),
      - [src/tts/voice_manager.py]      (speaker to voice assignment),
      - [src/tts/gemini_tts.py]         (per-segment synthesis loop),
      - [src/audio/processor.py], [src/audio/track_builder.py] (assembly),
    together with the properties of these functions.

    Python [str] values are sequences of Unicode code points and are
    modelled as [list N]; dictionaries are [gmap]s, sets are [gset]s. *)

From Stdlib Require Import ZArith NArith Lia String Ascii.
From stdpp Require Import gmap list sorting.

Local Open Scope nat_scope.
#[local] Set Warnings "-clear-no-such-hyp".

(* ===================================================================== *)
(** ** Python strings *)
(* ===================================================================== *)

Module Py.

(** A code point. *)
Abbreviation char := N.

(** A Python [str]. *)
Abbreviation str := (list N).

(** Decoding of a UTF-8 byte sequence; used to write string literals of the
    sources ([u "..."]).  Ill-formed input is not of interest here: a
    truncated sequence is dropped. *)
Fixpoint utf8_decode (bs : list N) : str :=
  let cont (b : N) : N := N.land b 63 in
  match bs with
  | [] => []
  | b0 :: bs1 =>
    if (b0 <? 128)%N then b0 :: utf8_decode bs1
    else match bs1 with
    | [] => []
    | b1 :: bs2 =>
      if (b0 <? 224)%N
      then (N.shiftl (N.land b0 31) 6 + cont b1)%N :: utf8_decode bs2
      else match bs2 with
      | [] => []
      | b2 :: bs3 =>
        if (b0 <? 240)%N
        then (N.shiftl (N.land b0 15) 12 + N.shiftl (cont b1) 6 + cont b2)%N
               :: utf8_decode bs3
        else match bs3 with
        | [] => []
        | b3 :: bs4 =>
          (N.shiftl (N.land b0 7) 18 + N.shiftl (cont b1) 12
             + N.shiftl (cont b2) 6 + cont b3)%N :: utf8_decode bs4
        end
      end
    end
  end.

Definition u (s : string) : str :=
  utf8_decode (map N_of_ascii (list_ascii_of_string s)).

(** The code point of a one-character literal. *)
Definition chr (s : string) : N := default 0%N (head (u s)).

Definition NL : N := 10%N.

(** [str.isspace] for one code point; the same set is matched by [\s] in
    a [str] pattern of [re]. *)
Definition isspace (c : N) : bool :=
  ((9 <=? c) && (c <=? 13) || (28 <=? c) && (c <=? 32)
   || (c =? 133) || (c =? 160) || (c =? 5760)
   || (8192 <=? c) && (c <=? 8202)
   || (c =? 8232) || (c =? 8233) || (c =? 8239) || (c =? 8287)
   || (c =? 12288))%N.

(** [s.split("\n")]: always at least one piece. *)
Fixpoint split_nl (s : str) : list str :=
  match s with
  | [] => [[]]
  | c :: s' =>
    if (c =? NL)%N then [] :: split_nl s'
    else match split_nl s' with
         | [] => [[c]]
         | piece :: pieces => (c :: piece) :: pieces
         end
  end.

(** [s.lstrip()], [s.rstrip()], [s.strip()]. *)
Fixpoint lstrip (s : str) : str :=
  match s with
  | c :: s' => if isspace c then lstrip s' else s
  | [] => []
  end.

Definition rstrip (s : str) : str := rev (lstrip (rev s)).

Definition strip (s : str) : str := rstrip (lstrip s).

(** [s.lstrip(chars)] for a one-character [chars]. *)
Fixpoint lstrip_char (x : N) (s : str) : str :=
  match s with
  | c :: s' => if (c =? x)%N then lstrip_char x s' else s
  | [] => []
  end.

(** [s.startswith(p)]. *)
Fixpoint startswith (p s : str) : bool :=
  match p, s with
  | [], _ => true
  | _ :: _, [] => false
  | a :: p', b :: s' => (a =? b)%N && startswith p' s'
  end.

(** [sep.join(parts)]. *)
Fixpoint join {A} (sep : list A) (parts : list (list A)) : list A :=
  match parts with
  | [] => []
  | [p] => p
  | p :: ps => p ++ sep ++ join sep ps
  end.

(** Truthiness of a [str]: non-empty. *)
Definition truthy (s : str) : bool :=
  match s with [] => false | _ => true end.

(** [enumerate(xs, start)]. *)
Fixpoint enumerate {A} (start : nat) (xs : list A) : list (nat * A) :=
  match xs with
  | [] => []
  | x :: xs' => (start, x) :: enumerate (S start) xs'
  end.

End Py.

(* ===================================================================== *)
(** ** The fragment of [re] used by the sources *)
(* ===================================================================== *)

(** A backtracking matcher with greedy quantifiers and numbered capture
    groups, in continuation-passing style.  Only what the patterns of the
    sources need is covered: repetition is applied to character classes
    only, and none of the patterns can match the empty string. *)
Module Re.
Import Py.

Inductive regex : Type :=
| Chr (c : N)                  (* a literal character *)
| Cls (p : N -> bool)          (* one character of a class: [..], \s, \d, . *)
| Seq (r1 r2 : regex)          (* r1 r2 *)
| Alt (r1 r2 : regex)          (* r1|r2 *)
| Opt (r : regex)              (* r? *)
| Star (p : N -> bool)         (* class* *)
| Plus (p : N -> bool)         (* class+ *)
| Grp (i : nat) (r : regex)    (* the i-th capturing group *)
| Bol (multiline : bool)       (* ^ *)
| Eol                          (* $ *)
| NotAfter (c : N).            (* (?<!c) *)

(** Captured groups, most recent first. *)
Definition captures : Type := list (nat * list N).

Fixpoint group (i : nat) (caps : captures) : list N :=
  match caps with
  | [] => []
  | (j, s) :: caps' => if Nat.eqb i j then s else group i caps'
  end.

(** The continuation gets the character before the cursor, the rest of the
    input and the groups captured so far. *)
Definition cont (A : Type) : Type := option N -> list N -> captures -> option A.

(** Greedy repetition of a class, giving characters back one at a time. *)
Fixpoint star {A} (p : N -> bool) (prev : option N) (s : list N)
    (k : option N -> list N -> option A) : option A :=
  match s with
  | c :: s' =>
    if p c then
      match star p (Some c) s' k with
      | Some a => Some a
      | None => k prev s
      end
    else k prev s
  | [] => k prev []
  end.

Fixpoint m {A} (r : regex) (prev : option N) (s : list N) (caps : captures)
    (k : cont A) {struct r} : option A :=
  match r with
  | Chr c =>
    match s with
    | x :: s' => if (x =? c)%N then k (Some x) s' caps else None
    | [] => None
    end
  | Cls p =>
    match s with
    | x :: s' => if p x then k (Some x) s' caps else None
    | [] => None
    end
  | Seq r1 r2 => m r1 prev s caps (fun prev' s' caps' => m r2 prev' s' caps' k)
  | Alt r1 r2 =>
    match m r1 prev s caps k with
    | Some a => Some a
    | None => m r2 prev s caps k
    end
  | Opt r1 =>
    match m r1 prev s caps k with
    | Some a => Some a
    | None => k prev s caps
    end
  | Star p => star p prev s (fun prev' s' => k prev' s' caps)
  | Plus p =>
    match s with
    | x :: s' =>
      if p x then star p (Some x) s' (fun prev' s' => k prev' s' caps) else None
    | [] => None
    end
  | Grp i r1 =>
    m r1 prev s caps
      (fun prev' s' caps' =>
         k prev' s' ((i, take (length s - length s') s) :: caps'))
  | Bol multiline =>
    match prev with
    | None => k prev s caps
    | Some c => if multiline && (c =? NL)%N then k prev s caps else None
    end
  | Eol =>
    match s with
    | [] => k prev s caps
    | [c] => if (c =? NL)%N then k prev s caps else None
    | _ => None
    end
  | NotAfter c =>
    match prev with
    | Some x => if (x =? c)%N then None else k prev s caps
    | None => k prev s caps
    end
  end.

(** One match attempt at the cursor: the groups and the number of
    characters consumed. *)
Definition match_at (r : regex) (prev : option N) (s : list N)
    : option (captures * nat) :=
  m r prev s [] (fun _ s' caps => Some (caps, length s - length s')).

(** [re.match(r, s)]: the groups of a match anchored at the start. *)
Definition re_match (r : regex) (s : list N) : option captures :=
  fst <$> match_at r None s.

(** Scanning for leftmost non-overlapping matches; [skip] counts the
    characters of the previous match still to be passed over. *)
Fixpoint scan (r : regex) (skip : nat) (prev : option N) (s : list N)
    : list (list N + captures) :=
  match s with
  | [] => []
  | c :: s' =>
    match skip with
    | S n => scan r n (Some c) s'
    | O =>
      match match_at r prev s with
      | Some (caps, S n) => inr caps :: scan r n (Some c) s'
      | _ => inl [c] :: scan r 0 (Some c) s'
      end
    end
  end.

(** [re.finditer(r, s)]: the groups of every match. *)
Definition finditer (r : regex) (s : list N) : list captures :=
  omap (fun e => match e with inr caps => Some caps | inl _ => None end)
       (scan r 0 None s).

(** A replacement template: literal text and group references. *)
Inductive titem : Type := TLit (s : list N) | TGrp (i : nat).

Definition expand (t : list titem) (caps : captures) : list N :=
  concat (map (fun it => match it with
                         | TLit s => s
                         | TGrp i => group i caps
                         end) t).

(** [re.sub(r, template, s)]. *)
Definition sub (r : regex) (t : list titem) (s : list N) : list N :=
  concat (map (fun e => match e with
                        | inl cs => cs
                        | inr caps => expand t caps
                        end) (scan r 0 None s)).

(** Character classes. *)
Definition any_but_newline (c : N) : bool := negb (c =? NL)%N.
Definition none_of (cs : list N) (c : N) : bool :=
  negb (existsb (N.eqb c) cs).
Definition one_of (cs : list N) (c : N) : bool := existsb (N.eqb c) cs.

End Re.

(* ===================================================================== *)
(** ** [src/readers/script_parser.py] *)
(* ===================================================================== *)

Module ScriptParser.
Import Py Re.

Record DialogueLine : Type := {
  speaker : str;
  text : str;
  line_number : nat
}.

Record DialogueScript : Type := {
  lines : list DialogueLine;
  speakers : gset str
}.

(** [DialogueScript.get_lines_by_speaker] *)
Definition get_lines_by_speaker (self : DialogueScript) (who : str)
    : list DialogueLine :=
  filter (fun line => speaker line = who) (lines self).

(** What a path names in the file system, as [Path.exists] and
    [Path.read_text] see it. *)
Inductive node : Type :=
| Absent                    (* nothing there: [exists()] is [False] *)
| File (content : str)      (* a regular file holding UTF-8 text *)
| Dir                       (* a directory *)
| Unstatable.               (* [stat] fails otherwise, e.g. name too long *)

Definition filesystem : Type := str -> node.

Inductive error : Type :=
| IsADirectoryError
| OSError.

(** The [content: str | Path] argument. *)
Inductive source : Type :=
| OfPath (p : str)
| OfStr (s : str).

(** [Path(s)]: pathlib turns the empty string into the current directory
    ["."]; other spellings are left to the [filesystem]. *)
Definition Path (s : str) : str :=
  match s with
  | [] => u "."
  | _ => s
  end.

(** [Path.read_text(encoding="utf-8")]. *)
Definition read_text (fs : filesystem) (p : str) : error + str :=
  match fs p with
  | File c => inr c
  | Dir => inl IsADirectoryError
  | Absent | Unstatable => inl OSError
  end.

(** The first lines of both parsers:
[[
    if isinstance(content, Path):
        content = content.read_text(encoding="utf-8")
    elif Path(content).exists():
        content = Path(content).read_text(encoding="utf-8")
]] *)
Definition load (fs : filesystem) (content : source) : error + str :=
  match content with
  | OfPath p => read_text fs p
  | OfStr s =>
    match fs (Path s) with
    | Absent => inr s
    | Unstatable => inl OSError
    | File _ | Dir => read_text fs (Path s)
    end
  end.

Definition LBRACK : N := Eval cbv in chr "[".
Definition RBRACK : N := Eval cbv in chr "]".
Definition COLON : N := Eval cbv in chr ":".
Definition WCOLON : N := Eval cbv in chr "：".
Definition LLENT : N := Eval cbv in chr "【".
Definition RLENT : N := Eval cbv in chr "】".
Definition HASH : N := Eval cbv in chr "#".

(** The tail shared by the three patterns: [\s*[:：]\s*(.+)$]. *)
Definition colon_text : regex :=
  Seq (Star isspace)
   (Seq (Cls (one_of [COLON; WCOLON]))
    (Seq (Star isspace)
     (Seq (Grp 2 (Plus any_but_newline)) Eol))).

(** [^\[([^\]]+)\]\s*[:：]\s*(.+)$] *)
Definition pattern_bracket : regex :=
  Seq (Bol false)
   (Seq (Chr LBRACK)
    (Seq (Grp 1 (Plus (none_of [RBRACK])))
     (Seq (Chr RBRACK) colon_text))).

(** [^【([^】]+)】\s*[:：]\s*(.+)$] *)
Definition pattern_lenticular : regex :=
  Seq (Bol false)
   (Seq (Chr LLENT)
    (Seq (Grp 1 (Plus (none_of [RLENT])))
     (Seq (Chr RLENT) colon_text))).

(** [^([^:：\[\]【】]+)\s*[:：]\s*(.+)$] *)
Definition pattern_bare : regex :=
  Seq (Bol false)
   (Seq (Grp 1 (Plus (none_of [COLON; WCOLON; LBRACK; RBRACK; LLENT; RLENT])))
    colon_text).

Definition patterns : list regex :=
  [pattern_bracket; pattern_lenticular; pattern_bare].

(** The inner [for pattern in patterns] loop on a stripped line: the first
    pattern that matches decides, and the [break] leaves the loop whether
    or not the line is kept. *)
Fixpoint first_match (ps : list regex) (line : str) : option (str * str) :=
  match ps with
  | [] => None
  | p :: ps' =>
    match re_match p line with
    | Some caps => Some (strip (group 1 caps), strip (group 2 caps))
    | None => first_match ps' line
    end
  end.

(** What one input line contributes: [Some (speaker, text)] when it is
    appended, [None] when it is skipped. *)
Definition parse_line (raw : str) : option (str * str) :=
  let line := strip raw in
  if negb (truthy line) || startswith [HASH] line then None
  else
    match first_match patterns line with
    | Some (sp, tx) => if truthy sp && truthy tx then Some (sp, tx) else None
    | None => None
    end.

(** The outer loop, threading [lines] and [speakers]. *)
Fixpoint parse_loop (numbered : list (nat * str))
    (acc : list DialogueLine) (spk : gset str) : DialogueScript :=
  match numbered with
  | [] => {| lines := acc; speakers := spk |}
  | (n, raw) :: rest =>
    match parse_line raw with
    | Some (sp, tx) =>
      parse_loop rest
        (acc ++ [{| speaker := sp; text := tx; line_number := n |}])
        ({[sp]} ∪ spk)
    | None => parse_loop rest acc spk
    end
  end.

Definition parse_text (content : str) : DialogueScript :=
  parse_loop (enumerate 1 (split_nl content)) [] ∅.

Definition parse_dialogue_script (fs : filesystem) (content : source)
    : error + DialogueScript :=
  match load fs content with
  | inl e => inl e
  | inr txt => inr (parse_text txt)
  end.

(** State of the narration loop: sections emitted, current title, current
    body lines. *)
Fixpoint narration_loop (ls : list str) (sections : list (str * str))
    (current_section : str) (current_text : list str) : list (str * str) :=
  match ls with
  | [] =>
    match current_text with
    | [] => sections
    | _ => sections ++ [(current_section, strip (join [NL] current_text))]
    end
  | raw :: rest =>
    let line := strip raw in
    if startswith [HASH; HASH] line then
      let sections' :=
        match current_text with
        | [] => sections
        | _ => sections ++ [(current_section, strip (join [NL] current_text))]
        end in
      narration_loop rest sections' (strip (lstrip_char HASH line)) []
    else if startswith [HASH] line then
      narration_loop rest sections current_section current_text
    else if truthy line then
      narration_loop rest sections current_section (current_text ++ [line])
    else
      narration_loop rest sections current_section current_text
  end.

Definition parse_narration_script (fs : filesystem) (content : source)
    : error + list (str * str) :=
  match load fs content with
  | inl e => inl e
  | inr txt => inr (narration_loop (split_nl txt) [] (u "Introduction") [])
  end.

(** A file system in which the working directory is all there is. *)
Definition only_cwd : filesystem :=
  fun p => if bool_decide (p = u ".") then Dir else Absent.

End ScriptParser.

(* ===================================================================== *)
(** ** [sorted] *)
(* ===================================================================== *)

(** Python's [sorted] is a stable sort; it is modelled by insertion from
    the right, which keeps equal keys in their original order. *)
Module Sorted.

Section Sort.
Context {A : Type} (le : A -> A -> bool).

Fixpoint insert (x : A) (l : list A) : list A :=
  match l with
  | [] => [x]
  | y :: l' => if le x y then x :: y :: l' else y :: insert x l'
  end.

Definition sorted (l : list A) : list A := foldr insert [] l.

End Sort.

(** Code-point order on [str], as [<=] on Python strings. *)
Fixpoint str_le (a b : list N) : bool :=
  match a, b with
  | [], _ => true
  | _ :: _, [] => false
  | x :: a', y :: b' => (x <? y)%N || (x =? y)%N && str_le a' b'
  end.

End Sorted.

(* ===================================================================== *)
(** ** [src/tts/voice_manager.py] *)
(* ===================================================================== *)

Module VoiceManager.
Import Py Sorted.

(** Rates and pitches are decimal literals; they are kept as tenths. *)
Record VoiceConfig : Type := {
  name : str;
  language_code : str;
  speaking_rate : Z;   (* in tenths: 10 is 1.0 *)
  pitch : Z            (* in tenths *)
}.

Definition voice (n lang : string) : VoiceConfig :=
  {| name := u n; language_code := u lang; speaking_rate := 10; pitch := 0 |}.

(** The preset dictionaries, in insertion order. *)
Definition JAPANESE_VOICES : list (str * VoiceConfig) :=
  [ (u "male_1", voice "ja-JP-Neural2-C" "ja-JP");
    (u "male_2", voice "ja-JP-Neural2-D" "ja-JP");
    (u "female_1", voice "ja-JP-Neural2-B" "ja-JP");
    (u "female_2", voice "ja-JP-Wavenet-A" "ja-JP");
    (u "narrator",
     {| name := u "ja-JP-Neural2-B"; language_code := u "ja-JP";
        speaking_rate := 9; pitch := 0 |}) ].

Definition ENGLISH_VOICES : list (str * VoiceConfig) :=
  [ (u "male_1", voice "en-US-Neural2-D" "en-US");
    (u "male_2", voice "en-US-Neural2-J" "en-US");
    (u "female_1", voice "en-US-Neural2-F" "en-US");
    (u "female_2", voice "en-US-Neural2-C" "en-US");
    (u "narrator",
     {| name := u "en-US-Neural2-F"; language_code := u "en-US";
        speaking_rate := 9; pitch := 0 |}) ].

(** [list(d.values())] *)
Definition values (d : list (str * VoiceConfig)) : list VoiceConfig := d.*2.

Record VoiceManager : Type := {
  default_language : str;
  speaker_voices : gmap str VoiceConfig;
  _voice_index : nat
}.

(** [VoiceManager(default_language)] *)
Definition init (lang : str) : VoiceManager :=
  {| default_language := lang; speaker_voices := ∅; _voice_index := 0 |}.

(** The preset list for the manager's language. *)
Definition presets (self : VoiceManager) : list VoiceConfig :=
  if startswith (u "ja") (default_language self)
  then values JAPANESE_VOICES
  else values ENGLISH_VOICES.

(** [voices[i % len(voices)]]; [None] stands for the exception raised on an
    empty list, which the two preset lists never are. *)
Definition at_mod (voices : list VoiceConfig) (i : nat) : option VoiceConfig :=
  voices !! (i mod length voices).

Definition assign_voice (self : VoiceManager) (speaker : str)
    (voice_config : VoiceConfig) : VoiceManager :=
  {| default_language := default_language self;
     speaker_voices := <[speaker := voice_config]> (speaker_voices self);
     _voice_index := _voice_index self |}.

Definition _auto_assign_voice (self : VoiceManager) (speaker : str)
    : VoiceManager :=
  match at_mod (presets self) (_voice_index self) with
  | Some v =>
    {| default_language := default_language self;
       speaker_voices := <[speaker := v]> (speaker_voices self);
       _voice_index := _voice_index self + 1 |}
  | None => self
  end.

(** [get_voice]: the voice returned and the manager afterwards. *)
Definition get_voice (self : VoiceManager) (speaker : str)
    : option VoiceConfig * VoiceManager :=
  let self' :=
    match speaker_voices self !! speaker with
    | None => _auto_assign_voice self speaker
    | Some _ => self
    end in
  (speaker_voices self' !! speaker, self').

(** The loop of [assign_voices_for_dialogue] over
    [enumerate(sorted(speakers))]. *)
Fixpoint assign_loop (available_voices : list VoiceConfig)
    (ranked : list (nat * str)) (voices : gmap str VoiceConfig)
    : gmap str VoiceConfig :=
  match ranked with
  | [] => voices
  | (i, speaker) :: rest =>
    match voices !! speaker with
    | None =>
      match at_mod available_voices i with
      | Some v => assign_loop available_voices rest (<[speaker := v]> voices)
      | None => voices
      end
    | Some _ => assign_loop available_voices rest voices
    end
  end.

Definition assign_voices_for_dialogue (self : VoiceManager)
    (speakers : gset str) : VoiceManager :=
  {| default_language := default_language self;
     speaker_voices :=
       assign_loop (presets self)
         (enumerate 0 (sorted str_le (elements speakers)))
         (speaker_voices self);
     _voice_index := _voice_index self |}.

(** [d.get(key)] on a preset dictionary. *)
Fixpoint get (d : list (str * VoiceConfig)) (key : str) : option VoiceConfig :=
  match d with
  | [] => None
  | (k, v) :: d' => if bool_decide (k = key) then Some v else get d' key
  end.

Definition get_preset (self : VoiceManager) (preset_name : str)
    : option VoiceConfig :=
  if startswith (u "ja") (default_language self)
  then get JAPANESE_VOICES preset_name
  else get ENGLISH_VOICES preset_name.

End VoiceManager.

(* ===================================================================== *)
(** ** The [pydub.AudioSegment] interface used by the sources *)
(* ===================================================================== *)

(** [pydub] is a third-party library; the sources use its [AudioSegment]
    through [len] (milliseconds), [+], [*], slicing, [silent], [overlay],
    [apply_gain], [fade_in], [fade_out] and [dBFS].  A segment is modelled
    at millisecond resolution, as the list of its one-millisecond frames:
    concatenation, repetition, slicing and overlay are then list
    operations.  What a frame holds, how two frames are mixed and
    everything that goes through decibels (floating point) is left to a
    [Codec]. *)
Module Pydub.

Class Codec : Type := {
  frame : Type;                               (* one millisecond of audio *)
  quiet : frame;                              (* ... of silence *)
  mix : frame -> frame -> frame;              (* [audioop.add] *)
  dB : Type;                                  (* a [float] of decibels *)
  dB_lit : Z -> dB;                           (* the literal [z.0] *)
  dB_sub : dB -> dB -> dB;
  dBFS : list frame -> dB;
  apply_gain : list frame -> dB -> list frame;
  fade_in : list frame -> Z -> list frame;
  fade_out : list frame -> Z -> list frame
}.

(** The contract of the three gain operations relied upon: they change
    amplitudes, not durations. *)
Class KeepsDuration (C : Codec) : Prop := {
  apply_gain_length : ∀ a g, length (apply_gain a g) = length a;
  fade_in_length : ∀ a ms, length (fade_in a ms) = length a;
  fade_out_length : ∀ a ms, length (fade_out a ms) = length a
}.

(** An [AudioSegment]: its frames, one per millisecond. *)
Abbreviation AudioSegment := (list frame).

Section Segment.
Context `{C : Codec}.

(** [len(a)] *)
Definition len (a : AudioSegment) : Z := Z.of_nat (length a).

(** [AudioSegment.empty()] *)
Definition empty : AudioSegment := [].

(** [AudioSegment.silent(duration=d)]; a negative duration gives the empty
    segment. *)
Definition silent (duration : Z) : AudioSegment :=
  replicate (Z.to_nat duration) quiet.

(** [a + b] *)
Definition add (a b : AudioSegment) : AudioSegment := a ++ b.

(** [a * n] *)
Definition mul (a : AudioSegment) (n : Z) : AudioSegment :=
  concat (replicate (Z.to_nat n) a).

(** A slice bound: negative bounds count from the end. *)
Definition bound (a : AudioSegment) (ms : Z) : nat :=
  if (ms <? 0)%Z then Z.to_nat (len a + ms) else Z.to_nat ms.

(** [a[:ms]] and [a[ms:]] *)
Definition slice_to (a : AudioSegment) (ms : Z) : AudioSegment :=
  take (bound a ms) a.
Definition slice_from (a : AudioSegment) (ms : Z) : AudioSegment :=
  drop (bound a ms) a.

(** [base.overlay(layer, position=p)]: the result is as long as [base];
    where [layer] (cut at the end of [base]) lies, the frames of both are
    mixed. *)
Definition overlay (base layer : AudioSegment) (position : Z) : AudioSegment :=
  let head := slice_to base position in
  let tail := slice_from base position in
  head ++ zip_with mix tail layer ++ drop (length layer) tail.

End Segment.
End Pydub.

(* ===================================================================== *)
(** ** [src/audio/processor.py] *)
(* ===================================================================== *)

Module AudioProcessor.
Import Pydub.

Section Processor.
Context `{C : Codec}.

Definition concatenate (segments : list AudioSegment) : AudioSegment :=
  match segments with
  | [] => empty
  | first :: others => foldl (fun result segment => add result segment) first others
  end.

Definition add_silence (duration_ms : Z) : AudioSegment := silent duration_ms.

Definition insert_silence_between (segments : list AudioSegment)
    (silence_ms : Z) : AudioSegment :=
  match segments with
  | [] => empty
  | first :: others =>
    let silence := silent silence_ms in
    foldl (fun result segment => add result (add silence segment)) first others
  end.

Definition normalize (audio : AudioSegment) (target_dBFS : dB) : AudioSegment :=
  let change_in_dBFS := dB_sub target_dBFS (dBFS audio) in
  apply_gain audio change_in_dBFS.

Definition get_duration_ms (audio : AudioSegment) : Z := len audio.

End Processor.
End AudioProcessor.

(* ===================================================================== *)
(** ** [src/audio/track_builder.py] *)
(* ===================================================================== *)

Module TrackBuilder.
Import Pydub Sorted.

Section Builder.
Context `{C : Codec}.

Record AudioClip : Type := {
  audio : AudioSegment;
  start_ms : Z;
  label : list N
}.

(** The builder's state is its list of clips, in insertion order. *)
Definition add_clip (clips : list AudioClip) (a : AudioSegment) (start : Z)
    (lbl : list N) : list AudioClip :=
  clips ++ [{| audio := a; start_ms := start; label := lbl |}].

(** [add_sequential], on files already loaded. *)
Fixpoint add_sequential (clips : list AudioClip)
    (audio_files : list (list N * AudioSegment)) (gap_ms : Z)
    (current_position : Z) : list AudioClip :=
  match audio_files with
  | [] => clips
  | (file_path, a) :: rest =>
    add_sequential
      (clips ++ [{| audio := a; start_ms := current_position;
                    label := file_path |}])
      rest gap_ms (current_position + len a + gap_ms)
  end.

Definition clip_end (clip : AudioClip) : Z := (start_ms clip + len (audio clip))%Z.

(** [max(...)] over a non-empty sequence, given by its first element and
    the rest. *)
Definition max_of (first : Z) (others : list Z) : Z := foldl Z.max first others.

(** The key order of [sorted(self.clips, key=lambda c: c.start_ms)]. *)
Definition by_start (a b : AudioClip) : bool := (start_ms a <=? start_ms b)%Z.

Definition build (clips : list AudioClip) (normalize : bool) : AudioSegment :=
  match clips with
  | [] => empty
  | first :: others =>
    let max_end := max_of (clip_end first) (clip_end <$> others) in
    let result :=
      foldl (fun result clip => overlay result (audio clip) (start_ms clip))
            (silent max_end) (sorted by_start clips) in
    if normalize then AudioProcessor.normalize result (dB_lit (-20)) else result
  end.

Inductive error : Type := ZeroDivisionError.

(** [build_with_bgm], on a background track already loaded. *)
Definition build_with_bgm (clips : list AudioClip) (bgm : AudioSegment)
    (bgm_volume_db : dB) (fade_in_ms fade_out_ms : Z) : error + AudioSegment :=
  let voice_track := build clips true in
  let track_duration := len voice_track in
  let looped :=
    if (len bgm <? track_duration)%Z then
      if (len bgm =? 0)%Z then inl ZeroDivisionError
      else
        let loops_needed := (track_duration / len bgm + 1)%Z in
        inr (mul bgm loops_needed)
    else inr bgm in
  match looped with
  | inl e => inl e
  | inr bgm =>
    let bgm := slice_to bgm track_duration in
    let bgm := apply_gain bgm bgm_volume_db in
    let bgm := fade_in bgm fade_in_ms in
    let bgm := fade_out bgm fade_out_ms in
    inr (overlay bgm voice_track 0)
  end.

Definition get_duration_ms (clips : list AudioClip) : Z :=
  match clips with
  | [] => 0
  | first :: others => max_of (clip_end first) (clip_end <$> others)
  end.

End Builder.
End TrackBuilder.

(* ===================================================================== *)
(** ** WAV files and the synthesis gateway *)
(* ===================================================================== *)

(** The part of the standard [wave] module the sources use.  A WAV file is
    its parameters and the bytes of its data chunk. *)
Module Wave.

Record params : Type := {
  nchannels : N;
  sampwidth : N;
  framerate : N
}.

Record wav : Type := {
  wav_params : params;
  data : list Byte.byte
}.

(** Bytes per frame. *)
Definition framesize (p : params) : nat := N.to_nat (nchannels p * sampwidth p).

(** [w.getnframes()]: whole frames in the data chunk. *)
Definition getnframes (w : wav) : nat :=
  length (data w) / framesize (wav_params w).

(** [w.readframes(n)] from the start of the file. *)
Definition readframes (w : wav) (n : nat) : list Byte.byte :=
  take (n * framesize (wav_params w)) (data w).

(** Opened for writing with [setparams(p)]; [writeframes] appends. *)
Definition create (p : params) : wav := {| wav_params := p; data := [] |}.

Definition writeframes (w : wav) (bytes : list Byte.byte) : wav :=
  {| wav_params := wav_params w; data := data w ++ bytes |}.

(** The format every segment is saved in: mono, 16 bit, 24000 Hz. *)
Definition mono16_24k : params :=
  {| nchannels := 1; sampwidth := 2; framerate := 24000 |}.

End Wave.

(** The text-to-speech service, [client.models.generate_content(...)]
    followed by the extraction of the audio bytes from the response.  It
    is an external collaborator: the [n]-th call of a run, for a voice and
    a prompt, either gives audio bytes or raises. *)
Module Gateway.

Definition gateway : Type :=
  nat -> list N -> list N -> option (list Byte.byte).

Record segment : Type := {
  seg_speaker : list N;
  seg_text : list N
}.

End Gateway.

(* ===================================================================== *)
(** ** [app.py]: [parse_dialogue] *)
(* ===================================================================== *)

Module AppScript.
Import Py Re Gateway.

(** [s.replace(old, new)] for a non-empty [old]: leftmost occurrences,
    not overlapping; [skip] counts the characters of the occurrence just
    replaced that are still to be passed over. *)
Fixpoint replace_loop (old new : str) (skip : nat) (s : str) : str :=
  match s with
  | [] => []
  | c :: s' =>
    match skip with
    | S n => replace_loop old new n s'
    | O =>
      if startswith old s then new ++ replace_loop old new (length old - 1) s'
      else c :: replace_loop old new 0 s'
    end
  end.

Definition replace (old new s : str) : str := replace_loop old new 0 s.

(** The decimal digits of Unicode 14 (category Nd), as runs: what [\d]
    matches in a [str] pattern. *)
Definition Nd_runs : list (N * N) :=
  [ (48, 10); (1632, 10); (1776, 10); (1984, 10); (2406, 10); (2534, 10);
    (2662, 10); (2790, 10); (2918, 10); (3046, 10); (3174, 10); (3302, 10);
    (3430, 10); (3558, 10); (3664, 10); (3792, 10); (3872, 10); (4160, 10);
    (4240, 10); (6112, 10); (6160, 10); (6470, 10); (6608, 10); (6784, 10);
    (6800, 10); (6992, 10); (7088, 10); (7232, 10); (7248, 10); (42528, 10);
    (43216, 10); (43264, 10); (43472, 10); (43504, 10); (43600, 10);
    (44016, 10); (65296, 10); (66720, 10); (68912, 10); (69734, 10);
    (69872, 10); (69942, 10); (70096, 10); (70384, 10); (70736, 10);
    (70864, 10); (71248, 10); (71360, 10); (71472, 10); (71904, 10);
    (72016, 10); (72784, 10); (73040, 10); (73120, 10); (92768, 10);
    (92864, 10); (93008, 10); (120782, 50); (123200, 10); (123632, 10);
    (125264, 10); (130032, 10) ]%N.

Definition isdecimal (c : N) : bool :=
  existsb (fun r => (r.1 <=? c) && (c <? r.1 + r.2))%N Nd_runs.

(** [[A-Za-z]] *)
Definition isletter (c : N) : bool :=
  ((65 <=? c) && (c <=? 90) || (97 <=? c) && (c <=? 122))%N.

Definition LBRACK : N := Eval cbv in chr "[".
Definition RBRACK : N := Eval cbv in chr "]".
Definition LPAREN : N := Eval cbv in chr "(".
Definition RPAREN : N := Eval cbv in chr ")".
Definition WLPAREN : N := Eval cbv in chr "（".
Definition WRPAREN : N := Eval cbv in chr "）".
Definition COLON : N := Eval cbv in chr ":".
Definition WCOLON : N := Eval cbv in chr "：".
Definition WA : N := Eval cbv in chr "話".
Definition SHA : N := Eval cbv in chr "者".

Definition colon : N -> bool := one_of [COLON; WCOLON].

(** [話者\d+] *)
Definition washa : regex := Seq (Chr WA) (Seq (Chr SHA) (Plus isdecimal)).

(** [（(話者\d+)）[:：]?\s*] *)
Definition wide_paren : regex :=
  Seq (Chr WLPAREN)
   (Seq (Grp 1 washa)
    (Seq (Chr WRPAREN) (Seq (Opt (Cls colon)) (Star isspace)))).

(** [\((話者\d+)\)[:：]?\s*] *)
Definition paren : regex :=
  Seq (Chr LPAREN)
   (Seq (Grp 1 washa)
    (Seq (Chr RPAREN) (Seq (Opt (Cls colon)) (Star isspace)))).

(** [(?<!\[)(話者\d+)[:：]\s*] *)
Definition bare : regex :=
  Seq (NotAfter LBRACK)
   (Seq (Grp 1 washa) (Seq (Cls colon) (Star isspace))).

(** [^([A-Za-z])[:：]\s*] with [re.MULTILINE] *)
Definition letter : regex :=
  Seq (Bol true)
   (Seq (Grp 1 (Cls isletter)) (Seq (Cls colon) (Star isspace))).

(** The replacement [r'[\1]: '] *)
Definition bracketed : list titem :=
  [TLit [LBRACK]; TGrp 1; TLit (u "]: ")].

(** [\[(話者\d+|[^\]]+)\][:：]?\s*(.+)] *)
Definition pattern : regex :=
  Seq (Chr LBRACK)
   (Seq (Grp 1 (Alt washa (Plus (none_of [RBRACK]))))
    (Seq (Chr RBRACK)
     (Seq (Opt (Cls colon))
      (Seq (Star isspace) (Grp 2 (Plus any_but_newline)))))).

(** The rewriting of the dialect spellings, in the order of the source. *)
Definition normalise (content : str) : str :=
  let content := replace (u "Speaker 1:") (u "[話者1]:") content in
  let content := replace (u "Speaker 2:") (u "[話者2]:") content in
  let content := sub wide_paren bracketed content in
  let content := sub paren bracketed content in
  let content := replace (u "１") (u "1") content in
  let content := replace (u "２") (u "2") content in
  let content := replace (u "３") (u "3") content in
  let content := replace (u "４") (u "4") content in
  let content := replace (u "５") (u "5") content in
  let content := sub bare bracketed content in
  sub letter bracketed content.

(** The segment a match of [pattern] gives, if its text is not blank. *)
Definition segment_of (caps : captures) : option segment :=
  let speaker := strip (group 1 caps) in
  let text := strip (group 2 caps) in
  if truthy text then Some {| seg_speaker := speaker; seg_text := text |}
  else None.

Definition parse_dialogue (content : str) : list segment :=
  omap segment_of (finditer pattern (normalise content)).

End AppScript.

(* ===================================================================== *)
(** ** [app.py]: combining WAV files, generating audio *)
(* ===================================================================== *)

Module App.
Import Py Sorted Wave Gateway.

(** The files of a run, all in the fresh temporary directory. *)
Inductive path : Type :=
| segment_wav (i : nat)        (* f"segment_{i}.wav" *)
| combined_wav                 (* "combined.wav" *)
| output_mp3.                  (* "output.mp3" *)

#[global] Instance path_eq_dec : EqDecision path.
Proof. solve_decision. Defined.

#[global] Instance path_countable : Countable path.
Proof.
  refine (inj_countable'
    (fun p => match p with
              | segment_wav i => inl i
              | combined_wav => inr true
              | output_mp3 => inr false
              end)
    (fun x => match x with
              | inl i => segment_wav i
              | inr true => combined_wav
              | inr false => output_mp3
              end) _).
  by intros [].
Defined.

Inductive file : Type :=
| Wav (w : wav)
| Mp3 (bytes : list Byte.byte).

Abbreviation filesystem := (gmap path file).

Inductive error : Type := FileNotFoundError.

(** [b'\x00' * n] *)
Definition zeros (n : nat) : list Byte.byte := replicate n Byte.x00.

(** [int(params.framerate * 0.3)]: the product is formed in floating
    point; for frame rates up to 2,000,000 it is the floor of 3/10 of the
    rate. *)
Definition silence_frame_count (p : params) : N := (framerate p * 3 / 10)%N.

(** The loop of [combine_wav_files] over the opened inputs. *)
Definition combine_loop (silence : list Byte.byte) (inputs : list wav)
    (output : wav) : wav :=
  foldl (fun out w =>
           writeframes (writeframes out (readframes w (getnframes w))) silence)
        output inputs.

(** [wave.open(p, 'rb')] for each path; [None] if one is missing. *)
Definition open_all (fs : filesystem) (paths : list path) : option (list wav) :=
  mapM (fun p => match fs !! p with
                 | Some (Wav w) => Some w
                 | _ => None
                 end) paths.

Definition combine_wav_files (fs : filesystem) (wav_files : list path)
    (output_path : path) : error + filesystem :=
  match wav_files with
  | [] => inr fs
  | _ =>
    match open_all fs wav_files with
    | None => inl FileNotFoundError
    | Some [] => inr fs
    | Some ((first :: _) as inputs) =>
      let params := wav_params first in
      let silence_frames :=
        (silence_frame_count params * nchannels params * sampwidth params)%N in
      let silence := zeros (N.to_nat silence_frames) in
      inr (<[output_path := Wav (combine_loop silence inputs (create params))]> fs)
    end
  end.

Definition female_voices : list str :=
  [u "Aoede"; u "Kore"; u "Leda"; u "Zephyr"].
Definition male_voices : list str :=
  [u "Charon"; u "Puck"; u "Orus"; u "Fenrir"].

Definition woman : str := u "as an expressive young woman speaking Japanese".
Definition expert : str := u "as a calm knowledgeable expert speaking Japanese".

(** The first loop of [generate_audio]: voices and styles by sort rank. *)
Definition assign (segments : list segment) : gmap str str * gmap str str :=
  let speakers := elements (list_to_set (seg_speaker <$> segments) : gset str) in
  foldl (fun '(voices, styles) '(i, speaker) =>
           if Nat.even i then
             (<[speaker := default [] (female_voices !! (i / 2 mod length female_voices))]> voices,
              <[speaker := woman]> styles)
           else
             (<[speaker := default [] (male_voices !! (i / 2 mod length male_voices))]> voices,
              <[speaker := expert]> styles))
        (∅, ∅) (enumerate 0 (sorted str_le speakers)).

(** [f"Say {style}: {text}" if style else text] *)
Definition prompt_of (style text : str) : str :=
  if truthy style then u "Say " ++ style ++ u ": " ++ text else text.

(** The synthesis loop: a segment whose call raises is reported and left
    out; the others are saved and their paths appended to [temp_files]. *)
Fixpoint synthesize_loop (client : gateway) (voices styles : gmap str str)
    (numbered : list (nat * segment)) (fs : filesystem)
    (temp_files : list path) : filesystem * list path :=
  match numbered with
  | [] => (fs, temp_files)
  | (i, seg) :: rest =>
    let voice := default (u "Kore") (voices !! seg_speaker seg) in
    let style := default [] (styles !! seg_speaker seg) in
    match client i voice (prompt_of style (seg_text seg)) with
    | Some audio_data =>
      let temp_path := segment_wav i in
      let fs' := <[temp_path := Wav (writeframes (create mono16_24k) audio_data)]> fs in
      synthesize_loop client voices styles rest fs' (temp_files ++ [temp_path])
    | None => synthesize_loop client voices styles rest fs temp_files
    end
  end.

(** What [generate_audio] returns: the output buffer and the duration, kept
    as the frame count and frame rate whose quotient it is. *)
Record generated : Type := {
  output_buffer : file;
  duration_frames : nat;
  duration_rate : N
}.

(** [generate_audio], from a fresh temporary directory.  [ffmpeg] stands
    for the external encoder of [wav_to_mp3]; [None] is its failure. *)
Definition generate_audio (client : gateway)
    (ffmpeg : wav -> option (list Byte.byte)) (segments : list segment)
    : error + generated :=
  let '(voices, styles) := assign segments in
  let '(fs, temp_files) :=
    synthesize_loop client voices styles (enumerate 0 segments) ∅ [] in
  match combine_wav_files fs temp_files combined_wav with
  | inl e => inl e
  | inr fs =>
    match fs !! combined_wav with
    | Some (Wav combined) =>
      let out :=
        match ffmpeg combined with
        | Some bytes => Mp3 bytes
        | None => Wav combined
        end in
      inr {| output_buffer := out;
             duration_frames := getnframes combined;
             duration_rate := framerate (wav_params combined) |}
    | _ => inl FileNotFoundError
    end
  end.

End App.

(* ===================================================================== *)
(** ** [src/tts/gemini_tts.py]: [synthesize_dialogue] *)
(* ===================================================================== *)

Module GeminiTTS.
Import Py Sorted Wave Gateway Pydub.

(** The files touched: the temporary segments next to the output, and the
    output itself (taken not to be named like a temporary segment). *)
Inductive path : Type :=
| temp_segment (i : nat)       (* output_path.parent / f"_temp_segment_{i}.wav" *)
| output_path.

#[global] Instance path_eq_dec : EqDecision path.
Proof. solve_decision. Defined.

#[global] Instance path_countable : Countable path.
Proof.
  refine (inj_countable'
    (fun p => match p with temp_segment i => Some i | output_path => None end)
    (fun x => match x with Some i => temp_segment i | None => output_path end) _).
  by intros [].
Defined.

Inductive format : Type := mp3 | wav_format.

Section Gemini.
Context `{C : Codec}.

(** [AudioSegment.from_wav]: decoding, left to pydub. *)
Variable from_wav : wav -> AudioSegment.

Inductive file : Type :=
| Wav (w : wav)
| Exported (fmt : format) (a : AudioSegment).   (* [a.export(path, format=fmt)] *)

Definition _save_wav (fs : gmap path file) (audio_data : list Byte.byte)
    (p : path) : gmap path file :=
  <[p := Wav (writeframes (create mono16_24k) audio_data)]> fs.

(** The loop of [_combine_audio_files] over the decoded segments. *)
Definition combine (segments : list AudioSegment) : AudioSegment :=
  let silence := silent 300 in
  foldl (fun combined segment => add combined (add segment silence))
        empty segments.

(** [None] when a file to combine cannot be read. *)
Definition _combine_audio_files (fs : gmap path file) (files : list path)
    (fmt : format) : option (gmap path file) :=
  match mapM (fun p => match fs !! p with
                       | Some (Wav w) => Some (from_wav w)
                       | _ => None
                       end) files with
  | Some segments => Some (<[output_path := Exported fmt (combine segments)]> fs)
  | None => None
  end.

Definition female_voices : list str :=
  [u "Aoede"; u "Kore"; u "Leda"; u "Zephyr"].
Definition male_voices : list str :=
  [u "Puck"; u "Charon"; u "Orus"; u "Fenrir"].

(** The default voice assignment, when [speaker_voices is None]. *)
Definition default_voices (segments : list segment) : gmap str str :=
  let speakers := elements (list_to_set (seg_speaker <$> segments) : gset str) in
  foldl (fun voices '(i, speaker) =>
           if Nat.even i then
             <[speaker := default [] (female_voices !! (i / 2 mod length female_voices))]> voices
           else
             <[speaker := default [] (male_voices !! (i / 2 mod length male_voices))]> voices)
        ∅ (enumerate 0 (sorted str_le speakers)).

(** [f"Say {style}: {text}"] if a non-empty style is set, else the text. *)
Definition prompt_of (style : option str) (text : str) : str :=
  match style with
  | Some st => if truthy st then u "Say " ++ st ++ u ": " ++ text else text
  | None => text
  end.

(** The synthesis loop; the [except] branch prints and [continue]s. *)
Fixpoint synthesize_loop (client : gateway) (voices styles : gmap str str)
    (numbered : list (nat * segment)) (fs : gmap path file)
    (temp_files : list path) : gmap path file * list path :=
  match numbered with
  | [] => (fs, temp_files)
  | (i, seg) :: rest =>
    let voice := default (u "Kore") (voices !! seg_speaker seg) in
    let style := styles !! seg_speaker seg in
    let temp_path := temp_segment i in
    match client i voice (prompt_of style (seg_text seg)) with
    | Some audio_data =>
      synthesize_loop client voices styles rest
        (_save_wav fs audio_data temp_path) (temp_files ++ [temp_path])
    | None => synthesize_loop client voices styles rest fs temp_files
    end
  end.

(** [f.unlink()] for every temporary file that exists. *)
Definition unlink_all (fs : gmap path file) (files : list path) : gmap path file :=
  foldl (fun fs f => delete f fs) fs files.

(** [synthesize_dialogue]: the file system afterwards; [None] stands for
    an exception out of [_combine_audio_files]. *)
Definition synthesize_dialogue (client : gateway) (fs : gmap path file)
    (segments : list segment) (fmt : format)
    (speaker_voices speaker_styles : option (gmap str str))
    : option (gmap path file) :=
  let voices := default (default_voices segments) speaker_voices in
  let styles := default ∅ speaker_styles in
  let '(fs, temp_files) :=
    synthesize_loop client voices styles (enumerate 0 segments) fs [] in
  match temp_files with
  | [] => Some fs
  | _ =>
    match _combine_audio_files fs temp_files fmt with
    | Some fs => Some (unlink_all fs temp_files)
    | None => None
    end
  end.

End Gemini.
End GeminiTTS.

(* ===================================================================== *)
(** ** Dialect spellings of a dialogue *)
(* ===================================================================== *)

(** The spellings of a speaker tag that the specification lists, and the
    rendering of a dialogue in them. *)
Module Dialect.
Import Py AppScript.

Inductive style : Type :=
| SpeakerColon      (* Speaker 1: *)
| BareColon         (* 話者1: *)
| WideParen         (* （話者1） *)
| Paren             (* (話者1) *)
| Bracket.          (* [話者1]: , the canonical form *)

#[global] Instance style_eq_dec : EqDecision style.
Proof. solve_decision. Defined.

Definition SPEAKER : str := Eval cbv in u "Speaker ".
Definition SPACE : N := Eval cbv in chr " ".

Definition tag (st : style) (n : str) : str :=
  match st with
  | SpeakerColon => SPEAKER ++ n ++ [COLON]
  | BareColon => WA :: SHA :: n ++ [COLON]
  | WideParen => WLPAREN :: WA :: SHA :: n ++ [WRPAREN]
  | Paren => LPAREN :: WA :: SHA :: n ++ [RPAREN]
  | Bracket => LBRACK :: WA :: SHA :: n ++ [RBRACK; COLON]
  end.

(** One line of a dialogue: who speaks (by number), what, and how the tag
    is spelled. *)
Record spoken : Type := {
  how : style;
  number : str;
  words : str
}.

Definition line (l : spoken) : str :=
  tag (how l) (number l) ++ SPACE :: words l.

Definition render (ls : list spoken) : str := join [NL] (line <$> ls).

(** The same line with the canonical tag. *)
Definition canonical (l : spoken) : spoken :=
  {| how := Bracket; number := number l; words := words l |}.

(** [old in s] *)
Fixpoint contains (old s : str) : bool :=
  match s with
  | [] => startswith old s
  | _ :: s' => orb (startswith old s) (contains old s')
  end.

(** The numbers are digit strings; [Speaker N:] exists for 1 and 2 only. *)
Definition numbered (l : spoken) : Prop :=
  number l ≠ [] ∧ Forall (fun c => isdecimal c = true) (number l)
  ∧ (how l = SpeakerColon → number l = u "1" ∨ number l = u "2").

(** The words are one line of text that starts with a visible character
    and holds no speaker marker of its own. *)
Definition plain (l : spoken) : Prop :=
  (NL ∉ words l)
  ∧ (∃ c w, words l = c :: w ∧ isspace c = false)
  ∧ contains [WA; SHA] (words l) = false
  ∧ contains (u "Speaker 1:") (words l) = false
  ∧ contains (u "Speaker 2:") (words l) = false.

End Dialect.


(* ===================================================================== *)
(** ** Properties of the dialogue parser *)
(* ===================================================================== *)

Module ScriptParserFacts.
Import Py Re ScriptParser.

(** The record a numbered input line gives rise to, if any. *)
Definition entry (p : nat * str) : option DialogueLine :=
  match parse_line p.2 with
  | Some (sp, tx) => Some {| speaker := sp; text := tx; line_number := p.1 |}
  | None => None
  end.

Lemma omap_entry_cons n raw rest :
  omap entry ((n, raw) :: rest)
  = match parse_line raw with
    | Some (sp, tx) =>
      {| speaker := sp; text := tx; line_number := n |} :: omap entry rest
    | None => omap entry rest
    end.
Proof.
  change (omap entry ((n, raw) :: rest))
    with (match entry (n, raw) with
          | Some l => l :: omap entry rest
          | None => omap entry rest
          end).
  unfold entry at 1. simpl. by destruct (parse_line raw) as [[sp tx]|].
Qed.

Lemma parse_loop_lines numbered acc spk :
  lines (parse_loop numbered acc spk) = acc ++ omap entry numbered.
Proof.
  revert acc spk.
  induction numbered as [|[n raw] rest IH]; intros acc spk.
  - simpl. by rewrite app_nil_r.
  - rewrite omap_entry_cons. simpl.
    destruct (parse_line raw) as [[sp tx]|].
    + rewrite IH, <- app_assoc. reflexivity.
    + apply IH.
Qed.

Lemma parse_loop_speakers numbered acc spk :
  speakers (parse_loop numbered acc spk)
  = list_to_set (speaker <$> omap entry numbered) ∪ spk.
Proof.
  revert acc spk.
  induction numbered as [|[n raw] rest IH]; intros acc spk.
  - simpl. set_solver.
  - rewrite omap_entry_cons. simpl.
    destruct (parse_line raw) as [[sp tx]|].
    + rewrite IH. simpl. set_solver.
    + apply IH.
Qed.

Lemma elem_of_enumerate {A} (xs : list A) start n x :
  (n, x) ∈ enumerate start xs ↔ start ≤ n ∧ xs !! (n - start) = Some x.
Proof.
  revert start.
  induction xs as [|y ys IH]; intros start; simpl.
  - rewrite elem_of_nil. naive_solver.
  - rewrite elem_of_cons, IH. split.
    + intros [Heq | [Hle Hl]].
      * inversion Heq; subst. rewrite Nat.sub_diag. auto.
      * split; [lia|].
        replace (n - start) with (S (n - S start)) by lia. exact Hl.
    + intros [Hle Hl].
      destruct (decide (n = start)) as [->|Hne].
      * rewrite Nat.sub_diag in Hl. simpl in Hl. left. congruence.
      * right. split; [lia|].
        replace (n - start) with (S (n - S start)) in Hl by lia. exact Hl.
Qed.

Lemma elem_of_entries (l : DialogueLine) (numbered : list (nat * str)) :
  l ∈ omap entry numbered ↔
  ∃ raw, (line_number l, raw) ∈ numbered
         ∧ parse_line raw = Some (speaker l, text l).
Proof.
  rewrite list_elem_of_omap. split.
  - intros [[n raw] [Hin He]]. unfold entry in He. simpl in He.
    destruct (parse_line raw) as [[sp tx]|] eqn:Hp; [|done].
    inversion He; subst. simpl. eauto.
  - intros [raw [Hin Hp]]. exists (line_number l, raw). split; [done|].
    unfold entry. simpl. rewrite Hp. by destruct l.
Qed.

Lemma entries_numbers_ge {A} (xs : list A) start (f : nat * A -> option DialogueLine) :
  (∀ p l, f p = Some l → line_number l = p.1) →
  Forall (fun n => start ≤ n) (line_number <$> omap f (enumerate start xs)).
Proof.
  intros Hf. revert start.
  induction xs as [|x xs IH]; intros start; simpl; [constructor|].
  destruct (f (start, x)) as [l|] eqn:Hl; simpl.
  - constructor.
    + apply Hf in Hl. simpl in Hl. lia.
    + eapply Forall_impl; [apply IH|]. simpl. lia.
  - eapply Forall_impl; [apply IH|]. simpl. lia.
Qed.

Lemma entry_number p l : entry p = Some l → line_number l = p.1.
Proof.
  unfold entry. destruct (parse_line p.2) as [[sp tx]|]; [|done].
  intros He. by inversion He.
Qed.

Lemma entries_increasing (xs : list str) start :
  StronglySorted lt (line_number <$> omap entry (enumerate start xs)).
Proof.
  revert start.
  induction xs as [|x xs IH]; intros start; simpl; [constructor|].
  destruct (entry (start, x)) as [l|] eqn:Hl; simpl; [|apply IH].
  constructor; [apply IH|].
  apply entry_number in Hl. simpl in Hl. rewrite Hl.
  eapply Forall_impl; [apply (entries_numbers_ge xs (S start) entry), entry_number|].
  simpl. lia.
Qed.

Definition abc : str := u "[A]: hi
[B]: bye
[A]: ok".

Definition abc_script : DialogueScript :=
  {| lines := [ {| speaker := u "A"; text := u "hi"; line_number := 1 |};
                {| speaker := u "B"; text := u "bye"; line_number := 2 |};
                {| speaker := u "A"; text := u "ok"; line_number := 3 |} ];
     speakers := {[ u "A"; u "B" ]} |}.

(** C7.  When the string ["[A]: hi\n[B]: bye\n[A]: ok"] does not name an
    existing file, it parses to three lines, in document order, with
    speakers {A, B} and line numbers 1, 2, 3.  In general, for whatever
    text the parser loads, a record is in the result exactly when its
    [line_number] is the 1-based position of an input line (every line of
    [split("\n")] counted, skipped ones too) that parses to its speaker and
    text; the records come in increasing line-number order and [speakers]
    is the set of their speakers. *)
Theorem parse_dialogue_line_numbers :
  (∀ fs, fs (Path abc) = Absent →
         parse_dialogue_script fs (OfStr abc) = inr abc_script)
  ∧ (∀ fs content txt,
       load fs content = inr txt →
       ∃ script,
         parse_dialogue_script fs content = inr script
         ∧ (∀ l, l ∈ lines script ↔
                 1 ≤ line_number l
                 ∧ ∃ raw, split_nl txt !! (line_number l - 1) = Some raw
                          ∧ parse_line raw = Some (speaker l, text l))
         ∧ StronglySorted lt (line_number <$> lines script)
         ∧ speakers script = list_to_set (speaker <$> lines script)).
Proof.
  split.
  - intros fs Hfs. unfold parse_dialogue_script, load. rewrite Hfs.
    vm_compute. reflexivity.
  - intros fs content txt Hload. exists (parse_text txt).
    unfold parse_dialogue_script. rewrite Hload. split; [done|].
    unfold parse_text.
    rewrite parse_loop_speakers, parse_loop_lines. simpl.
    split; [|split].
    + intros l. rewrite elem_of_entries. split.
      * intros [raw [Hin Hp]]. apply elem_of_enumerate in Hin as [Hle Hl].
        eauto.
      * intros [Hle [raw [Hl Hp]]]. exists raw. split; [|done].
        by apply elem_of_enumerate.
    + apply entries_increasing.
    + set_solver.
Qed.

Lemma parse_dialogue_line_numbers_witness :
  only_cwd (Path abc) = Absent
  ∧ parse_dialogue_script only_cwd (OfStr abc) = inr abc_script
  ∧ load only_cwd (OfStr abc) = inr abc
  ∧ ∃ script,
      parse_dialogue_script only_cwd (OfStr abc) = inr script
      ∧ StronglySorted lt (line_number <$> lines script).
Proof.
  destruct parse_dialogue_line_numbers as [Hex Hgen].
  split; [reflexivity|]. split; [apply Hex; reflexivity|].
  split; [reflexivity|].
  destruct (Hgen only_cwd (OfStr abc) abc eq_refl)
    as [script [Hs [_ [Hsorted _]]]].
  exists script. split; assumption.
Defined.

(** C3.  The empty string is not parsed as an empty script: [Path("")] is
    the current directory, which exists, so both parsers go on to
    [read_text] it and raise [IsADirectoryError]. *)
Theorem parse_empty_string_raises (fs : filesystem) :
  fs (u ".") = Dir →
  parse_dialogue_script fs (OfStr []) = inl IsADirectoryError
  ∧ parse_narration_script fs (OfStr []) = inl IsADirectoryError.
Proof.
  intros Hcwd.
  unfold parse_dialogue_script, parse_narration_script, load, read_text.
  change (Path []) with (u "."). rewrite Hcwd. done.
Qed.

Lemma parse_empty_string_raises_witness :
  only_cwd (u ".") = Dir
  ∧ parse_dialogue_script only_cwd (OfStr []) = inl IsADirectoryError
  ∧ parse_narration_script only_cwd (OfStr []) = inl IsADirectoryError.
Proof.
  split; [reflexivity|].
  apply (parse_empty_string_raises only_cwd). reflexivity.
Defined.

(** Past the file-system check the parsers themselves accept the empty
    text: no lines, no speakers, no sections. *)
Lemma parse_text_empty :
  parse_text [] = {| lines := []; speakers := ∅ |}
  ∧ narration_loop (split_nl []) [] (u "Introduction") [] = [].
Proof. split; reflexivity. Qed.

End ScriptParserFacts.

Module VoiceManagerFacts.
Import Py Sorted VoiceManager.

(** The batch mode leaves the counter of the incremental mode alone. *)
Lemma batch_keeps_voice_index self speakers :
  _voice_index (assign_voices_for_dialogue self speakers) = _voice_index self.
Proof. reflexivity. Qed.

(** The incremental mode takes the preset at the counter and advances it. *)
Lemma auto_assign_next self speaker v :
  at_mod (presets self) (_voice_index self) = Some v →
  speaker_voices (_auto_assign_voice self speaker) !! speaker = Some v
  ∧ _voice_index (_auto_assign_voice self speaker) = _voice_index self + 1.
Proof.
  intros Hv. unfold _auto_assign_voice. rewrite Hv. simpl.
  by rewrite lookup_insert_eq.
Qed.

Definition session : VoiceManager :=
  assign_voices_for_dialogue (init (u "ja-JP")) {[ u "A"; u "B" ]}.

(** C4.  The two modes do not share a counter.  In a fresh Japanese
    session, the batch assignment of {A, B} gives A the preset 0 and B the
    preset 1 by sort rank and leaves [_voice_index] at 0; the first
    incremental request, for C, then takes the preset 0 again, the voice
    of A, and not the preset 2, the next unused one. *)
Theorem batch_then_incremental_collide :
  let ps := values JAPANESE_VOICES in
  speaker_voices session !! u "A" = ps !! 0
  ∧ speaker_voices session !! u "B" = ps !! 1
  ∧ _voice_index session = 0
  ∧ (get_voice session (u "C")).1 = ps !! 0
  ∧ (get_voice session (u "C")).1 = speaker_voices session !! u "A"
  ∧ (get_voice session (u "C")).1 ≠ ps !! 2.
Proof. vm_compute. repeat split; congruence. Qed.

End VoiceManagerFacts.

(* ===================================================================== *)
(** ** Properties of [sorted] *)
(* ===================================================================== *)

Module SortedFacts.
Import Sorted.


Section Sort.
Context {A : Type} (le : A -> A -> bool).

Lemma insert_perm x l : insert le x l ≡ₚ x :: l.
Proof.
  induction l as [|y l IH]; simpl; [done|].
  destruct (le x y); [done|].
  rewrite IH. apply Permutation_swap.
Qed.

Lemma sorted_perm l : sorted le l ≡ₚ l.
Proof.
  induction l as [|x l IH]; simpl; [done|].
  rewrite insert_perm. by f_equiv.
Qed.

Hypothesis le_total : ∀ x y, le x y = false → le y x = true.
Hypothesis le_trans : ∀ x y z, le x y = true → le y z = true → le x z = true.



End Sort.

(** Stability: elements that the order does not separate keep their
    original relative order. *)
Section Stable.
Context {A : Type} (le : A -> A -> bool) (P : A -> Prop) `{∀ x, Decision (P x)}.
Hypothesis le_within : ∀ x y, P x → P y → le x y = true.



End Stable.
End SortedFacts.

(* ===================================================================== *)
(** ** Properties of the audio assembly *)
(* ===================================================================== *)

Module AudioFacts.
Import Py Pydub Sorted SortedFacts AudioProcessor TrackBuilder.

Local Open Scope Z_scope.

(** A codec to run the assembly on: 1 kHz mono 16-bit PCM, so that a frame
    is one sample; mixing adds with saturation; gains and fades are the
    identity (0 dB, 0 ms). *)
Definition clip16 (x : Z) : Z := Z.max (-32768) (Z.min 32767 x).

Definition pcm16 : Codec :=
  {| frame := Z; quiet := 0; mix := fun a b => clip16 (a + b);
     dB := Z; dB_lit := fun z => z; dB_sub := Z.sub; dBFS := fun _ => 0;
     apply_gain := fun a _ => a; fade_in := fun a _ => a;
     fade_out := fun a _ => a |}.

Lemma pcm16_keeps_duration : KeepsDuration pcm16.
Proof. by split. Qed.

Section Facts.
Context `{C : Codec}.

Definition total_len (segments : list AudioSegment) : Z :=
  foldr (fun a acc => len a + acc) 0 segments.

Lemma len_add (a b : AudioSegment) : len (add a b) = len a + len b.
Proof. unfold len, add. rewrite length_app. lia. Qed.

Lemma len_silent (d : Z) : 0 ≤ d → len (silent d) = d.
Proof. intros Hd. unfold len, silent. rewrite length_replicate. lia. Qed.


Lemma take_drop_bound (a : AudioSegment) (p : Z) :
  slice_to a p ++ slice_from a p = a.
Proof. apply take_drop. Qed.

(** [overlay] never changes the duration of its base. *)
Lemma overlay_length (base layer : AudioSegment) (p : Z) :
  length (overlay base layer p) = length base.
Proof.
  unfold overlay.
  rewrite !length_app, length_zip_with, length_drop.
  rewrite <- (take_drop_bound base p) at 4. rewrite length_app.
  unfold slice_to, slice_from. lia.
Qed.


(** *** [insert_silence_between] *)

Lemma foldl_add_gap (silence first : AudioSegment) (others : list AudioSegment) :
  foldl (fun result segment => add result (add silence segment)) first others
  = join silence (first :: others).
Proof.
  revert first. induction others as [|s others IH]; intros first; [done|].
  simpl foldl. rewrite IH. unfold add.
  destruct others as [|s' others]; simpl; by rewrite <- ?app_assoc.
Qed.

Lemma foldl_add (first : AudioSegment) (others : list AudioSegment) :
  foldl (fun result segment => add result segment) first others
  = join [] (first :: others).
Proof.
  revert first. induction others as [|s others IH]; intros first; [done|].
  simpl foldl. rewrite IH. unfold add.
  destruct others as [|s' others]; simpl; by rewrite <- ?app_assoc.
Qed.

Lemma len_join (sep first : AudioSegment) (others : list AudioSegment) :
  len (join sep (first :: others))
  = total_len (first :: others) + Z.of_nat (length others) * len sep.
Proof.
  revert first. induction others as [|s others IH]; intros first.
  - simpl. unfold len. lia.
  - change (join sep (first :: s :: others))
      with (first ++ sep ++ join sep (s :: others)).
    unfold len in *. rewrite !length_app, !Nat2Z.inj_add, IH.
    simpl. unfold len. lia.
Qed.

(** C8.  For a non-empty list of buffers and a gap [g ≥ 0], the result of
    [insert_silence_between] is the buffers joined by [g] ms of silence:
    silence between adjacent buffers only, none before the first or after
    the last; its length is the sum of the lengths plus (n-1)·g; with
    [g = 0] it is the plain concatenation; and for three buffers with a
    300 ms gap the length is len a + len b + len c + 2·300. *)
Theorem insert_silence_between_length (segments : list AudioSegment) (g : Z) :
  segments ≠ [] →
  0 ≤ g →
  insert_silence_between segments g = join (silent g) segments
  ∧ len (insert_silence_between segments g)
    = total_len segments + (Z.of_nat (length segments) - 1) * g
  ∧ insert_silence_between segments 0 = concatenate segments
  ∧ ∀ a b c : AudioSegment,
      len (insert_silence_between [a; b; c] 300)
      = len a + len b + len c + 2 * 300.
Proof.
  intros Hne Hg.
  destruct segments as [|first others]; [done|].
  unfold insert_silence_between, concatenate.
  rewrite !foldl_add_gap, foldl_add.
  split; [done|]. split; [|split; [done|]].
  - rewrite len_join, len_silent by done. simpl length. lia.
  - intros a b c. rewrite foldl_add_gap, len_join, len_silent by lia.
    simpl. lia.
Qed.

End Facts.

Lemma insert_silence_between_length_witness :
  let a : list (@frame pcm16) := [1; 2] in
  let b : list (@frame pcm16) := [3] in
  insert_silence_between [a; b] 3 = ([1; 2; 0; 0; 0; 3] : list (@frame pcm16))
  ∧ len (insert_silence_between [a; b] 3) = 6.
Proof.
  intros a b.
  destruct (insert_silence_between_length (C := pcm16) [a; b] 3)
    as [Hjoin [Hlen _]]; [done | lia |].
  split; [exact Hjoin | exact Hlen].
Defined.

(** *** [TrackBuilder.build] *)

Section TrackFacts.
Context `{C : Codec}.

Definition overlay_clip (result : AudioSegment) (clip : AudioClip) : AudioSegment :=
  overlay result (audio clip) (start_ms clip).

Lemma foldl_overlay_length (base : AudioSegment) (order : list AudioClip) :
  length (foldl overlay_clip base order) = length base.
Proof.
  revert base. induction order as [|c order IH]; intros base; simpl; [done|].
  rewrite IH. apply overlay_length.
Qed.

Lemma max_of_ge (first : Z) (others : list Z) :
  first ≤ max_of first others ∧ Forall (fun x => x ≤ max_of first others) others.
Proof.
  unfold max_of. revert first.
  induction others as [|y others IH]; intros first; simpl.
  - split; [lia | constructor].
  - destruct (IH (first `max` y)) as [H1 H2].
    split; [lia|]. constructor; [lia | done].
Qed.




Lemma build_false (first : AudioClip) (others : list AudioClip) :
  build (first :: others) false
  = foldl overlay_clip
      (silent (max_of (clip_end first) (clip_end <$> others)))
      (sorted by_start (first :: others)).
Proof. reflexivity. Qed.

Lemma len_build_max (first : AudioClip) (others : list AudioClip) :
  0 ≤ start_ms first →
  len (build (first :: others) false)
  = max_of (clip_end first) (clip_end <$> others).
Proof.
  intros Hpos. rewrite build_false. unfold len.
  rewrite foldl_overlay_length. apply len_silent.
  pose proof (max_of_ge (clip_end first) (clip_end <$> others)) as [Hf _].
  unfold clip_end, len in *. lia.
Qed.



(** *** [TrackBuilder.build_with_bgm] *)

Lemma len_slice_to (a : AudioSegment) (ms : Z) :
  0 ≤ ms ≤ len a → len (slice_to a ms) = ms.
Proof.
  intros Hms. unfold slice_to, bound, len in *.
  replace (ms <? 0) with false by lia. rewrite length_take. lia.
Qed.




End TrackFacts.

Definition pcm (samples : list Z) : list (@frame pcm16) := samples.

Definition clip_a : AudioClip (C := pcm16) :=
  {| audio := pcm [1000; 1000; 1000]; start_ms := 0; label := [] |}.




(** *** The fades of pydub on a short track *)














End AudioFacts.

(* ===================================================================== *)
(** ** Properties of the two dialogue pipelines *)
(* ===================================================================== *)

Module PipelineFacts.
Import Py Sorted Wave Gateway Pydub.

Lemma omap_cons {A B} (f : A -> option B) (x : A) (l : list A) :
  omap f (x :: l)
  = match f x with Some y => y :: omap f l | None => omap f l end.
Proof. reflexivity. Qed.

(** Successful calls keep the indices of [enumerate] apart. *)
Lemma omap_enumerate_fst {A B} (f : nat * A -> option (nat * B)) (xs : list A) k :
  (∀ p q, f p = Some q → q.1 = p.1) →
  Forall (fun i => k ≤ i) (omap f (enumerate k xs)).*1
  ∧ NoDup (omap f (enumerate k xs)).*1.
Proof.
  intros Hf. revert k.
  induction xs as [|x xs IH]; intros k; simpl; [split; constructor|].
  destruct (IH (S k)) as [Hge Hnd].
  assert (Hge' : Forall (fun i => k ≤ i) (omap f (enumerate (S k) xs)).*1).
  { eapply Forall_impl; [exact Hge|]. simpl. lia. }
  destruct (f (k, x)) as [q|] eqn:Hq; simpl; [|done].
  apply Hf in Hq. simpl in Hq. rewrite Hq. split.
  - by constructor.
  - constructor; [|done]. rewrite Forall_forall in Hge.
    intros Hin. apply Hge in Hin. lia.
Qed.

(** *** [app.py] *)
Section AppFacts.
Import App.

(** The saved form of a segment's audio. *)
Definition saved (audio_data : list Byte.byte) : wav :=
  writeframes (create mono16_24k) audio_data.

(** The outcome of the call for one numbered segment. *)
Definition call (client : gateway) (voices styles : gmap str str)
    (p : nat * segment) : option (nat * list Byte.byte) :=
  let voice := default (u "Kore") (voices !! seg_speaker p.2) in
  let style := default [] (styles !! seg_speaker p.2) in
  (fun a => (p.1, a)) <$> client p.1 voice (prompt_of style (seg_text p.2)).

Definition store (fs : filesystem) (c : nat * list Byte.byte) : filesystem :=
  <[segment_wav c.1 := Wav (saved c.2)]> fs.

Lemma synthesize_loop_calls client voices styles numbered fs temp_files :
  synthesize_loop client voices styles numbered fs temp_files
  = (foldl store fs (omap (call client voices styles) numbered),
     temp_files ++ (segment_wav <$> (omap (call client voices styles) numbered).*1)).
Proof.
  revert fs temp_files.
  induction numbered as [|[i seg] rest IH]; intros fs temp_files.
  - simpl. by rewrite app_nil_r.
  - rewrite omap_cons. cbn [synthesize_loop].
    unfold call at 1 4. cbn [fst snd].
    destruct (client i _ _) as [a|]; cbn [fmap option_fmap option_map].
    + rewrite IH. cbn [foldl fmap list_fmap fst]. by rewrite <- app_assoc.
    + apply IH.
Qed.

Lemma foldl_store_other (fs : filesystem) (cs : list (nat * list Byte.byte)) p :
  (∀ i, p = segment_wav i → i ∉ cs.*1) →
  foldl store fs cs !! p = fs !! p.
Proof.
  revert fs. induction cs as [|[j b] cs IH]; intros fs Hp; simpl; [done|].
  rewrite IH.
  - unfold store. simpl. apply lookup_insert_ne. intros <-.
    apply (Hp j eq_refl). set_solver.
  - intros i Hi Hin. apply (Hp i Hi). set_solver.
Qed.

Lemma foldl_store_lookup (fs : filesystem) (cs : list (nat * list Byte.byte)) :
  NoDup cs.*1 →
  Forall (fun c => foldl store fs cs !! segment_wav c.1 = Some (Wav (saved c.2))) cs.
Proof.
  revert fs. induction cs as [|[j b] cs IH]; intros fs Hnd; [constructor|].
  simpl in Hnd. apply NoDup_cons in Hnd as [Hj Hnd]. constructor.
  - simpl. rewrite foldl_store_other.
    + unfold store. simpl. apply lookup_insert_eq.
    + intros i [= <-]. done.
  - simpl. by apply IH.
Qed.

Lemma open_all_lookup (fs : filesystem) (cs : list (nat * list Byte.byte)) :
  Forall (fun c => fs !! segment_wav c.1 = Some (Wav (saved c.2))) cs →
  open_all fs (segment_wav <$> cs.*1) = Some (saved <$> cs.*2).
Proof.
  intros Hall. unfold open_all. apply mapM_Some.
  induction Hall as [|[j b] cs' Hc Hall' IH]; simpl; [constructor|].
  constructor; [|done]. simpl in Hc. by rewrite Hc.
Qed.

Lemma open_all_stored (fs : filesystem) (cs : list (nat * list Byte.byte)) :
  NoDup cs.*1 →
  open_all (foldl store fs cs) (segment_wav <$> cs.*1) = Some (saved <$> cs.*2).
Proof. intros Hnd. by apply open_all_lookup, foldl_store_lookup. Qed.

Lemma combine_loop_data silence inputs output :
  wav_params (combine_loop silence inputs output) = wav_params output
  ∧ data (combine_loop silence inputs output)
    = data output
      ++ concat ((fun w => readframes w (getnframes w) ++ silence) <$> inputs).
Proof.
  revert output. induction inputs as [|w inputs IH]; intros output; simpl.
  - by rewrite app_nil_r.
  - destruct (IH (writeframes (writeframes output (readframes w (getnframes w))) silence))
      as [Hp Hd].
    unfold combine_loop in *. simpl. rewrite Hp, Hd. simpl.
    by rewrite <- !app_assoc.
Qed.

Lemma length_readframes w :
  length (readframes w (getnframes w)) = getnframes w * framesize (wav_params w).
Proof.
  unfold readframes, getnframes. rewrite length_take.
  pose proof (Nat.Div0.mul_div_le (length (data w)) (framesize (wav_params w))).
  lia.
Qed.

(** Frames of the inputs, summed. *)
Definition total_frames (inputs : list wav) : nat :=
  foldr (fun w acc => getnframes w + acc) 0 inputs.

Lemma length_combined (n : nat) (inputs : list wav) :
  Forall (fun w => wav_params w = mono16_24k) inputs →
  length (concat ((fun w => readframes w (getnframes w) ++ zeros (2 * n)) <$> inputs))
  = 2 * (total_frames inputs + length inputs * n).
Proof.
  induction 1 as [|w inputs Hw Hall IH]; [done|].
  rewrite fmap_cons. cbn [concat].
  change (total_frames (w :: inputs)) with (getnframes w + total_frames inputs).
  rewrite !length_app, IH, length_readframes, Hw.
  unfold zeros. rewrite length_replicate.
  change (framesize mono16_24k) with 2. cbn [length]. lia.
Qed.

Lemma concat_snoc_suffix {A B} (f : A -> list B) (t : list B) (l : list A) :
  l ≠ [] → ∃ body, concat ((fun x => f x ++ t) <$> l) = body ++ t.
Proof.
  intros Hne. destruct (exists_last Hne) as [l' [x ->]].
  exists (concat ((fun x => f x ++ t) <$> l') ++ f x).
  rewrite fmap_app, concat_app. simpl. by rewrite app_nil_r, app_assoc.
Qed.

Lemma combine_wav_files_24k (fs : filesystem) (wav_files : list path)
    (inputs : list wav) (out_path : path) :
  wav_files ≠ [] →
  open_all fs wav_files = Some inputs →
  Forall (fun w => wav_params w = mono16_24k) inputs →
  ∃ out,
    combine_wav_files fs wav_files out_path = inr (<[out_path := Wav out]> fs)
    ∧ wav_params out = mono16_24k
    ∧ data out
      = concat ((fun w => readframes w (getnframes w) ++ zeros (N.to_nat 14400))
                  <$> inputs)
    ∧ getnframes out = total_frames inputs + length inputs * N.to_nat 7200.
Proof.
  intros Hne Hopen Hall.
  unfold combine_wav_files. rewrite Hopen.
  destruct wav_files as [|f wav_files]; [done|].
  destruct inputs as [|first inputs].
  { apply length_mapM in Hopen. done. }
  pose proof (Forall_inv Hall) as Hfirst.
  set (silence := zeros _).
  assert (Hsil : silence = zeros (N.to_nat 14400)).
  { unfold silence. by rewrite Hfirst. }
  clearbody silence. subst silence.
  destruct (combine_loop_data (zeros (N.to_nat 14400)) (first :: inputs)
              (create (wav_params first))) as [Hp Hd].
  change (wav_params (create (wav_params first))) with (wav_params first) in Hp.
  change (data (create (wav_params first))) with (@nil Byte.byte) in Hd.
  rewrite app_nil_l in Hd.
  eexists. split; [reflexivity|].
  split; [by rewrite Hp|]. split; [done|].
  simpl in Hfirst. unfold getnframes. rewrite Hd, Hp, Hfirst.
  replace (N.to_nat 14400) with (2 * N.to_nat 7200) by lia.
  rewrite length_combined by done.
  change (framesize mono16_24k) with 2.
  rewrite Nat.mul_comm, Nat.div_mul by done. done.
Qed.

(** What is read back from a saved segment: its bytes up to the last
    whole 16-bit frame. *)
Lemma readframes_saved (audio_data : list Byte.byte) :
  readframes (saved audio_data) (getnframes (saved audio_data))
  = take (2 * (length audio_data / 2)) audio_data.
Proof.
  unfold readframes, getnframes, saved, writeframes, create. cbn [data wav_params].
  change (framesize mono16_24k) with 2%nat. by rewrite Nat.mul_comm.
Qed.

End AppFacts.

Lemma combine_concat `{C : Codec} (segments : list AudioSegment) :
  GeminiTTS.combine segments = concat ((fun s => s ++ silent 300) <$> segments).
Proof.
  assert (Hc : ∀ acc : AudioSegment,
             foldl (fun combined segment => add combined (add segment (silent 300)))
                   acc segments
             = acc ++ concat ((fun s => s ++ silent 300) <$> segments)).
  { induction segments as [|s segments IH]; intros acc; simpl.
    - by rewrite app_nil_r.
    - rewrite IH. unfold add. by rewrite <- app_assoc. }
  apply (Hc []).
Qed.

(** C10.  Both combiners put the silence after every segment, the last
    one included.  With pydub, the loop of [_combine_audio_files] gives
    every segment followed by 300 ms of silence; so for files that are
    there [_combine_audio_files] exports, at the output path, every
    decoded file followed by 300 ms of silence, which lasts the sum of the
    durations plus n·300 ms and, when there is a file, ends in 300 ms of
    silence.  With [wave] ([combine_wav_files]), for a non-empty list of
    files in the format the segments are saved in (mono, 16 bit, 24000 Hz),
    the output holds the whole frames of every file followed by 7200
    frames (14400 bytes) of zeros, which at 24000 Hz are 300 ms; it has
    the sum of the frame counts plus n·7200 frames and ends in the
    silence. *)
Theorem silence_after_every_segment :
  (∀ (C : Codec) (segments : list AudioSegment),
     GeminiTTS.combine segments = concat ((fun s => s ++ silent 300) <$> segments)
     ∧ len (GeminiTTS.combine segments)
       = (AudioFacts.total_len segments + Z.of_nat (length segments) * 300)%Z
     ∧ (segments ≠ [] → ∃ body, GeminiTTS.combine segments = body ++ silent 300))
  ∧ (∀ (C : Codec) (from_wav : wav -> AudioSegment)
       (fs : gmap GeminiTTS.path GeminiTTS.file) files inputs fmt,
       Forall2 (fun p w => fs !! p = Some (GeminiTTS.Wav w)) files inputs →
       ∃ out,
         GeminiTTS._combine_audio_files from_wav fs files fmt
         = Some (<[GeminiTTS.output_path := GeminiTTS.Exported fmt out]> fs)
         ∧ out = concat ((fun w => from_wav w ++ silent 300) <$> inputs)
         ∧ len out
           = (AudioFacts.total_len (from_wav <$> inputs)
              + Z.of_nat (length files) * 300)%Z
         ∧ (files ≠ [] → ∃ body, out = body ++ silent 300))
  ∧ (∀ (fs : App.filesystem) wav_files inputs out_path,
       wav_files ≠ [] →
       App.open_all fs wav_files = Some inputs →
       Forall (fun w => wav_params w = mono16_24k) inputs →
       ∃ out,
         App.combine_wav_files fs wav_files out_path
         = inr (<[out_path := App.Wav out]> fs)
         ∧ data out
           = concat ((fun w => readframes w (getnframes w)
                               ++ App.zeros (N.to_nat 14400)) <$> inputs)
         ∧ getnframes out = total_frames inputs + length inputs * N.to_nat 7200
         ∧ ∃ body, data out = body ++ App.zeros (N.to_nat 14400))
  ∧ (App.silence_frame_count mono16_24k = 7200
     ∧ App.silence_frame_count mono16_24k * 1000 = 300 * framerate mono16_24k)%N.
Proof.
  assert (Hcombine : ∀ (C : Codec) (segments : list AudioSegment),
    GeminiTTS.combine segments = concat ((fun s => s ++ silent 300) <$> segments)
    ∧ len (GeminiTTS.combine segments)
      = (AudioFacts.total_len segments + Z.of_nat (length segments) * 300)%Z
    ∧ (segments ≠ [] → ∃ body, GeminiTTS.combine segments = body ++ silent 300)).
  { intros C segments.
    pose proof (combine_concat segments) as Heq.
    split; [done|]. split.
    + rewrite Heq. clear Heq.
      induction segments as [|s segments IH]; [done|].
      rewrite fmap_cons. cbn [concat].
      change (AudioFacts.total_len (s :: segments))
        with (len s + AudioFacts.total_len segments)%Z.
      unfold len in *. rewrite !length_app, !Nat2Z.inj_add, IH.
      unfold silent. rewrite length_replicate. cbn [length]. lia.
    + intros Hne. rewrite Heq. by apply (concat_snoc_suffix (fun s => s)). }
  split; [exact Hcombine|]. split; [|split].
  - intros C from_wav fs files inputs fmt Hfiles.
    destruct (Hcombine C (from_wav <$> inputs)) as (Heq & Hlen & Hend).
    exists (GeminiTTS.combine (from_wav <$> inputs)).
    pose proof (Forall2_length _ _ _ Hfiles) as Hn.
    split; [|split; [|split]].
    + unfold GeminiTTS._combine_audio_files.
      assert (Hm : mapM (fun p => match fs !! p with
                                  | Some (GeminiTTS.Wav w) => Some (from_wav w)
                                  | _ => None
                                  end) files
                   = Some (from_wav <$> inputs)).
      { apply mapM_Some. apply Forall2_fmap_r.
        eapply Forall2_impl; [exact Hfiles|]. intros p w Hp. simpl. by rewrite Hp. }
      by rewrite Hm.
    + rewrite Heq. by rewrite <- list_fmap_compose.
    + rewrite Hlen, length_fmap, Hn. done.
    + intros Hne. apply Hend. intros Hnil. apply fmap_nil_inv in Hnil.
      subst inputs. by destruct files.
  - intros fs wav_files inputs out_path Hne Hopen Hall.
    destruct (combine_wav_files_24k fs wav_files inputs out_path Hne Hopen Hall)
      as [out [Hrun [Hp [Hd Hn]]]].
    exists out. split; [done|]. split; [done|]. split; [done|].
    rewrite Hd. apply (concat_snoc_suffix (fun w => readframes w (getnframes w))).
    intros ->. apply length_mapM in Hopen. by destruct wav_files.
  - by vm_compute.
Qed.

Definition bytes_as_frames (w : wav) : list (@frame AudioFacts.pcm16) :=
  (fun b => Z.of_N (Byte.to_N b)) <$> data w.

(** Two saved segments next to the output of [synthesize_dialogue]. *)
Definition two_segments
    : gmap GeminiTTS.path (GeminiTTS.file (C := AudioFacts.pcm16)) :=
  <[GeminiTTS.temp_segment 0 := GeminiTTS.Wav (saved [Byte.x01; Byte.x02; Byte.x03])]>
    (<[GeminiTTS.temp_segment 2 := GeminiTTS.Wav (saved [Byte.x04; Byte.x05])]> ∅).

Definition two_files : App.filesystem :=
  <[App.segment_wav 0 := App.Wav (saved [Byte.x01; Byte.x02; Byte.x03])]>
    (<[App.segment_wav 2 := App.Wav (saved [Byte.x04; Byte.x05])]> ∅).

Lemma silence_after_every_segment_witness :
  (∃ out,
     App.combine_wav_files two_files [App.segment_wav 0; App.segment_wav 2]
       App.combined_wav
     = inr (<[App.combined_wav := App.Wav out]> two_files)
     ∧ data out
       = [Byte.x01; Byte.x02] ++ App.zeros (N.to_nat 14400)
         ++ [Byte.x04; Byte.x05] ++ App.zeros (N.to_nat 14400)
     ∧ getnframes out = 2 + 2 * N.to_nat 7200)
  ∧ GeminiTTS._combine_audio_files bytes_as_frames two_segments
      [GeminiTTS.temp_segment 0; GeminiTTS.temp_segment 2] GeminiTTS.wav_format
    = Some (<[GeminiTTS.output_path :=
                GeminiTTS.Exported GeminiTTS.wav_format
                  (AudioFacts.pcm [1; 2; 3]%Z ++ silent 300
                   ++ AudioFacts.pcm [4; 5]%Z ++ silent 300)]> two_segments).
Proof.
  destruct silence_after_every_segment as [_ [Hpydub [Hwave _]]]. split.
  - destruct (Hwave two_files [App.segment_wav 0; App.segment_wav 2]
                [saved [Byte.x01; Byte.x02; Byte.x03]; saved [Byte.x04; Byte.x05]]
                App.combined_wav)
      as [out [Hrun [Hd [Hn _]]]].
    + done.
    + reflexivity.
    + repeat constructor.
    + exists out. split; [exact Hrun|]. split; [|exact Hn].
      rewrite Hd. cbn [fmap list_fmap concat]. by rewrite <- !app_assoc, app_nil_r.
  - destruct (Hpydub AudioFacts.pcm16 bytes_as_frames two_segments
                [GeminiTTS.temp_segment 0; GeminiTTS.temp_segment 2]
                [saved [Byte.x01; Byte.x02; Byte.x03]; saved [Byte.x04; Byte.x05]]
                GeminiTTS.wav_format)
      as [out [Hrun [Hout _]]].
    + repeat constructor.
    + rewrite Hrun, Hout. cbn [fmap list_fmap concat].
      by rewrite <- !app_assoc, app_nil_r.
Defined.

(** *** [gemini_tts.py] *)
Section GeminiFacts.
Import GeminiTTS.
Context `{C : Codec} (from_wav : wav -> AudioSegment).

Definition gcall (client : gateway) (voices styles : gmap str str)
    (p : nat * segment) : option (nat * list Byte.byte) :=
  let voice := default (u "Kore") (voices !! seg_speaker p.2) in
  let style := styles !! seg_speaker p.2 in
  (fun a => (p.1, a)) <$> client p.1 voice (prompt_of style (seg_text p.2)).

Definition gstore (fs : gmap path file) (c : nat * list Byte.byte)
    : gmap path file :=
  _save_wav fs c.2 (temp_segment c.1).

Lemma gemini_loop_calls client voices styles numbered fs temp_files :
  synthesize_loop client voices styles numbered fs temp_files
  = (foldl gstore fs (omap (gcall client voices styles) numbered),
     temp_files ++ (temp_segment <$> (omap (gcall client voices styles) numbered).*1)).
Proof.
  revert fs temp_files.
  induction numbered as [|[i seg] rest IH]; intros fs temp_files.
  - simpl. by rewrite app_nil_r.
  - rewrite omap_cons. cbn [synthesize_loop].
    unfold gcall at 1 4. cbn [fst snd].
    destruct (client i _ _) as [a|]; cbn [fmap option_fmap option_map].
    + rewrite IH. cbn [foldl fmap list_fmap fst]. by rewrite <- app_assoc.
    + apply IH.
Qed.

Lemma foldl_gstore_other (fs : gmap path file) (cs : list (nat * list Byte.byte)) p :
  (∀ i, p = temp_segment i → i ∉ cs.*1) →
  foldl gstore fs cs !! p = fs !! p.
Proof.
  revert fs. induction cs as [|[j b] cs IH]; intros fs Hp; simpl; [done|].
  rewrite IH.
  - unfold gstore, _save_wav. simpl. apply lookup_insert_ne. intros <-.
    apply (Hp j eq_refl). set_solver.
  - intros i Hi Hin. apply (Hp i Hi). set_solver.
Qed.

Lemma foldl_gstore_lookup (fs : gmap path file) (cs : list (nat * list Byte.byte)) :
  NoDup cs.*1 →
  Forall (fun c => foldl gstore fs cs !! temp_segment c.1 = Some (Wav (saved c.2))) cs.
Proof.
  revert fs. induction cs as [|[j b] cs IH]; intros fs Hnd; [constructor|].
  simpl in Hnd. apply NoDup_cons in Hnd as [Hj Hnd]. constructor.
  - simpl. rewrite foldl_gstore_other.
    + unfold gstore, _save_wav. simpl. apply lookup_insert_eq.
    + intros i [= <-]. done.
  - simpl. by apply IH.
Qed.

Lemma combine_stored (fs : gmap path file) (cs : list (nat * list Byte.byte)) fmt :
  Forall (fun c => fs !! temp_segment c.1 = Some (Wav (saved c.2))) cs →
  _combine_audio_files from_wav fs (temp_segment <$> cs.*1) fmt
  = Some (<[output_path := Exported fmt (combine (from_wav ∘ saved <$> cs.*2))]> fs).
Proof.
  intros Hall. unfold _combine_audio_files.
  assert (Hm : mapM (fun p => match fs !! p with
                              | Some (Wav w) => Some (from_wav w)
                              | _ => None
                              end) (temp_segment <$> cs.*1)
               = Some (from_wav ∘ saved <$> cs.*2)).
  { apply mapM_Some.
    induction Hall as [|[j b] cs' Hc Hall' IH]; simpl; [constructor|].
    constructor; [|done]. simpl in Hc. by rewrite Hc. }
  by rewrite Hm.
Qed.

Lemma unlink_all_output (fs : gmap path file) (ids : list nat) :
  unlink_all fs (temp_segment <$> ids) !! output_path = fs !! output_path.
Proof.
  revert fs. induction ids as [|i ids IH]; intros fs; simpl; [done|].
  rewrite IH. by apply lookup_delete_ne.
Qed.

End GeminiFacts.

(** C2.  A segment whose gateway call raises is left out and the run goes
    on.  Let the responses be the audio of the calls that succeed, in
    script order, and suppose there is at least one.  Then
    [generate_audio] ([app.py]) returns, and its combined WAV holds, in
    that order, the bytes of each response up to its last whole 16-bit
    frame, followed by the 14400 zero bytes of the silence; and [synthesize_dialogue] ([gemini_tts.py]) returns, and the
    file exported to the output path is, in that order, each response
    decoded and followed by the silence. *)
Theorem failed_segments_are_left_out :
  (∀ client ffmpeg segments,
     let responses :=
       (omap (call client (App.assign segments).1 (App.assign segments).2)
             (enumerate 0 segments)).*2 in
     responses ≠ [] →
     ∃ combined,
       App.generate_audio client ffmpeg segments
       = inr {| App.output_buffer :=
                  match ffmpeg combined with
                  | Some bytes => App.Mp3 bytes
                  | None => App.Wav combined
                  end;
                App.duration_frames := getnframes combined;
                App.duration_rate := 24000 |}
       ∧ data combined
         = concat ((fun a => take (2 * (length a / 2)) a
                             ++ App.zeros (N.to_nat 14400)) <$> responses))
  ∧ (∀ (C : Codec) (from_wav : wav -> AudioSegment) client fs segments fmt
       speaker_voices speaker_styles,
       let voices :=
         default (GeminiTTS.default_voices segments) speaker_voices in
       let styles := default ∅ speaker_styles in
       let responses :=
         (omap (gcall client voices styles) (enumerate 0 segments)).*2 in
       responses ≠ [] →
       ∃ fs',
         GeminiTTS.synthesize_dialogue from_wav client fs segments fmt
           speaker_voices speaker_styles = Some fs'
         ∧ fs' !! GeminiTTS.output_path
           = Some (GeminiTTS.Exported fmt
                     (concat ((fun a => from_wav (saved a) ++ silent 300)
                                <$> responses)))).
Proof.
  split.
  - intros client ffmpeg segments responses Hne.
    unfold App.generate_audio.
    destruct (App.assign segments) as [voices styles] eqn:Hassign.
    simpl in responses.
    rewrite synthesize_loop_calls. rewrite app_nil_l.
    set (cs := omap (call client voices styles) (enumerate 0 segments)) in *.
    assert (Hnd : NoDup cs.*1).
    { apply omap_enumerate_fst. intros [i seg] q. unfold call. simpl.
      destruct (client i _ _); [|done]. by intros [= <-]. }
    assert (Hcs : cs ≠ []) by (intros Hnil; apply Hne; unfold responses; by rewrite Hnil).
    destruct (combine_wav_files_24k (foldl store ∅ cs) (App.segment_wav <$> cs.*1)
                (saved <$> cs.*2) App.combined_wav)
      as [out [Hrun [Hp [Hd _]]]].
    + destruct cs; [done|]. done.
    + by apply open_all_stored.
    + apply Forall_fmap, Forall_true. done.
    + exists out. rewrite Hrun, lookup_insert_eq, Hp. split; [done|].
      rewrite Hd. unfold responses. rewrite <- list_fmap_compose.
      f_equal. apply list_fmap_ext. intros _ a _. cbn [compose].
      by rewrite readframes_saved.
  - intros C from_wav client fs segments fmt sv ss voices styles responses Hne.
    unfold GeminiTTS.synthesize_dialogue. fold voices styles.
    rewrite gemini_loop_calls, app_nil_l.
    set (cs := omap (gcall client voices styles) (enumerate 0 segments)) in *.
    assert (Hnd : NoDup cs.*1).
    { apply omap_enumerate_fst. intros [i seg] q. unfold gcall. simpl.
      destruct (client i _ _); [|done]. by intros [= <-]. }
    assert (Hcs : cs ≠ []) by (intros Hnil; apply Hne; unfold responses; by rewrite Hnil).
    rewrite (combine_stored from_wav) by by apply foldl_gstore_lookup.
    destruct (GeminiTTS.temp_segment <$> cs.*1) eqn:Hfiles.
    { destruct cs; done. }
    rewrite <- Hfiles. eexists. split; [reflexivity|].
    rewrite unlink_all_output, lookup_insert_eq. do 2 f_equal.
    rewrite combine_concat.
    unfold responses. by rewrite <- list_fmap_compose.
Qed.

(** A run of three segments in which the call for the second one raises. *)
Definition three_segments : list segment :=
  [ {| seg_speaker := u "A"; seg_text := u "one" |};
    {| seg_speaker := u "B"; seg_text := u "two" |};
    {| seg_speaker := u "A"; seg_text := u "three" |} ].

Definition second_call_raises : gateway :=
  fun i _ _ =>
    match i with
    | 0 => Some [Byte.x01; Byte.x02]
    | 1 => None
    | _ => Some [Byte.x03; Byte.x04]
    end.

Lemma failed_segments_are_left_out_witness :
  (∃ combined,
     App.generate_audio second_call_raises (fun _ => None) three_segments
     = inr {| App.output_buffer := App.Wav combined;
              App.duration_frames := getnframes combined;
              App.duration_rate := 24000 |}
     ∧ data combined
       = [Byte.x01; Byte.x02] ++ App.zeros (N.to_nat 14400)
         ++ [Byte.x03; Byte.x04] ++ App.zeros (N.to_nat 14400))
  ∧ (∃ fs',
       GeminiTTS.synthesize_dialogue bytes_as_frames second_call_raises ∅
         three_segments GeminiTTS.mp3 None None = Some fs'
       ∧ fs' !! GeminiTTS.output_path
         = Some (GeminiTTS.Exported GeminiTTS.mp3
                   (concat ((fun a => bytes_as_frames (saved a) ++ silent 300)
                              <$> [[Byte.x01; Byte.x02]; [Byte.x03; Byte.x04]])))).
Proof.
  destruct failed_segments_are_left_out as [Happ Hgemini]. split.
  - destruct (Happ second_call_raises (fun _ => None) three_segments)
      as [combined [Hrun Hd]].
    + vm_compute. discriminate.
    + exists combined. split; [exact Hrun|].
      etrans; [exact Hd|].
      change ((omap (call second_call_raises (App.assign three_segments).1
                       (App.assign three_segments).2)
                    (enumerate 0 three_segments)).*2)
        with [[Byte.x01; Byte.x02]; [Byte.x03; Byte.x04]].
      cbn [fmap list_fmap concat]. by rewrite <- !app_assoc, app_nil_r.
  - destruct (Hgemini AudioFacts.pcm16 bytes_as_frames second_call_raises ∅
                three_segments GeminiTTS.mp3 None None)
      as [fs' [Hrun Hout]].
    + vm_compute. discriminate.
    + exists fs'. split; [exact Hrun|]. exact Hout.
Defined.

End PipelineFacts.

(* ===================================================================== *)
(** ** Reasoning about scans *)
(* ===================================================================== *)

Module ReFacts.
Import Py Re.

(** The character before the cursor once [a] has been passed. *)
Definition lastc (prev : option N) (a : list N) : option N :=
  match last a with
  | Some c => Some c
  | None => prev
  end.

Lemma lastc_nil prev : lastc prev [] = prev.
Proof. reflexivity. Qed.

Lemma lastc_cons prev c a : lastc prev (c :: a) = lastc (Some c) a.
Proof.
  unfold lastc. destruct a as [|d a]; [done|].
  change (last (c :: d :: a)) with (last (d :: a)).
  by destruct (last (d :: a)) eqn:Hl; [|by apply last_None in Hl].
Qed.

Lemma lastc_app prev a b : lastc prev (a ++ b) = lastc (lastc prev a) b.
Proof.
  revert prev. induction a as [|c a IH]; intros prev; [done|].
  simpl app. by rewrite !lastc_cons, IH.
Qed.

Lemma lastc_snoc prev a c : lastc prev (a ++ [c]) = Some c.
Proof. by rewrite lastc_app. Qed.

(** What was consumed is what was given minus what is left. *)
Lemma take_consumed {A} (a s : list A) :
  take (length (a ++ s) - length s) (a ++ s) = a.
Proof.
  rewrite length_app.
  replace (length a + length s - length s) with (length a) by lia.
  by rewrite take_app_length.
Qed.

Lemma length_consumed {A} (a s : list A) :
  length (a ++ s) - length s = length a.
Proof. rewrite length_app. lia. Qed.

(** Greedy repetition: if the class holds on all of [a] and fails on what
    follows, and the continuation accepts there, that is the result. *)
Lemma star_max {A} (p : N -> bool) (a s : list N) prev
    (k : option N -> list N -> option A) x :
  Forall (fun c => p c = true) a →
  match s with [] => True | c :: _ => p c = false end →
  k (lastc prev a) s = Some x →
  star p prev (a ++ s) k = Some x.
Proof.
  intros Ha Hs. revert prev.
  induction Ha as [|c a Hc Ha IH]; intros prev Hk.
  - rewrite lastc_nil in Hk. simpl. destruct s as [|c s]; [done|].
    simpl. by rewrite Hs.
  - rewrite lastc_cons in Hk. simpl. rewrite Hc. by rewrite (IH _ Hk).
Qed.

(** No match starts anywhere in [a] (when followed by [s]). *)
Fixpoint quiet_in (r : regex) (prev : option N) (a s : list N) : Prop :=
  match a with
  | [] => True
  | c :: a' => match_at r prev (c :: a' ++ s) = None ∧ quiet_in r (Some c) a' s
  end.

Lemma quiet_in_app r prev a b s :
  quiet_in r prev (a ++ b) s
  ↔ quiet_in r prev a (b ++ s) ∧ quiet_in r (lastc prev a) b s.
Proof.
  revert prev. induction a as [|c a IH]; intros prev.
  - simpl. rewrite lastc_nil. tauto.
  - simpl. rewrite lastc_cons, IH, <- app_assoc. tauto.
Qed.

(** A pattern that cannot start with the characters of [a]. *)
Lemma quiet_in_first (r : regex) (ok : N -> Prop) prev a s :
  (∀ prev' c s', ok c → match_at r prev' (c :: s') = None) →
  Forall ok a →
  quiet_in r prev a s.
Proof.
  intros Hr Ha. revert prev.
  induction Ha as [|c a Hc Ha IH]; intros prev; simpl; [done|].
  split; [by apply Hr | apply IH].
Qed.

Lemma scan_skip r prev a s :
  scan r (length a) prev (a ++ s) = scan r 0 (lastc prev a) s.
Proof.
  revert prev. induction a as [|c a IH]; intros prev; [done|].
  simpl. by rewrite IH, lastc_cons.
Qed.

Lemma scan_quiet r prev a s :
  quiet_in r prev a s →
  scan r 0 prev (a ++ s)
  = ((fun c => inl [c]) <$> a) ++ scan r 0 (lastc prev a) s.
Proof.
  revert prev. induction a as [|c a IH]; intros prev Hq; [done|].
  destruct Hq as [Hc Hq]. simpl. simpl in Hc. rewrite Hc.
  by rewrite IH, lastc_cons.
Qed.

Lemma scan_hit r prev c a s caps :
  match_at r prev (c :: a ++ s) = Some (caps, S (length a)) →
  scan r 0 prev (c :: a ++ s) = inr caps :: scan r 0 (lastc (Some c) a) s.
Proof. intros Hm. simpl. rewrite Hm. by rewrite scan_skip. Qed.

(** [re.sub] from a cursor. *)
Definition sub_from (r : regex) (t : list titem) (prev : option N)
    (s : list N) : list N :=
  concat (map (fun e => match e with
                        | inl cs => cs
                        | inr caps => expand t caps
                        end) (scan r 0 prev s)).

Lemma sub_is_sub_from r t s : sub r t s = sub_from r t None s.
Proof. reflexivity. Qed.

Lemma sub_from_nil r t prev : sub_from r t prev [] = [].
Proof. reflexivity. Qed.

Lemma sub_from_quiet r t prev a s :
  quiet_in r prev a s →
  sub_from r t prev (a ++ s) = a ++ sub_from r t (lastc prev a) s.
Proof.
  intros Hq. unfold sub_from. rewrite scan_quiet by done.
  rewrite map_app, concat_app. f_equal.
  clear. induction a as [|c a IH]; [done|]. simpl. f_equal. exact IH.
Qed.

Lemma sub_from_hit r t prev c a s caps :
  match_at r prev (c :: a ++ s) = Some (caps, S (length a)) →
  sub_from r t prev (c :: a ++ s)
  = expand t caps ++ sub_from r t (lastc (Some c) a) s.
Proof. intros Hm. unfold sub_from. by rewrite (scan_hit _ _ _ _ _ _ Hm). Qed.

End ReFacts.

Module DialectFacts.
Import Py Re ScriptParser AppScript Dialect.

(** [parse_dialogue_script] keeps the tag as it is spelled: the claim of
    dialect invariance fails for it. *)
Definition speaker1_hi : spoken :=
  {| how := SpeakerColon; number := u "1"; words := u "hi" |}.

Lemma speaker1_hi_ok : numbered speaker1_hi ∧ plain speaker1_hi.
Proof.
  split.
  - split; [done|]. split; [|by left].
    apply Forall_cons. split; [reflexivity | apply Forall_nil_2].
  - split; [|split; [|split; [|split]]].
    + intros Hin. apply elem_of_cons in Hin as [Hin | Hin]; [done|].
      apply elem_of_cons in Hin as [Hin | Hin]; [done|].
      by apply elem_of_nil in Hin.
    + by exists 104%N, [105%N].
    + vm_compute. reflexivity.
    + vm_compute. reflexivity.
    + vm_compute. reflexivity.
Qed.

Lemma script_parser_is_not_dialect_invariant :
  ¬ (∀ ls, Forall numbered ls → Forall plain ls →
           parse_text (render ls) = parse_text (render (canonical <$> ls))).
Proof.
  intros Hinv.
  specialize (Hinv [speaker1_hi]).
  assert (Hl : lines (parse_text (render [speaker1_hi]))
               = lines (parse_text (render (canonical <$> [speaker1_hi])))).
  { rewrite Hinv; [reflexivity| |].
    - apply Forall_cons. split; [exact (proj1 speaker1_hi_ok) | apply Forall_nil_2].
    - apply Forall_cons. split; [exact (proj2 speaker1_hi_ok) | apply Forall_nil_2]. }
  vm_compute in Hl. discriminate.
Qed.


Import ReFacts.

(** What follows the text of a line: nothing, or the line break. *)
Definition line_end (rest : str) : Prop := rest = [] ∨ ∃ r, rest = NL :: r.

Lemma decimal_ne c x : isdecimal c = true → isdecimal x = false → c ≠ x.
Proof. congruence. Qed.

(** *** [話者\d+] *)

Lemma washa_fail {A} prev s caps (k : cont A) :
  startswith [WA; SHA] s = false → m washa prev s caps k = None.
Proof.
  intros Hs. unfold washa. cbn [m].
  destruct s as [|x s]; [done|].
  destruct (x =? WA)%N eqn:Hx; [|done].
  destruct s as [|y s]; [done|].
  destruct (y =? SHA)%N eqn:Hy; [|done].
  apply N.eqb_eq in Hx, Hy. subst. done.
Qed.

Lemma washa_hit {A} prev d n s caps (k : cont A) x :
  isdecimal d = true →
  Forall (fun c => isdecimal c = true) n →
  match s with [] => True | c :: _ => isdecimal c = false end →
  k (lastc (Some d) n) s caps = Some x →
  m washa prev (WA :: SHA :: d :: n ++ s) caps k = Some x.
Proof.
  intros Hd Hn Hs Hk. unfold washa. cbn [m].
  rewrite !N.eqb_refl, Hd.
  by apply star_max.
Qed.

(** *** The two parenthesised patterns *)

Definition tagged (o c : N) : regex :=
  Seq (Chr o)
   (Seq (Grp 1 washa)
    (Seq (Chr c) (Seq (Opt (Cls colon)) (Star isspace)))).

Lemma wide_paren_tagged : wide_paren = tagged WLPAREN WRPAREN.
Proof. reflexivity. Qed.

Lemma paren_tagged : paren = tagged LPAREN RPAREN.
Proof. reflexivity. Qed.

Lemma tagged_first o c prev x s :
  x ≠ o → match_at (tagged o c) prev (x :: s) = None.
Proof.
  intros Hx. unfold match_at, tagged. cbn [m].
  by apply N.eqb_neq in Hx as ->.
Qed.

Lemma tagged_no_washa o c prev x s :
  startswith [WA; SHA] s = false → match_at (tagged o c) prev (x :: s) = None.
Proof.
  intros Hs. unfold match_at, tagged. cbn [m].
  destruct (x =? o)%N; [|done]. by apply washa_fail.
Qed.

Lemma tagged_hit o c prev d n w0 w rest :
  isdecimal d = true →
  Forall (fun c => isdecimal c = true) n →
  isdecimal c = false →
  isspace w0 = false →
  match_at (tagged o c) prev
    (o :: (WA :: SHA :: d :: n ++ [c; SPACE]) ++ w0 :: w ++ rest)
  = Some ([(1, WA :: SHA :: d :: n)], S (length (WA :: SHA :: d :: n ++ [c; SPACE]))).
Proof.
  intros Hd Hn Hc Hw. unfold match_at, tagged.
  cbn [m]. rewrite N.eqb_refl.
  replace ((WA :: SHA :: d :: n ++ [c; SPACE]) ++ w0 :: w ++ rest)
    with (WA :: SHA :: d :: n ++ (c :: SPACE :: w0 :: w ++ rest))
    by (simpl; by rewrite <- app_assoc).
  apply washa_hit; [done | done | done |].
  cbn [m star]. rewrite N.eqb_refl.
  change (colon SPACE) with false. change (isspace SPACE) with true.
  rewrite Hw. cbv iota beta.
  f_equal. f_equal.
  - f_equal. f_equal.
    apply (take_consumed (WA :: SHA :: d :: n) (c :: SPACE :: w0 :: w ++ rest)).
  - simpl length. rewrite !length_app. simpl length. rewrite !length_app. lia.
Qed.

(** *** [(?<!\[)(話者\d+)[:：]\s*] *)

Lemma bare_no_washa prev s :
  startswith [WA; SHA] s = false → match_at bare prev s = None.
Proof.
  intros Hs. unfold match_at, bare. cbn [m].
  destruct prev as [p|]; [destruct (p =? LBRACK)%N; [done|]|]; by apply washa_fail.
Qed.

Lemma bare_after_bracket s : match_at bare (Some LBRACK) s = None.
Proof. reflexivity. Qed.

Lemma bare_hit prev d n w0 w rest :
  prev ≠ Some LBRACK →
  isdecimal d = true →
  Forall (fun c => isdecimal c = true) n →
  isspace w0 = false →
  match_at bare prev (WA :: (SHA :: d :: n ++ [COLON; SPACE]) ++ w0 :: w ++ rest)
  = Some ([(1, WA :: SHA :: d :: n)], S (length (SHA :: d :: n ++ [COLON; SPACE]))).
Proof.
  intros Hprev Hd Hn Hw. unfold match_at, bare.
  set (s := WA :: (SHA :: d :: n ++ [COLON; SPACE]) ++ w0 :: w ++ rest).
  assert (Hs : s = WA :: SHA :: d :: n ++ (COLON :: SPACE :: w0 :: w ++ rest)).
  { unfold s. simpl. by rewrite <- app_assoc. }
  assert (Hgo : m (Seq (Grp 1 washa) (Seq (Cls colon) (Star isspace))) prev s []
                  (fun _ s' caps => Some (caps, length s - length s'))
                = Some ([(1, WA :: SHA :: d :: n)],
                        S (length (SHA :: d :: n ++ [COLON; SPACE])))).
  { cbn [m]. rewrite Hs at 1.
    apply washa_hit; [done | done | done |].
    cbn [m star].
    change (colon COLON) with true. change (isspace SPACE) with true.
    rewrite Hw. cbv iota beta.
    f_equal. f_equal.
    - f_equal. f_equal. rewrite Hs.
      apply (take_consumed (WA :: SHA :: d :: n) (COLON :: SPACE :: w0 :: w ++ rest)).
    - rewrite Hs. simpl length. rewrite !length_app. simpl length.
      rewrite !length_app. lia. }
  cbn [m]. destruct prev as [p|]; [|exact Hgo].
  destruct (p =? LBRACK)%N eqn:Hp; [|exact Hgo].
  apply N.eqb_eq in Hp. by subst.
Qed.

(** *** [^([A-Za-z])[:：]\s*] *)

Lemma letter_inside p s :
  p ≠ NL → match_at letter (Some p) s = None.
Proof.
  intros Hp. unfold match_at, letter. cbn [m andb].
  by apply N.eqb_neq in Hp as ->.
Qed.

Lemma letter_not_letter prev x s :
  isletter x = false → match_at letter prev (x :: s) = None.
Proof.
  intros Hx. unfold match_at, letter. cbn [m andb].
  destruct prev as [p|]; [destruct (p =? NL)%N; [|done]|]; by rewrite Hx.
Qed.

(** *** [str.replace] *)

(** No occurrence of [old] starts in [a] (when followed by [s]). *)
Fixpoint absent_in (old a s : str) : Prop :=
  match a with
  | [] => True
  | c :: a' => startswith old (c :: a' ++ s) = false ∧ absent_in old a' s
  end.

Lemma absent_in_app old a b s :
  absent_in old (a ++ b) s ↔ absent_in old a (b ++ s) ∧ absent_in old b s.
Proof.
  induction a as [|c a IH]; simpl; [tauto|].
  rewrite IH, <- app_assoc. tauto.
Qed.

Lemma absent_first o old a s :
  Forall (fun c => c ≠ o) a → absent_in (o :: old) a s.
Proof.
  induction 1 as [|c a Hc Ha IH]; simpl; [done|]. split; [|done].
  apply N.eqb_neq in Hc. rewrite N.eqb_sym in Hc. by rewrite Hc.
Qed.

Lemma startswith_app old s : startswith old (old ++ s) = true.
Proof. induction old as [|o old IH]; simpl; [done|]. by rewrite N.eqb_refl. Qed.

Lemma replace_skip old new a s :
  replace_loop old new (length a) (a ++ s) = replace_loop old new 0 s.
Proof. induction a as [|c a IH]; [done|]. exact IH. Qed.

Lemma replace_quiet old new a s :
  absent_in old a s →
  replace_loop old new 0 (a ++ s) = a ++ replace_loop old new 0 s.
Proof.
  induction a as [|c a IH]; intros Ha; [done|].
  destruct Ha as [Hc Ha]. simpl. simpl in Hc. rewrite Hc. by rewrite IH.
Qed.

Lemma replace_hit o old new s :
  replace_loop (o :: old) new 0 ((o :: old) ++ s)
  = new ++ replace_loop (o :: old) new 0 s.
Proof.
  change ((o :: old) ++ s) with (o :: old ++ s).
  cbn [replace_loop].
  change (o :: old ++ s) with ((o :: old) ++ s). rewrite startswith_app.
  change (length (o :: old) - 1) with (length old - 0).
  by rewrite Nat.sub_0_r, replace_skip.
Qed.

Lemma replace_at old new s :
  old ≠ [] →
  replace_loop old new 0 (old ++ s) = new ++ replace_loop old new 0 s.
Proof. destruct old as [|o old]; [done|]. intros _. apply replace_hit. Qed.

Lemma replace_char c d s :
  replace [c] [d] s = (fun x => if (x =? c)%N then d else x) <$> s.
Proof.
  unfold replace. induction s as [|x s IH]; [done|].
  cbn [replace_loop startswith fmap list_fmap].
  rewrite (N.eqb_sym c x). destruct (x =? c)%N; simpl; by rewrite IH.
Qed.

(** Within a line, an occurrence cannot reach past the line's end. *)
Lemma startswith_line old a rest :
  NL ∉ old → line_end rest →
  startswith old (a ++ rest) = startswith old a.
Proof.
  intros Hold Hrest. revert a.
  induction old as [|o old IH]; intros a; [by destruct a, rest|].
  assert (Ho : o ≠ NL) by set_solver.
  assert (Hold' : NL ∉ old) by set_solver.
  destruct a as [|x a].
  - destruct Hrest as [-> | [r ->]]; [done|]. simpl.
    by apply N.eqb_neq in Ho as ->.
  - simpl. by rewrite IH.
Qed.

Lemma contains_absent old a rest :
  NL ∉ old → line_end rest →
  contains old a = false →
  absent_in old a rest ∧ startswith old rest = false.
Proof.
  intros Hold Hrest. induction a as [|c a IH]; intros Hc.
  - split; [done|].
    pose proof (startswith_line old [] rest Hold Hrest) as Hl.
    rewrite app_nil_l in Hl. rewrite Hl. exact Hc.
  - cbn [contains] in Hc.
    apply orb_false_iff in Hc as [Hs Hc]. destruct (IH Hc) as [Ha Hr].
    split; [|done]. split; [|done].
    pose proof (startswith_line old (c :: a) rest Hold Hrest) as Hl.
    rewrite <- app_comm_cons in Hl. rewrite Hl. exact Hs.
Qed.

(** *** Lines *)

Ltac list_eq := rewrite <- ?app_assoc; cbn [app]; rewrite <- ?app_assoc; reflexivity.

(** The cursor is at the start of a line. *)
Definition line_start (prev : option N) : Prop := prev = None ∨ prev = Some NL.

Definition digits (n : str) : Prop :=
  n ≠ [] ∧ Forall (fun c => isdecimal c = true) n.

Definition visible (w : str) : Prop :=
  (NL ∉ w)
  ∧ (∃ c w', w = c :: w' ∧ isspace c = false)
  ∧ contains [WA; SHA] w = false.

(** A rewriting step turns the lines it hits into the canonical form. *)
Definition restyle (hit : spoken -> bool) (l : spoken) : spoken :=
  if hit l then canonical l else l.

(** What a rewriting makes of the rest of the text after a line. *)
Definition after (f : option N -> str -> str) (rest : str) : str :=
  match rest with
  | [] => []
  | x :: r => x :: f (Some x) r
  end.

Lemma render_cons l ls :
  render (l :: ls)
  = line l ++ match ls with [] => [] | _ => NL :: render ls end.
Proof. destruct ls; [by rewrite app_nil_r | done]. Qed.

Lemma stage_render (f : option N -> str -> str) (step : spoken -> spoken)
    (Pre : spoken -> Prop) :
  (∀ prev, f prev [] = []) →
  (∀ l rest prev, Pre l → line_end rest → line_start prev →
     f prev (line l ++ rest) = line (step l) ++ after f rest) →
  ∀ ls prev, Forall Pre ls → line_start prev →
    f prev (render ls) = render (step <$> ls).
Proof.
  intros Hnil Hline ls. induction ls as [|l ls IH]; intros prev Hpre Hprev.
  - apply Hnil.
  - apply Forall_cons in Hpre as [Hl Hpre].
    rewrite fmap_cons, !render_cons. destruct ls as [|l2 ls].
    + rewrite Hline; [done | done | by left | done].
    + rewrite Hline; [|done | right; by eexists | done].
      simpl after. rewrite IH; [done | done | by right].
Qed.

Lemma absent_then old a s :
  absent_in old a s → startswith old s = false → startswith old (a ++ s) = false.
Proof. destruct a; [done|]. by intros [H _] _. Qed.

Lemma tagged_quiet_words o c prev w rest :
  absent_in [WA; SHA] w rest → startswith [WA; SHA] rest = false →
  quiet_in (tagged o c) prev w rest.
Proof.
  intros Ha Hr. revert prev. induction w as [|x w IH]; intros prev; [done|].
  destruct Ha as [Hx Ha]. split; [|by apply IH].
  apply tagged_no_washa. by apply absent_then.
Qed.

Lemma bare_quiet_words prev w rest :
  absent_in [WA; SHA] w rest → quiet_in bare prev w rest.
Proof.
  revert prev. induction w as [|x w IH]; intros prev Ha; [done|].
  destruct Ha as [Hx Ha]. split; [|by apply IH].
  by apply bare_no_washa.
Qed.

Lemma visible_absent w rest :
  visible w → line_end rest →
  absent_in [WA; SHA] w rest ∧ startswith [WA; SHA] rest = false.
Proof.
  intros (_ & _ & Hc) Hrest. apply contains_absent; [|done|done].
  intros Hin. vm_compute in Hin.
  repeat (apply elem_of_cons in Hin as [Hin | Hin]; [done|]).
  by apply elem_of_nil in Hin.
Qed.

(** The end of a line under a pattern that does not start at a line
    break. *)
Lemma sub_from_rest r t prev rest :
  line_end rest →
  (∀ p s, match_at r p (NL :: s) = None) →
  sub_from r t prev rest = after (sub_from r t) rest.
Proof.
  intros [-> | [s ->]] Hnl; [done|].
  change (NL :: s) with ([NL] ++ s).
  rewrite sub_from_quiet; [done|]. split; [apply Hnl | done].
Qed.

Lemma expand_bracketed n :
  expand bracketed [(1, WA :: SHA :: n)] = tag Bracket n ++ [SPACE].
Proof.
  unfold expand, bracketed. cbn [map concat group Nat.eqb].
  rewrite app_nil_r. simpl. by rewrite <- app_assoc.
Qed.

(** A line whose tag a parenthesised pattern recognises. *)
Lemma tagged_line_hit o c prev n w rest :
  isdecimal c = false → o ≠ NL →
  digits n → visible w → line_end rest →
  sub_from (tagged o c) bracketed prev
    (((o :: WA :: SHA :: n ++ [c]) ++ SPACE :: w) ++ rest)
  = (tag Bracket n ++ SPACE :: w) ++ after (sub_from (tagged o c) bracketed) rest.
Proof.
  intros Hc Ho [Hn Hd] Hw Hrest.
  destruct n as [|d n]; [done|]. apply Forall_cons in Hd as [Hd Hds].
  destruct (visible_absent w rest Hw Hrest) as [Habs Hr].
  destruct Hw as (Hnl & (w0 & w' & -> & Hw0) & Hno).
  replace (((o :: WA :: SHA :: (d :: n) ++ [c]) ++ SPACE :: w0 :: w') ++ rest)
    with (o :: (WA :: SHA :: d :: n ++ [c; SPACE]) ++ w0 :: w' ++ rest)
    by list_eq.
  rewrite (sub_from_hit _ _ _ _ _ _ _ (tagged_hit o c prev d n w0 w' rest Hd Hds Hc Hw0)).
  rewrite expand_bracketed.
  change (w0 :: w' ++ rest) with ((w0 :: w') ++ rest).
  rewrite sub_from_quiet by by apply tagged_quiet_words.
  rewrite (sub_from_rest _ _ _ rest Hrest)
    by (intros p s; by apply tagged_first).
  list_eq.
Qed.

(** A line in which the character that opens the pattern does not occur
    before the words. *)
Lemma tagged_line_miss o c prev tg w rest :
  o ≠ NL → o ≠ SPACE →
  Forall (fun x => x ≠ o) tg → visible w → line_end rest →
  sub_from (tagged o c) bracketed prev ((tg ++ SPACE :: w) ++ rest)
  = (tg ++ SPACE :: w) ++ after (sub_from (tagged o c) bracketed) rest.
Proof.
  intros Ho Hsp Htg Hw Hrest.
  destruct (visible_absent w rest Hw Hrest) as [Habs Hr].
  replace ((tg ++ SPACE :: w) ++ rest) with ((tg ++ [SPACE]) ++ w ++ rest)
    by (by rewrite <- !app_assoc).
  rewrite sub_from_quiet.
  - rewrite sub_from_quiet by by apply tagged_quiet_words.
    rewrite (sub_from_rest _ _ _ rest Hrest)
      by (intros p s; by apply tagged_first).
    list_eq.
  - apply (quiet_in_first _ (fun x => x ≠ o)).
    + intros p x s Hx. by apply tagged_first.
    + apply Forall_app. split; [done|]. by repeat constructor.
Qed.

(** *** The bare pattern on a line *)

Lemma bare_first prev x s : x ≠ WA → match_at bare prev (x :: s) = None.
Proof.
  intros Hx. apply bare_no_washa. cbn [startswith].
  by destruct (N.eqb_spec WA x) as [<-|].
Qed.

Lemma decimal_all_ne n x :
  Forall (fun c => isdecimal c = true) n → isdecimal x = false →
  Forall (fun c => c ≠ x) n.
Proof. intros Hn Hx. eapply Forall_impl; [exact Hn|]. intros c Hc. by eapply decimal_ne. Qed.

Lemma bare_line_hit prev n w rest :
  line_start prev → digits n → visible w → line_end rest →
  sub_from bare bracketed prev
    (((WA :: SHA :: n ++ [COLON]) ++ SPACE :: w) ++ rest)
  = (tag Bracket n ++ SPACE :: w) ++ after (sub_from bare bracketed) rest.
Proof.
  intros Hprev [Hn Hd] Hw Hrest.
  destruct n as [|d n]; [done|]. apply Forall_cons in Hd as [Hd Hds].
  destruct (visible_absent w rest Hw Hrest) as [Habs Hr].
  destruct Hw as (Hnl & (w0 & w' & -> & Hw0) & Hno).
  replace (((WA :: SHA :: (d :: n) ++ [COLON]) ++ SPACE :: w0 :: w') ++ rest)
    with (WA :: (SHA :: d :: n ++ [COLON; SPACE]) ++ w0 :: w' ++ rest)
    by list_eq.
  assert (Hp : prev ≠ Some LBRACK) by (by destruct Hprev as [-> | ->]).
  rewrite (sub_from_hit _ _ _ _ _ _ _ (bare_hit prev d n w0 w' rest Hp Hd Hds Hw0)).
  rewrite expand_bracketed.
  change (w0 :: w' ++ rest) with ((w0 :: w') ++ rest).
  rewrite sub_from_quiet by by apply bare_quiet_words.
  rewrite (sub_from_rest _ _ _ rest Hrest)
    by (intros p s; by apply bare_first).
  list_eq.
Qed.

Lemma bare_line_bracket prev n w rest :
  digits n → visible w → line_end rest →
  sub_from bare bracketed prev ((tag Bracket n ++ SPACE :: w) ++ rest)
  = (tag Bracket n ++ SPACE :: w) ++ after (sub_from bare bracketed) rest.
Proof.
  intros [Hn Hd] Hw Hrest.
  destruct (visible_absent w rest Hw Hrest) as [Habs Hr].
  replace ((tag Bracket n ++ SPACE :: w) ++ rest)
    with ([LBRACK; WA] ++ (SHA :: n ++ [RBRACK; COLON; SPACE]) ++ w ++ rest)
    by (unfold tag; list_eq).
  rewrite sub_from_quiet.
  - rewrite sub_from_quiet.
    + rewrite sub_from_quiet by by apply bare_quiet_words.
      rewrite (sub_from_rest _ _ _ rest Hrest)
        by (intros p s; by apply bare_first).
      unfold tag. list_eq.
    + apply (quiet_in_first _ (fun x => x ≠ WA)).
      * intros p x s Hx. by apply bare_first.
      * constructor; [done|]. apply Forall_app. split.
        -- by apply decimal_all_ne.
        -- by repeat constructor.
  - split; [by apply bare_first|]. split; [|done]. apply bare_after_bracket.
Qed.

(** *** The letter pattern on a canonical line *)

Lemma quiet_in_cons r prev c a s :
  match_at r prev (c :: a ++ s) = None ∧ quiet_in r (Some c) a s →
  quiet_in r prev (c :: a) s.
Proof. done. Qed.

Lemma letter_quiet_inside p a s :
  p ≠ NL → Forall (fun c => c ≠ NL) a → quiet_in letter (Some p) a s.
Proof.
  intros Hp Ha. revert p Hp.
  induction Ha as [|c a Hc Ha IH]; intros p Hp; [done|].
  split; [by apply letter_inside | by apply IH].
Qed.

Lemma letter_line_bracket prev n w rest :
  digits n → NL ∉ w → line_end rest →
  sub_from letter bracketed prev ((tag Bracket n ++ SPACE :: w) ++ rest)
  = (tag Bracket n ++ SPACE :: w) ++ after (sub_from letter bracketed) rest.
Proof.
  intros [Hn Hd] Hw Hrest.
  rewrite sub_from_quiet.
  - f_equal. apply sub_from_rest; [done|].
    intros p s. by apply letter_not_letter.
  - unfold tag. cbn [app]. apply quiet_in_cons.
    split; [apply letter_not_letter; reflexivity|].
    apply letter_quiet_inside; [done|].
    constructor; [done|]. constructor; [done|].
    apply Forall_app. split.
    + apply Forall_app. split; [by apply decimal_all_ne|].
      constructor; [done|]. constructor; [done|]. constructor.
    + constructor; [done|].
      apply Forall_forall. intros x Hx ->. done.
Qed.

(** *** [Speaker 1:] and [Speaker 2:] *)

Definition speaker_tag (k : N) : str := SPEAKER ++ [k; COLON].

Definition hit_speaker (k : N) (l : spoken) : bool :=
  match how l with
  | SpeakerColon => bool_decide (number l = [k])
  | _ => false
  end.

Definition one_or_two (k : N) : Prop := k = 49%N ∨ k = 50%N.

Lemma tag_no_S st n :
  st ≠ SpeakerColon → digits n → Forall (fun c => c ≠ 83%N) (tag st n).
Proof.
  intros Hst [Hn Hd].
  assert (Hds : Forall (fun c => c ≠ 83%N) n) by by apply decimal_all_ne.
  destruct st; [done| | | |]; unfold tag;
    repeat (apply Forall_cons; split; [done|]);
    apply Forall_app; (split; [done|]); by repeat constructor.
Qed.

Lemma speaker_words k w rest :
  one_or_two k → contains (speaker_tag k) w = false → line_end rest →
  replace_loop (speaker_tag k) (tag Bracket [k]) 0 (SPACE :: w ++ rest)
  = SPACE :: w ++ after (fun _ => replace_loop (speaker_tag k) (tag Bracket [k]) 0) rest.
Proof.
  intros Hk Hw Hrest.
  assert (Hnl : NL ∉ speaker_tag k).
  { intros Hin. destruct Hk as [-> | ->]; vm_compute in Hin;
      repeat (apply elem_of_cons in Hin as [Hin | Hin]; [done|]);
      by apply elem_of_nil in Hin. }
  destruct (contains_absent _ w rest Hnl Hrest Hw) as [Habs Hr].
  change (SPACE :: w ++ rest) with ([SPACE] ++ w ++ rest).
  rewrite replace_quiet.
  - rewrite replace_quiet by done. cbn [app]. do 2 f_equal.
    destruct Hrest as [-> | [r ->]]; [done|].
    change (NL :: r) with ([NL] ++ r).
    rewrite replace_quiet; [done|]. split; [|done]. exact Hr.
  - split; [|done]. by destruct Hk as [-> | ->].
Qed.

Lemma speaker_line k l rest :
  one_or_two k → numbered l → plain l → line_end rest →
  replace_loop (speaker_tag k) (tag Bracket [k]) 0 (line l ++ rest)
  = line (restyle (hit_speaker k) l)
    ++ after (fun _ => replace_loop (speaker_tag k) (tag Bracket [k]) 0) rest.
Proof.
  intros Hk (Hn & Hd & Hsp) (Hnl & Hvis & Hwa & Hs1 & Hs2) Hrest.
  assert (Hw : contains (speaker_tag k) (words l) = false)
    by (by destruct Hk as [-> | ->]).
  destruct l as [st n w]. cbn [how number words] in *.
  unfold line, restyle, hit_speaker. cbn [how number words].
  rewrite <- app_assoc.
  change ((SPACE :: w) ++ rest) with (SPACE :: w ++ rest).
  destruct (decide (st = SpeakerColon)) as [-> | Hst].
  - destruct (decide (n = [k])) as [-> | Hnk].
    + rewrite bool_decide_eq_true_2 by done.
      cbn [canonical how number words].
      change (tag SpeakerColon [k]) with (speaker_tag k).
      rewrite replace_at by done.
      rewrite speaker_words by done. list_eq.
    + rewrite bool_decide_eq_false_2 by done. cbn [how number words].
      rewrite replace_quiet.
      * rewrite speaker_words by done. list_eq.
      * destruct (Hsp eq_refl) as [-> | ->], Hk as [-> | ->]; try done;
          vm_compute; repeat split.
  - assert (Hmiss : (match st with
                     | SpeakerColon => bool_decide (n = [k])
                     | _ => false
                     end) = false) by (by destruct st).
    rewrite Hmiss. cbn [how number words].
    rewrite replace_quiet.
    + rewrite speaker_words by done. list_eq.
    + unfold speaker_tag, SPEAKER. cbn [app].
      apply absent_first. by apply tag_no_S.
Qed.

(** *** Full-width digits *)

Definition narrow (w a x : N) : N := if (x =? w)%N then a else x.

(** The five single-character replacements, composed. *)
Definition fw (x : N) : N :=
  narrow 65301 53 (narrow 65300 52 (narrow 65299 51
    (narrow 65298 50 (narrow 65297 49 x)))).

Definition fwl (l : spoken) : spoken :=
  {| how := how l; number := fw <$> number l; words := fw <$> words l |}.

Lemma digits_stage s :
  replace (u "５") (u "5") (replace (u "４") (u "4") (replace (u "３") (u "3")
    (replace (u "２") (u "2") (replace (u "１") (u "1") s))))
  = fw <$> s.
Proof.
  change (u "１") with [65297%N]. change (u "1") with [49%N].
  change (u "２") with [65298%N]. change (u "2") with [50%N].
  change (u "３") with [65299%N]. change (u "3") with [51%N].
  change (u "４") with [65300%N]. change (u "4") with [52%N].
  change (u "５") with [65301%N]. change (u "5") with [53%N].
  rewrite !replace_char, <- !list_fmap_compose. reflexivity.
Qed.

(** A property that does not tell a full-width digit from its ASCII
    counterpart is not affected. *)
Lemma fw_respects (P : N -> bool) x :
  P 49%N = P 65297%N → P 50%N = P 65298%N → P 51%N = P 65299%N →
  P 52%N = P 65300%N → P 53%N = P 65301%N →
  P (fw x) = P x.
Proof.
  intros H1 H2 H3 H4 H5. unfold fw, narrow.
  destruct (N.eqb_spec x 65297) as [->|_]; [exact H1|].
  destruct (N.eqb_spec x 65298) as [->|_]; [exact H2|].
  destruct (N.eqb_spec x 65299) as [->|_]; [exact H3|].
  destruct (N.eqb_spec x 65300) as [->|_]; [exact H4|].
  destruct (N.eqb_spec x 65301) as [->|_]; [exact H5|].
  reflexivity.
Qed.

Lemma fw_digits n : digits n → digits (fw <$> n).
Proof.
  intros [Hn Hd]. split; [by destruct n|].
  apply Forall_fmap. eapply Forall_impl; [exact Hd|].
  intros c Hc. simpl. by rewrite (fw_respects isdecimal).
Qed.

Lemma fw_startswith_washa s :
  startswith [WA; SHA] (fw <$> s) = startswith [WA; SHA] s.
Proof.
  destruct s as [|x [|y s]]; [done| |]; cbn [fmap list_fmap startswith].
  - by rewrite (fw_respects (N.eqb WA)).
  - by rewrite (fw_respects (N.eqb WA)), (fw_respects (N.eqb SHA)).
Qed.

Lemma fw_visible w : visible w → visible (fw <$> w).
Proof.
  intros (Hnl & (c & w' & -> & Hc) & Hno). split; [|split].
  - intros Hin. apply list_elem_of_fmap in Hin as [x [Hx Hin]].
    assert (Hb : (fw x =? NL)%N = true) by (rewrite <- Hx; apply N.eqb_refl).
    rewrite (fw_respects (fun y => y =? NL)%N) in Hb by done.
    apply N.eqb_eq in Hb. by subst.
  - exists (fw c), (fw <$> w'). split; [done|].
    by rewrite (fw_respects isspace).
  - clear Hnl Hc. revert Hno. generalize (c :: w'). intros s.
    induction s as [|x s IH]; [done|].
    rewrite fmap_cons. cbn [contains].
    change (fw x :: (fw <$> s)) with (fw <$> (x :: s)).
    rewrite fw_startswith_washa.
    intros Hno. apply orb_false_iff in Hno as [Hs Hc].
    by rewrite Hs, IH.
Qed.

Lemma fw_tag st n : fw <$> tag st n = tag st (fw <$> n).
Proof.
  destruct st; unfold tag, SPEAKER;
    rewrite ?fmap_cons, ?fmap_app, ?fmap_cons; reflexivity.
Qed.

Lemma fw_render ls : fw <$> render ls = render (fwl <$> ls).
Proof.
  induction ls as [|l ls IH]; [done|].
  rewrite fmap_cons, !render_cons, fmap_app.
  unfold line at 1 2. cbn [how number words fwl].
  rewrite fmap_app, fw_tag, fmap_cons. f_equal.
  destruct ls as [|l2 ls]; [done|].
  rewrite fmap_cons. rewrite <- IH. reflexivity.
Qed.

(** *** The stages, line by line *)

(** What the stages need of a line. *)
Definition good (l : spoken) : Prop := digits (number l) ∧ visible (words l).

Lemma numbered_plain_good l : numbered l → plain l → good l.
Proof. intros (Hn & Hd & _) (Hnl & Hv & Hw & _). by repeat split. Qed.

Lemma restyle_good hit l : good l → good (restyle hit l).
Proof. unfold restyle. by destruct (hit l). Qed.

Lemma fwl_good l : good l → good (fwl l).
Proof. intros [Hd Hv]. split; [by apply fw_digits | by apply fw_visible]. Qed.

Definition hit (st : style) (l : spoken) : bool := bool_decide (how l = st).

(** A tag that is not the parenthesised one has no such parenthesis. *)
Lemma tag_without o st st' n :
  (o = WLPAREN ∧ st = WideParen) ∨ (o = LPAREN ∧ st = Paren) →
  st' ≠ st → digits n → Forall (fun x => x ≠ o) (tag st' n).
Proof.
  intros Ho Hst [Hn Hd].
  assert (Hds : Forall (fun c => c ≠ o) n).
  { apply decimal_all_ne; [done|]. by destruct Ho as [[-> _] | [-> _]]. }
  destruct Ho as [[-> ->] | [-> ->]]; destruct st'; try done;
    unfold tag, SPEAKER; cbn [app];
    repeat (apply Forall_cons; split; [done|]);
    apply Forall_app; (split; [done|]); by repeat constructor.
Qed.

Lemma tagged_line o c st l rest prev :
  (o = WLPAREN ∧ c = WRPAREN ∧ st = WideParen)
  ∨ (o = LPAREN ∧ c = RPAREN ∧ st = Paren) →
  good l → line_end rest →
  sub_from (tagged o c) bracketed prev (line l ++ rest)
  = line (restyle (hit st) l) ++ after (sub_from (tagged o c) bracketed) rest.
Proof.
  intros Hp [Hd Hv] Hrest. destruct l as [st' n w].
  cbn [how number words] in *. unfold line, restyle, hit.
  cbn [how number words].
  assert (Hc : isdecimal c = false).
  { destruct Hp as [(_ & -> & _) | (_ & -> & _)]; reflexivity. }
  assert (Ho : o ≠ NL ∧ o ≠ SPACE).
  { destruct Hp as [(-> & _) | (-> & _)]; split; discriminate. }
  destruct (decide (st' = st)) as [-> | Hst].
  - rewrite bool_decide_eq_true_2 by reflexivity.
    cbn [canonical how number words].
    assert (Htag : tag st n = o :: WA :: SHA :: n ++ [c]).
    { destruct Hp as [(-> & -> & ->) | (-> & -> & ->)]; reflexivity. }
    rewrite Htag.
    exact (tagged_line_hit o c prev n w rest Hc (proj1 Ho) Hd Hv Hrest).
  - rewrite bool_decide_eq_false_2 by exact Hst. cbn [how number words].
    refine (tagged_line_miss o c prev (tag st' n) w rest (proj1 Ho) (proj2 Ho) _ Hv Hrest).
    apply (tag_without o st); [|exact Hst|exact Hd].
    destruct Hp as [(-> & _ & ->) | (-> & _ & ->)]; tauto.
Qed.

Lemma bare_line l rest prev :
  good l → how l = Bracket ∨ how l = BareColon →
  line_end rest → line_start prev →
  sub_from bare bracketed prev (line l ++ rest)
  = line (restyle (hit BareColon) l) ++ after (sub_from bare bracketed) rest.
Proof.
  intros [Hd Hv] Hhow Hrest Hprev. destruct l as [st n w].
  cbn [how number words] in *. unfold line, restyle, hit.
  cbn [how number words].
  destruct Hhow as [-> | ->].
  - rewrite bool_decide_eq_false_2 by discriminate. cbn [how number words].
    exact (bare_line_bracket prev n w rest Hd Hv Hrest).
  - rewrite bool_decide_eq_true_2 by reflexivity.
    cbn [canonical how number words].
    exact (bare_line_hit prev n w rest Hprev Hd Hv Hrest).
Qed.

Lemma letter_line l rest prev :
  good l → how l = Bracket → line_end rest →
  sub_from letter bracketed prev (line l ++ rest)
  = line l ++ after (sub_from letter bracketed) rest.
Proof.
  intros [Hd (Hnl & _)] Hhow Hrest. destruct l as [st n w].
  cbn [how number words] in *. subst st. unfold line. cbn [how number words].
  exact (letter_line_bracket prev n w rest Hd Hnl Hrest).
Qed.

(** *** The whole rewriting *)

Definition stages (l : spoken) : spoken :=
  restyle (hit BareColon)
   (fwl (restyle (hit Paren) (restyle (hit WideParen)
     (restyle (hit_speaker 50) (restyle (hit_speaker 49) l))))).

(** The canonical line with ASCII digits. *)
Definition settled (l : spoken) : spoken :=
  {| how := Bracket; number := fw <$> number l; words := fw <$> words l |}.

Lemma stages_settled l : numbered l → stages l = settled l.
Proof.
  intros (Hn & Hd & Hsp). destruct l as [st n w]. cbn [how number] in *.
  destruct st; try reflexivity.
  destruct (Hsp eq_refl) as [-> | ->]; reflexivity.
Qed.

Lemma before_bare l :
  numbered l →
  let l' := fwl (restyle (hit Paren) (restyle (hit WideParen)
              (restyle (hit_speaker 50) (restyle (hit_speaker 49) l)))) in
  how l' = Bracket ∨ how l' = BareColon.
Proof.
  intros (Hn & Hd & Hsp). destruct l as [st n w]. cbn [how number] in *.
  destruct st; try (by left); try (by right).
  destruct (Hsp eq_refl) as [-> | ->]; by left.
Qed.

Lemma restyle_numbered_plain hit l :
  numbered l ∧ plain l → numbered (restyle hit l) ∧ plain (restyle hit l).
Proof.
  intros [Hn Hp]. unfold restyle. destruct (hit l); [|done].
  destruct Hn as (Hn & Hd & _). by split.
Qed.

Lemma speaker_render k ls :
  one_or_two k →
  Forall (fun l => numbered l ∧ plain l) ls →
  replace (speaker_tag k) (tag Bracket [k]) (render ls)
  = render (restyle (hit_speaker k) <$> ls).
Proof.
  intros Hk Hls.
  refine (stage_render
            (fun _ => replace_loop (speaker_tag k) (tag Bracket [k]) 0)
            (restyle (hit_speaker k)) (fun l => numbered l ∧ plain l)
            _ _ ls None Hls _).
  - done.
  - intros l rest _ [Hl1 Hl2] Hrest _. by apply speaker_line.
  - by left.
Qed.

Lemma tagged_render o c st ls :
  (o = WLPAREN ∧ c = WRPAREN ∧ st = WideParen)
  ∨ (o = LPAREN ∧ c = RPAREN ∧ st = Paren) →
  Forall good ls →
  sub_from (tagged o c) bracketed None (render ls)
  = render (restyle (hit st) <$> ls).
Proof.
  intros Hp Hls.
  refine (stage_render (sub_from (tagged o c) bracketed)
            (restyle (hit st)) good _ _ ls None Hls _).
  - done.
  - intros l rest prev Hl Hrest _. by apply tagged_line.
  - by left.
Qed.

Lemma bare_render ls :
  Forall (fun l => good l ∧ (how l = Bracket ∨ how l = BareColon)) ls →
  sub_from bare bracketed None (render ls)
  = render (restyle (hit BareColon) <$> ls).
Proof.
  intros Hls.
  refine (stage_render (sub_from bare bracketed)
            (restyle (hit BareColon))
            (fun l => good l ∧ (how l = Bracket ∨ how l = BareColon))
            _ _ ls None Hls _).
  - done.
  - intros l rest prev [Hl Hhow] Hrest Hprev. by apply bare_line.
  - by left.
Qed.

Lemma letter_render ls :
  Forall (fun l => good l ∧ how l = Bracket) ls →
  sub_from letter bracketed None (render ls) = render ls.
Proof.
  intros Hls.
  rewrite <- (list_fmap_id ls) at 2.
  refine (stage_render (sub_from letter bracketed) id
            (fun l => good l ∧ how l = Bracket) _ _ ls None Hls _).
  - done.
  - intros l rest prev [Hl Hhow] Hrest Hprev. by apply letter_line.
  - by left.
Qed.

(** The rewriting turns every tag into the canonical one. *)
Lemma normalise_render ls :
  Forall numbered ls → Forall plain ls →
  normalise (render ls) = render (settled <$> ls).
Proof.
  intros Hn Hp.
  assert (Hnp : Forall (fun l => numbered l ∧ plain l) ls).
  { apply Forall_forall. intros l Hl. rewrite Forall_forall in Hn, Hp. auto. }
  unfold normalise.
  change (u "Speaker 1:") with (speaker_tag 49).
  change (u "[話者1]:") with (tag Bracket [49%N]).
  change (u "Speaker 2:") with (speaker_tag 50).
  change (u "[話者2]:") with (tag Bracket [50%N]).
  rewrite !sub_is_sub_from, wide_paren_tagged, paren_tagged.
  rewrite (speaker_render 49 ls (or_introl eq_refl) Hnp).
  assert (Hnp1 : Forall (fun l => numbered l ∧ plain l)
                   (restyle (hit_speaker 49) <$> ls)).
  { apply Forall_fmap. eapply Forall_impl; [exact Hnp|].
    intros l. apply restyle_numbered_plain. }
  rewrite (speaker_render 50 _ (or_intror eq_refl) Hnp1).
  assert (Hg2 : Forall good
                  (restyle (hit_speaker 50) <$> (restyle (hit_speaker 49) <$> ls))).
  { apply Forall_fmap. eapply Forall_impl; [exact Hnp1|].
    intros l [Hl1 Hl2]. by apply restyle_good, numbered_plain_good. }
  rewrite (tagged_render WLPAREN WRPAREN WideParen _
             (or_introl (conj eq_refl (conj eq_refl eq_refl))) Hg2).
  assert (Hg3 : Forall good
                  (restyle (hit WideParen) <$>
                    (restyle (hit_speaker 50) <$> (restyle (hit_speaker 49) <$> ls)))).
  { apply Forall_fmap. eapply Forall_impl; [exact Hg2|].
    intros l. apply restyle_good. }
  rewrite (tagged_render LPAREN RPAREN Paren _
             (or_intror (conj eq_refl (conj eq_refl eq_refl))) Hg3).
  rewrite digits_stage, fw_render.
  set (ls4 := restyle (hit Paren) <$>
                (restyle (hit WideParen) <$>
                  (restyle (hit_speaker 50) <$> (restyle (hit_speaker 49) <$> ls)))).
  assert (Hg5 : Forall (fun l => good l ∧ (how l = Bracket ∨ how l = BareColon))
                  (fwl <$> ls4)).
  { unfold ls4. rewrite !Forall_fmap. eapply Forall_impl; [exact Hnp|].
    intros l [Hl1 Hl2]. split; [|by apply before_bare].
    apply fwl_good. do 4 apply restyle_good. by apply numbered_plain_good. }
  rewrite (bare_render _ Hg5).
  assert (Hall : restyle (hit BareColon) <$> (fwl <$> ls4) = settled <$> ls).
  { unfold ls4. rewrite <- !list_fmap_compose.
    apply Forall_fmap_ext. eapply Forall_impl; [exact Hn|].
    intros l Hl. by apply stages_settled. }
  rewrite Hall. apply letter_render.
  apply Forall_fmap. eapply Forall_impl; [exact Hnp|].
  intros l [Hl1 Hl2]. split; [|done].
  rewrite <- (stages_settled l Hl1). unfold stages.
  apply restyle_good, fwl_good. do 4 apply restyle_good.
  by apply numbered_plain_good.
Qed.

(** *** The final pattern on canonical lines *)

Lemma pattern_hit prev d n w0 w rest :
  isdecimal d = true →
  Forall (fun c => isdecimal c = true) n →
  isspace w0 = false →
  NL ∉ w0 :: w →
  line_end rest →
  match_at pattern prev
    (LBRACK :: (WA :: SHA :: d :: n ++ RBRACK :: COLON :: SPACE :: w0 :: w) ++ rest)
  = Some ([(2, w0 :: w); (1, WA :: SHA :: d :: n)],
          S (length (WA :: SHA :: d :: n ++ RBRACK :: COLON :: SPACE :: w0 :: w))).
Proof.
  intros Hd Hn Hw0 Hnl Hrest.
  assert (Hw0' : any_but_newline w0 = true).
  { unfold any_but_newline. destruct (N.eqb_spec w0 NL) as [->|]; [|done].
    exfalso. apply Hnl. by left. }
  assert (Hw : Forall (fun c => any_but_newline c = true) w).
  { apply Forall_forall. intros c Hc. unfold any_but_newline.
    destruct (N.eqb_spec c NL) as [->|]; [|done].
    exfalso. apply Hnl. by right. }
  assert (Hstop : match rest with [] => True | c :: _ => any_but_newline c = false end).
  { by destruct Hrest as [-> | [r ->]]. }
  replace ((WA :: SHA :: d :: n ++ RBRACK :: COLON :: SPACE :: w0 :: w) ++ rest)
    with (WA :: SHA :: d :: n ++ (RBRACK :: COLON :: SPACE :: w0 :: w ++ rest))
    by list_eq.
  unfold match_at, pattern. cbn [m]. rewrite N.eqb_refl.
  erewrite washa_hit; [reflexivity | exact Hd | exact Hn | reflexivity |].
  cbn [m star]. rewrite N.eqb_refl.
  change (colon COLON) with true. change (isspace SPACE) with true.
  rewrite Hw0, Hw0'. cbv beta iota.
  erewrite (star_max any_but_newline w rest); [| exact Hw | exact Hstop | reflexivity].
  f_equal. f_equal.
  - f_equal; [|f_equal]; f_equal.
    + apply (take_consumed (w0 :: w) rest).
    + apply (take_consumed (WA :: SHA :: d :: n)
               (RBRACK :: COLON :: SPACE :: w0 :: w ++ rest)).
  - cbn [length]. rewrite !length_app. cbn [length]. rewrite !length_app. lia.
Qed.

(** *** [strip] on tags and words *)

Lemma space_not_decimal c : isspace c = true → isdecimal c = false.
Proof.
  unfold isspace.
  rewrite !orb_true_iff, !andb_true_iff, !N.leb_le, !N.eqb_eq.
  intros Hc.
  assert (Hin : c ∈ [9; 10; 11; 12; 13; 28; 29; 30; 31; 32; 133; 160; 5760;
                     8192; 8193; 8194; 8195; 8196; 8197; 8198; 8199; 8200;
                     8201; 8202; 8232; 8233; 8239; 8287; 12288]%N).
  { rewrite !elem_of_cons. lia. }
  repeat (apply elem_of_cons in Hin as [-> | Hin]; [reflexivity|]).
  by apply elem_of_nil in Hin.
Qed.

Lemma lstrip_visible c s : isspace c = false → lstrip (c :: s) = c :: s.
Proof. intros Hc. simpl. by rewrite Hc. Qed.

Lemma lstrip_snoc_visible s c :
  isspace c = false → ∃ s', lstrip (s ++ [c]) = s' ++ [c].
Proof.
  intros Hc. induction s as [|x s IH].
  - exists []. simpl. by rewrite Hc.
  - simpl. destruct (isspace x); [exact IH|]. by exists (x :: s).
Qed.

Lemma rstrip_snoc_visible s c : isspace c = false → rstrip (s ++ [c]) = s ++ [c].
Proof.
  intros Hc. unfold rstrip. rewrite rev_app_distr. simpl.
  rewrite Hc. simpl. by rewrite rev_involutive.
Qed.

(** A tag's speaker is not touched by [strip]. *)
Lemma strip_speaker n :
  digits n → strip (WA :: SHA :: n) = WA :: SHA :: n.
Proof.
  intros [Hn Hd]. unfold strip. rewrite lstrip_visible by reflexivity.
  destruct (exists_last Hn) as [n' [c ->]].
  apply Forall_app in Hd as [_ Hc]. apply Forall_cons in Hc as [Hc _].
  change (WA :: SHA :: n' ++ [c]) with ((WA :: SHA :: n') ++ [c]).
  apply rstrip_snoc_visible.
  destruct (isspace c) eqn:Hs; [|done].
  apply space_not_decimal in Hs. congruence.
Qed.

(** Words that start with a visible character are not blank. *)
Lemma strip_words_truthy c w : isspace c = false → truthy (strip (c :: w)) = true.
Proof.
  intros Hc. unfold strip. rewrite lstrip_visible by done.
  unfold rstrip. change (rev (c :: w)) with (rev w ++ [c]).
  destruct (lstrip_snoc_visible (rev w) c Hc) as [s' ->].
  by rewrite rev_app_distr.
Qed.

(** *** The segments of a canonical script *)

Definition pick (e : list N + captures) : option captures :=
  match e with
  | inr caps => Some caps
  | inl _ => None
  end.

(** [parse_dialogue]'s loop over [re.finditer], from a cursor. *)
Definition segments_from (prev : option N) (s : str) : list Gateway.segment :=
  omap segment_of (omap pick (scan pattern 0 prev s)).

Lemma parse_dialogue_segments content :
  parse_dialogue content = segments_from None (normalise content).
Proof. reflexivity. Qed.

(** The segment a line stands for. *)
Definition segment_for (l : spoken) : Gateway.segment :=
  {| Gateway.seg_speaker := WA :: SHA :: number l;
     Gateway.seg_text := strip (words l) |}.

Lemma pattern_line l rest prev :
  good l → how l = Bracket → line_end rest →
  segments_from prev (line l ++ rest)
  = segment_for l :: match rest with
                     | [] => []
                     | x :: r => segments_from (Some x) r
                     end.
Proof.
  intros [Hd Hv] Hhow Hrest. destruct l as [st n w].
  cbn [how number words] in *. subst st.
  pose proof (strip_speaker n Hd) as Hsp.
  destruct Hd as [Hn Hd]. destruct n as [|d n]; [done|].
  apply Forall_cons in Hd as [Hd Hds].
  destruct Hv as (Hnl & (w0 & w' & -> & Hw0) & _).
  unfold line, segment_for, segments_from. cbn [how number words].
  replace ((tag Bracket (d :: n) ++ SPACE :: w0 :: w') ++ rest)
    with (LBRACK :: (WA :: SHA :: d :: n ++ RBRACK :: COLON :: SPACE :: w0 :: w') ++ rest)
    by (unfold tag; list_eq).
  rewrite (scan_hit _ _ _ _ _ _ (pattern_hit prev d n w0 w' rest Hd Hds Hw0 Hnl Hrest)).
  assert (Hseg : segment_of [(2, w0 :: w'); (1, WA :: SHA :: d :: n)]
                 = Some {| Gateway.seg_speaker := WA :: SHA :: d :: n;
                           Gateway.seg_text := strip (w0 :: w') |}).
  { unfold segment_of. cbn [group Nat.eqb].
    by rewrite (strip_words_truthy w0 w' Hw0), Hsp. }
  rewrite (PipelineFacts.omap_cons pick). cbn [pick].
  rewrite (PipelineFacts.omap_cons segment_of), Hseg. f_equal.
  destruct Hrest as [-> | [r ->]]; [done|].
  change (NL :: r) with ([NL] ++ r).
  rewrite scan_quiet by (split; [reflexivity | done]).
  reflexivity.
Qed.

Lemma segments_render ls prev :
  Forall (fun l => good l ∧ how l = Bracket) ls →
  segments_from prev (render ls) = segment_for <$> ls.
Proof.
  revert prev. induction ls as [|l ls IH]; intros prev Hls; [done|].
  apply Forall_cons in Hls as [[Hl Hhow] Hls].
  rewrite fmap_cons, render_cons. destruct ls as [|l2 ls].
  - rewrite pattern_line; [done | done | done | by left].
  - rewrite pattern_line; [|done | done | right; by eexists].
    by rewrite IH.
Qed.

Lemma canonical_keeps l :
  numbered l → plain l →
  numbered (canonical l) ∧ plain (canonical l) ∧ settled (canonical l) = settled l.
Proof.
  intros (Hn & Hd & _) Hp. split; [|by split].
  split; [exact Hn|]. split; [exact Hd|]. intros Hhow. discriminate Hhow.
Qed.

(** C1, as the code has it.  The dialect spellings are rewritten by
    [parse_dialogue] of [app.py] only.  For a dialogue whose lines are a
    speaker tag in any of the spellings ([Speaker N:] for N = 1, 2;
    [話者N:], [（話者N）], [(話者N)] or [[話者N]:] for a digit string N), a
    space, and words that form one line, start with a visible character
    and hold no speaker marker of their own: the rewriting yields the
    script with every tag in the canonical bracket form (and full-width
    digits 1 to 5 made ASCII); the segments are, in script order, speaker
    [話者N] with the stripped words; and they are the same as those of the
    script written with canonical tags throughout. *)
Theorem app_parse_dialogue_dialect_invariant (ls : list spoken) :
  Forall numbered ls → Forall plain ls →
  normalise (render ls) = render (settled <$> ls)
  ∧ parse_dialogue (render ls) = segment_for ∘ settled <$> ls
  ∧ parse_dialogue (render ls) = parse_dialogue (render (canonical <$> ls)).
Proof.
  intros Hn Hp.
  assert (Hseg : ∀ ks, Forall numbered ks → Forall plain ks →
            parse_dialogue (render ks) = segment_for ∘ settled <$> ks).
  { intros ks Hkn Hkp.
    rewrite parse_dialogue_segments, (normalise_render ks Hkn Hkp).
    rewrite segments_render; [by rewrite <- list_fmap_compose|].
    apply Forall_fmap, Forall_forall. intros l Hl.
    rewrite Forall_forall in Hkn, Hkp. split; [|done].
    rewrite <- (stages_settled l (Hkn l Hl)). unfold stages.
    apply restyle_good, fwl_good. do 4 apply restyle_good.
    apply numbered_plain_good; auto. }
  split; [by apply normalise_render|]. split; [by apply Hseg|].
  assert (Hcn : Forall numbered (canonical <$> ls)
                ∧ Forall plain (canonical <$> ls)).
  { split; apply Forall_fmap, Forall_forall; intros l Hl;
      rewrite Forall_forall in Hn, Hp;
      by apply (canonical_keeps l (Hn l Hl) (Hp l Hl)). }
  destruct Hcn as [Hcn Hcp].
  rewrite (Hseg ls Hn Hp), (Hseg _ Hcn Hcp).
  rewrite <- list_fmap_compose. apply Forall_fmap_ext.
  apply Forall_forall. intros l Hl. rewrite Forall_forall in Hn, Hp.
  reflexivity.
Qed.

(** Checkers for the two conditions. *)
Definition numberedb (l : spoken) : bool :=
  negb (bool_decide (number l = []))
  && forallb isdecimal (number l)
  && match how l with
     | SpeakerColon =>
       bool_decide (number l = u "1") || bool_decide (number l = u "2")
     | _ => true
     end.

Definition plainb (l : spoken) : bool :=
  forallb (fun c => negb (c =? NL)%N) (words l)
  && match words l with
     | c :: _ => negb (isspace c)
     | [] => false
     end
  && negb (contains [WA; SHA] (words l))
  && negb (contains (u "Speaker 1:") (words l))
  && negb (contains (u "Speaker 2:") (words l)).

Lemma numberedb_ok l : numberedb l = true → numbered l.
Proof.
  unfold numberedb, numbered.
  rewrite !andb_true_iff, negb_true_iff, bool_decide_eq_false.
  intros [[Hn Hd] Hs]. split; [done|]. split.
  - apply Forall_forall. intros c Hc.
    rewrite forallb_forall in Hd. apply Hd. by apply list_elem_of_In.
  - intros Hhow. rewrite Hhow in Hs.
    apply orb_true_iff in Hs as [Hs | Hs]; apply bool_decide_eq_true in Hs; auto.
Qed.

Lemma plainb_ok l : plainb l = true → plain l.
Proof.
  unfold plainb, plain.
  rewrite !andb_true_iff, !negb_true_iff.
  intros [[[[Hnl Hc] Hw] H1] H2]. repeat split; try done.
  - intros Hin. rewrite forallb_forall in Hnl.
    apply list_elem_of_In, Hnl in Hin. by rewrite N.eqb_refl in Hin.
  - destruct (words l) as [|c w]; [done|].
    exists c, w. split; [done|]. by apply negb_true_iff.
Qed.

(** A script that mixes the four dialect spellings. *)
Definition mixed : list spoken :=
  [ {| how := SpeakerColon; number := u "1"; words := u "hi there" |};
    {| how := WideParen; number := u "２"; words := u "yo" |};
    {| how := Paren; number := u "1"; words := u "ok (really)" |};
    {| how := BareColon; number := u "12"; words := u "bye" |} ].

Lemma app_parse_dialogue_dialect_invariant_witness :
  Forall numbered mixed ∧ Forall plain mixed
  ∧ normalise (render mixed)
    = u "[話者1]: hi there
[話者2]: yo
[話者1]: ok (really)
[話者12]: bye"
  ∧ parse_dialogue (render mixed)
    = [ {| Gateway.seg_speaker := u "話者1"; Gateway.seg_text := u "hi there" |};
        {| Gateway.seg_speaker := u "話者2"; Gateway.seg_text := u "yo" |};
        {| Gateway.seg_speaker := u "話者1"; Gateway.seg_text := u "ok (really)" |};
        {| Gateway.seg_speaker := u "話者12"; Gateway.seg_text := u "bye" |} ]
  ∧ parse_dialogue (render mixed) = parse_dialogue (render (canonical <$> mixed)).
Proof.
  assert (Hn : Forall numbered mixed).
  { apply Forall_forall. intros l Hl. apply numberedb_ok.
    repeat (apply elem_of_cons in Hl as [-> | Hl]; [vm_compute; reflexivity|]).
    by apply elem_of_nil in Hl. }
  assert (Hp : Forall plain mixed).
  { apply Forall_forall. intros l Hl. apply plainb_ok.
    repeat (apply elem_of_cons in Hl as [-> | Hl]; [vm_compute; reflexivity|]).
    by apply elem_of_nil in Hl. }
  destruct (app_parse_dialogue_dialect_invariant mixed Hn Hp) as (Hnorm & Hseg & Hinv).
  split; [exact Hn|]. split; [exact Hp|]. split; [|split].
  - rewrite Hnorm. vm_compute. reflexivity.
  - rewrite Hseg. vm_compute. reflexivity.
  - exact Hinv.
Defined.
End DialectFacts.

(* ===================================================================== *)
(** ** Facts about the string operations *)
(* ===================================================================== *)

Module PyFacts.
Import Py.

Lemma split_nl_cons (s : str) : ∃ piece pieces, split_nl s = piece :: pieces.
Proof.
  induction s as [|c s [p [ps IH]]]; simpl; [by eauto|].
  destruct (c =? NL)%N; [by eauto|]. rewrite IH. eauto.
Qed.

(** Splitting distributes over a newline. *)
Lemma split_nl_app (a b : str) :
  split_nl (a ++ NL :: b) = split_nl a ++ split_nl b.
Proof.
  induction a as [|c a IH]; [reflexivity|].
  change ((c :: a) ++ NL :: b) with (c :: (a ++ NL :: b)).
  cbn [split_nl]. rewrite IH.
  destruct (c =? NL)%N; [reflexivity|].
  destruct (split_nl_cons a) as [p [ps ->]]. reflexivity.
Qed.

Lemma split_nl_line (c : str) : NL ∉ c → split_nl c = [c].
Proof.
  induction c as [|x c IH]; intros Hnl; [reflexivity|].
  cbn [split_nl].
  destruct (N.eqb_spec x NL) as [->|_]; [exfalso; apply Hnl; left|].
  rewrite IH; [reflexivity|]. intros Hin. apply Hnl. by right.
Qed.

Lemma split_nl_no_newline (s : str) : Forall (fun l => NL ∉ l) (split_nl s).
Proof.
  induction s as [|c s IH]; simpl.
  - repeat constructor. by intros ?%elem_of_nil.
  - destruct (N.eqb_spec c NL) as [->|Hc].
    + constructor; [by intros ?%elem_of_nil|done].
    + destruct (split_nl s) as [|p ps]; [repeat constructor|].
      * intros [E|E]%elem_of_cons; [by symmetry in E|by apply elem_of_nil in E].
      * inversion IH; subst. constructor; [|done].
        intros [E|E]%elem_of_cons; [by symmetry in E|done].
Qed.

(** [split] undoes [join] on lines that hold no newline. *)
Lemma split_nl_join (ls : list str) :
  ls ≠ [] → Forall (fun l => NL ∉ l) ls → split_nl (join [NL] ls) = ls.
Proof.
  induction ls as [|l ls IH]; intros Hne Hall; [done|].
  inversion Hall as [|? ? Hl Hls]; subst.
  destruct ls as [|l' ls]; [by apply split_nl_line|].
  change (join [NL] (l :: l' :: ls)) with (l ++ NL :: join [NL] (l' :: ls)).
  rewrite split_nl_app, split_nl_line, IH; done.
Qed.

Lemma lstrip_suffix (s : str) : lstrip s `suffix_of` s.
Proof.
  induction s as [|c s IH]; simpl; [done|].
  destruct (isspace c); [by apply suffix_cons_r|done].
Qed.

(** What [lstrip] leaves does not start with white space. *)
Definition starts_visible (s : str) : Prop :=
  match s with
  | [] => True
  | c :: _ => isspace c = false
  end.

Definition ends_visible (s : str) : Prop := starts_visible (rev s).

Lemma lstrip_starts_visible (s : str) : starts_visible (lstrip s).
Proof.
  induction s as [|c s IH]; simpl; [done|].
  destruct (isspace c) eqn:Hc; [done|]. simpl. done.
Qed.

Lemma lstrip_fix (s : str) : starts_visible s → lstrip s = s.
Proof. destruct s as [|c s]; simpl; [done|]. by intros ->. Qed.

Lemma lstrip_snoc (s : str) (c : N) :
  isspace c = false → lstrip (s ++ [c]) = lstrip s ++ [c].
Proof.
  intros Hc. induction s as [|x s IH]; simpl; [by rewrite Hc|].
  by destruct (isspace x).
Qed.

Lemma rstrip_cons (c : N) (s : str) :
  isspace c = false → rstrip (c :: s) = c :: rstrip s.
Proof.
  intros Hc. unfold rstrip. simpl. rewrite lstrip_snoc by done.
  by rewrite rev_app_distr.
Qed.

Lemma rstrip_ends_visible (s : str) : ends_visible (rstrip s).
Proof.
  unfold ends_visible, rstrip. rewrite rev_involutive.
  apply lstrip_starts_visible.
Qed.

Lemma rstrip_fix (s : str) : ends_visible s → rstrip s = s.
Proof.
  unfold ends_visible, rstrip. intros H. by rewrite lstrip_fix, rev_involutive.
Qed.

Lemma strip_starts_visible (s : str) : starts_visible (strip s).
Proof.
  unfold strip. pose proof (lstrip_starts_visible s) as H.
  destruct (lstrip s) as [|c t]; [done|]. simpl in H.
  by rewrite rstrip_cons.
Qed.

Lemma strip_ends_visible (s : str) : ends_visible (strip s).
Proof. apply rstrip_ends_visible. Qed.

Lemma strip_fix (s : str) : starts_visible s → ends_visible s → strip s = s.
Proof. intros H1 H2. unfold strip. by rewrite lstrip_fix, rstrip_fix. Qed.

(** [strip] is idempotent. *)
Lemma strip_strip (s : str) : strip (strip s) = strip s.
Proof. apply strip_fix; [apply strip_starts_visible|apply strip_ends_visible]. Qed.

Lemma elem_of_rev {A} (l : list A) (x : A) : x ∈ rev l ↔ x ∈ l.
Proof. rewrite !list_elem_of_In. symmetry. apply in_rev. Qed.

Lemma rstrip_subseteq (s : str) : rstrip s ⊆ s.
Proof.
  unfold rstrip. intros x Hx. rewrite elem_of_rev in Hx.
  rewrite <- (elem_of_rev s). eapply elem_of_suffix; [exact Hx|apply lstrip_suffix].
Qed.

(** [strip] only removes characters. *)
Lemma strip_subseteq (s : str) : strip s ⊆ s.
Proof.
  unfold strip. intros x Hx. apply rstrip_subseteq in Hx.
  eapply elem_of_suffix; [exact Hx|apply lstrip_suffix].
Qed.

(** A check that a string holds no newline. *)
Lemma no_newline_check (s : str) :
  forallb (fun c => negb (c =? NL)%N) s = true → NL ∉ s.
Proof.
  intros Hall Hin. rewrite forallb_forall in Hall.
  apply list_elem_of_In, Hall in Hin. by rewrite N.eqb_refl in Hin.
Qed.

Lemma truthy_ne (s : str) : truthy s = true ↔ s ≠ [].
Proof. destruct s; simpl; split; done. Qed.

End PyFacts.

(* ===================================================================== *)
(** ** Captured groups are pieces of the subject *)
(* ===================================================================== *)

Module ReCaptures.
Import Py Re.

(** Every captured group is made of characters of [whole]. *)
Definition within (whole : list N) (caps : captures) : Prop :=
  Forall (fun g : nat * list N => g.2 ⊆ whole) caps.

Lemma group_within (whole : list N) (caps : captures) (i : nat) :
  within whole caps → group i caps ⊆ whole.
Proof.
  induction 1 as [|[j g] caps Hg _ IH]; simpl.
  - by intros x ?%elem_of_nil.
  - by destruct (Nat.eqb i j).
Qed.

Lemma take_subseteq {A} (n : nat) (l : list A) : take n l ⊆ l.
Proof. intros x Hx. eapply elem_of_sublist; [exact Hx|apply sublist_take]. Qed.

Lemma suffix_subseteq {A} (l1 l2 : list A) : l1 `suffix_of` l2 → l1 ⊆ l2.
Proof. intros Hs x Hx. by eapply elem_of_suffix. Qed.

(** The repetition hands over to its continuation at a suffix. *)
Lemma star_calls {A} (p : N -> bool) (s : list N) :
  ∀ prev (k : option N -> list N -> option A) a,
    star p prev s k = Some a →
    ∃ prev' s', k prev' s' = Some a ∧ s' `suffix_of` s.
Proof.
  induction s as [|c s IH]; intros prev k a; simpl.
  - intros H. by exists prev, [].
  - destruct (p c); [|intros H; by exists prev, (c :: s)].
    destruct (star p (Some c) s k) as [b|] eqn:E.
    + intros [= ->]. apply IH in E as (prev' & s' & Hk & Hs).
      exists prev', s'. split; [done|]. by apply suffix_cons_r.
    + intros H. by exists prev, (c :: s).
Qed.

(** A successful match ends in a call of the continuation, at a suffix of
    the input and with groups cut out of the input. *)
Lemma m_calls {A} (r : regex) :
  ∀ prev s caps (k : cont A) a,
    m r prev s caps k = Some a →
    ∃ prev' s' caps',
      k prev' s' caps' = Some a
      ∧ s' `suffix_of` s
      ∧ ∀ whole, s ⊆ whole → within whole caps → within whole caps'.
Proof.
  induction r as [c|p|r1 IH1 r2 IH2|r1 IH1 r2 IH2|r1 IH1|p|p|i r1 IH1|ml| |c];
    intros prev s caps k a; cbn [m].
  - destruct s as [|x s]; [done|]. destruct (x =? c)%N; [|done].
    intros H. exists (Some x), s, caps. split; [done|].
    split; [by apply suffix_cons_r|done].
  - destruct s as [|x s]; [done|]. destruct (p x); [|done].
    intros H. exists (Some x), s, caps. split; [done|].
    split; [by apply suffix_cons_r|done].
  - intros H. apply IH1 in H as (p1 & s1 & c1 & H & Hs1 & Hw1).
    apply IH2 in H as (p2 & s2 & c2 & H & Hs2 & Hw2).
    exists p2, s2, c2. split; [done|]. split; [by etrans|].
    intros whole Hsub Hc. apply Hw2; [|by apply Hw1].
    etrans; [by apply suffix_subseteq|done].
  - destruct (m r1 prev s caps k) as [b|] eqn:E.
    + intros [= ->]. by apply IH1 in E.
    + apply IH2.
  - destruct (m r1 prev s caps k) as [b|] eqn:E.
    + intros [= ->]. by apply IH1 in E.
    + intros H. by exists prev, s, caps.
  - intros H. apply star_calls in H as (prev' & s' & H & Hs).
    by exists prev', s', caps.
  - destruct s as [|x s]; [done|]. destruct (p x); [|done].
    intros H. apply star_calls in H as (prev' & s' & H & Hs).
    exists prev', s', caps. split; [done|].
    split; [by apply suffix_cons_r|done].
  - intros H. apply IH1 in H as (p1 & s1 & c1 & H & Hs1 & Hw1).
    exists p1, s1, ((i, take (length s - length s1) s) :: c1).
    split; [done|]. split; [done|].
    intros whole Hsub Hc. constructor; [|by apply Hw1].
    simpl. etrans; [apply take_subseteq|done].
  - destruct prev as [c|].
    + destruct (ml && (c =? NL)%N); [|done].
      intros H. by exists (Some c), s, caps.
    + intros H. by exists None, s, caps.
  - destruct s as [|c [|c' s]].
    + intros H. by exists prev, [], caps.
    + destruct (c =? NL)%N; [|done]. intros H. by exists prev, [c], caps.
    + done.
  - destruct prev as [x|].
    + destruct (x =? c)%N; [done|]. intros H. by exists (Some x), s, caps.
    + intros H. by exists None, s, caps.
Qed.

Lemma match_at_within (r : regex) prev (s : list N) caps n :
  match_at r prev s = Some (caps, n) → within s caps.
Proof.
  unfold match_at. intros H.
  apply m_calls in H as (p1 & s1 & c1 & H & _ & Hw).
  injection H as <- _. apply Hw; [done|constructor].
Qed.

(** The groups of [re.match] are cut out of the subject. *)
Lemma re_match_within (r : regex) (s : list N) caps :
  re_match r s = Some caps → within s caps.
Proof.
  unfold re_match. destruct (match_at r None s) as [[c n]|] eqn:E; [|done].
  intros [= <-]. by eapply match_at_within.
Qed.

End ReCaptures.

(* ===================================================================== *)
(** ** More on [src/readers/script_parser.py] *)
(* ===================================================================== *)

Module ScriptParserExtras.
Import Py Re ScriptParser ScriptParserFacts PyFacts ReCaptures.

(** *** The shape of a parsed line *)

Lemma first_match_pieces (ps : list regex) (line sp tx : str) :
  first_match ps line = Some (sp, tx) →
  strip sp = sp ∧ strip tx = tx ∧ sp ⊆ line ∧ tx ⊆ line.
Proof.
  induction ps as [|p ps IH]; simpl; [done|].
  destruct (re_match p line) as [caps|] eqn:E; [|done].
  intros [= <- <-]. apply re_match_within in E.
  repeat split; try apply strip_strip.
  - etrans; [apply strip_subseteq|by apply group_within].
  - etrans; [apply strip_subseteq|by apply group_within].
Qed.

Lemma parse_line_pieces (raw sp tx : str) :
  parse_line raw = Some (sp, tx) →
  sp ≠ [] ∧ tx ≠ [] ∧ strip sp = sp ∧ strip tx = tx ∧ sp ⊆ raw ∧ tx ⊆ raw.
Proof.
  unfold parse_line.
  destruct (negb (truthy (strip raw)) || startswith [HASH] (strip raw)); [done|].
  destruct (first_match patterns (strip raw)) as [[sp' tx']|] eqn:E; [|done].
  destruct (truthy sp') eqn:Hsp; [|done].
  destruct (truthy tx') eqn:Htx; [|done].
  intros [= <- <-]. apply first_match_pieces in E as (H1 & H2 & H3 & H4).
  repeat split; try done.
  - by apply truthy_ne.
  - by apply truthy_ne.
  - etrans; [done|apply strip_subseteq].
  - etrans; [done|apply strip_subseteq].
Qed.

Lemma lines_of_text (txt : str) :
  lines (parse_text txt) = omap entry (enumerate 1 (split_nl txt)).
Proof. unfold parse_text. by rewrite parse_loop_lines. Qed.

Lemma speakers_of_text (txt : str) :
  speakers (parse_text txt) = list_to_set (speaker <$> lines (parse_text txt)).
Proof.
  rewrite lines_of_text. unfold parse_text. rewrite parse_loop_speakers.
  set_solver.
Qed.

Lemma enumerate_elem {A} (xs : list A) (start n : nat) (x : A) :
  (n, x) ∈ enumerate start xs → x ∈ xs.
Proof.
  revert start. induction xs as [|y xs IH]; intros start; simpl.
  - by intros ?%elem_of_nil.
  - intros [[= -> ->]|H]%elem_of_cons; [left|right; by eapply IH].
Qed.

Lemma parsed_script (fs : filesystem) (content : source) (script : DialogueScript) :
  parse_dialogue_script fs content = inr script →
  ∃ txt, load fs content = inr txt ∧ script = parse_text txt.
Proof.
  unfold parse_dialogue_script. destruct (load fs content) as [e|txt]; [done|].
  intros [= <-]. eauto.
Qed.

(** X1.  Every line that [parse_dialogue_script] returns has a speaker and
    a text that are not empty, carry no white space at either end and hold
    no newline. *)
Theorem parsed_lines_are_trimmed (fs : filesystem) (content : source)
    (script : DialogueScript) (l : DialogueLine) :
  parse_dialogue_script fs content = inr script →
  l ∈ lines script →
  speaker l ≠ [] ∧ text l ≠ []
  ∧ strip (speaker l) = speaker l ∧ strip (text l) = text l
  ∧ (NL ∉ speaker l) ∧ (NL ∉ text l).
Proof.
  intros (txt & _ & ->)%parsed_script. rewrite lines_of_text.
  intros (raw & Hin & Hp)%elem_of_entries.
  apply enumerate_elem in Hin.
  pose proof (split_nl_no_newline txt) as Hnl.
  rewrite Forall_forall in Hnl. specialize (Hnl raw Hin).
  apply parse_line_pieces in Hp as (H1 & H2 & H3 & H4 & H5 & H6).
  repeat split; try done.
  - intros H. by apply Hnl, H5.
  - intros H. by apply Hnl, H6.
Qed.

Lemma parsed_lines_are_trimmed_witness :
  parse_dialogue_script only_cwd (OfStr abc) = inr abc_script
  ∧ {| speaker := u "B"; text := u "bye"; line_number := 2 |} ∈ lines abc_script
  ∧ strip (u "bye") = u "bye" ∧ (NL ∉ u "bye").
Proof.
  assert (H1 : parse_dialogue_script only_cwd (OfStr abc) = inr abc_script)
    by (vm_compute; reflexivity).
  assert (H2 : {| speaker := u "B"; text := u "bye"; line_number := 2 |}
               ∈ lines abc_script)
    by (right; left).
  split; [exact H1|]. split; [exact H2|].
  destruct (parsed_lines_are_trimmed _ _ _ _ H1 H2) as (_ & _ & _ & H & _ & H').
  split; [exact H|exact H'].
Defined.

(** *** Lines by speaker *)

Lemma StronglySorted_filter {A} (f : A -> nat) (P : A -> Prop)
    `{∀ x, Decision (P x)} (l : list A) :
  StronglySorted lt (f <$> l) → StronglySorted lt (f <$> filter P l).
Proof.
  induction l as [|x l IH]; [done|].
  rewrite fmap_cons. intros Hs. inversion Hs as [|? ? Hl Hx]; subst.
  rewrite filter_cons. destruct (decide (P x)); [|by apply IH].
  rewrite fmap_cons. constructor; [by apply IH|].
  rewrite Forall_forall in Hx. apply Forall_forall. intros n Hn. apply Hx.
  eapply elem_of_sublist; [exact Hn|].
  apply fmap_sublist, sublist_filter.
Qed.

Lemma sum_indicator {K} `{EqDecision K} (y : K) (ks : list K) :
  NoDup ks → y ∈ ks →
  sum_list ((fun k => if decide (y = k) then 1 else 0) <$> ks) = 1.
Proof.
  induction 1 as [|k ks Hk Hnd IH]; [by intros ?%elem_of_nil|].
  rewrite fmap_cons. cbn [sum_list]. intros [->|Hin]%elem_of_cons.
  - rewrite decide_True by done.
    rewrite (sum_list_fmap_same 0); [unfold id; lia|].
    apply Forall_forall. intros k' Hk'. rewrite decide_False; [done|].
    by intros ->.
  - rewrite decide_False by (by intros ->). by rewrite IH.
Qed.

(** Counting a list by the key of its elements. *)
Lemma length_by_key {A K} `{EqDecision K} (f : A -> K) (l : list A) (ks : list K) :
  NoDup ks → (∀ x, x ∈ l → f x ∈ ks) →
  length l = sum_list ((fun k => length (filter (fun x => f x = k) l)) <$> ks).
Proof.
  intros Hnd. induction l as [|x l IH]; intros Hin.
  - simpl. by rewrite (sum_list_fmap_same 0); [lia|apply Forall_forall].
  - assert (Haux : ∀ ks',
      sum_list ((fun k => length (filter (fun y => f y = k) (x :: l))) <$> ks')
      = sum_list ((fun k => if decide (f x = k) then 1 else 0) <$> ks')
        + sum_list ((fun k => length (filter (fun y => f y = k) l)) <$> ks')).
    { induction ks' as [|k ks' IHk]; [done|].
      rewrite !fmap_cons. cbn [sum_list]. rewrite IHk, filter_cons.
      destruct (decide (f x = k)); simpl; lia. }
    rewrite Haux, sum_indicator, <- IH; [done| |done|].
    + intros y Hy. apply Hin. by right.
    + apply Hin. left.
Qed.

(** X2.  [get_lines_by_speaker] splits a parsed script by speaker: a name
    is in [speakers] exactly when it has lines; its lines come in
    increasing line-number order; every line is listed under its own
    speaker; and the lists of all the speakers together are as many as the
    lines of the script. *)
Theorem lines_by_speaker_partition (fs : filesystem) (content : source)
    (script : DialogueScript) :
  parse_dialogue_script fs content = inr script →
  (∀ who, who ∈ speakers script ↔ get_lines_by_speaker script who ≠ [])
  ∧ (∀ who, StronglySorted lt (line_number <$> get_lines_by_speaker script who))
  ∧ (∀ l, l ∈ lines script → l ∈ get_lines_by_speaker script (speaker l))
  ∧ length (lines script)
    = sum_list ((fun who => length (get_lines_by_speaker script who))
                  <$> elements (speakers script)).
Proof.
  intros (txt & _ & ->)%parsed_script. unfold get_lines_by_speaker.
  split; [|split; [|split]].
  - intros who. rewrite speakers_of_text, elem_of_list_to_set, list_elem_of_fmap.
    split.
    + intros (l & -> & Hl) Hnil.
      eapply (filter_nil_not_elem_of _ _ l); [exact Hnil|reflexivity|exact Hl].
    + intros Hne.
      destruct (filter (fun line => speaker line = who) (lines (parse_text txt)))
        as [|l ls] eqn:E; [done|].
      assert (Hl : l ∈ filter (fun line => speaker line = who)
                          (lines (parse_text txt))) by (rewrite E; left).
      apply list_elem_of_filter in Hl as [Hs Hl]. by exists l.
  - intros who. apply StronglySorted_filter.
    rewrite lines_of_text. apply entries_increasing.
  - intros l Hl. by apply list_elem_of_filter.
  - apply length_by_key; [apply NoDup_elements|].
    intros l Hl. rewrite elem_of_elements, speakers_of_text, elem_of_list_to_set.
    apply list_elem_of_fmap. by exists l.
Qed.

Lemma lines_by_speaker_partition_witness :
  parse_dialogue_script only_cwd (OfStr abc) = inr abc_script
  ∧ (u "A" ∈ speakers abc_script ↔ get_lines_by_speaker abc_script (u "A") ≠ []).
Proof.
  assert (H1 : parse_dialogue_script only_cwd (OfStr abc) = inr abc_script)
    by (vm_compute; reflexivity).
  split; [exact H1|].
  exact (proj1 (lines_by_speaker_partition _ _ _ H1) (u "A")).
Defined.

(** *** Parsing is line by line *)

(** A record moved [n] lines down. *)
Definition shift (n : nat) (l : DialogueLine) : DialogueLine :=
  {| speaker := speaker l; text := text l; line_number := n + line_number l |}.

Lemma enumerate_app {A} (xs ys : list A) (start : nat) :
  enumerate start (xs ++ ys)
  = enumerate start xs ++ enumerate (length xs + start) ys.
Proof.
  revert start. induction xs as [|x xs IH]; intros start; [done|].
  simpl. rewrite IH. by rewrite Nat.add_succ_r.
Qed.

Lemma entries_shift (ys : list str) (n start : nat) :
  omap entry (enumerate (n + start) ys)
  = shift n <$> omap entry (enumerate start ys).
Proof.
  revert start. induction ys as [|y ys IH]; intros start; [done|].
  cbn [enumerate]. rewrite !omap_entry_cons.
  rewrite <- Nat.add_succ_r, IH.
  by destruct (parse_line y) as [[sp tx]|].
Qed.

Lemma lines_app (a b : str) :
  lines (parse_text (a ++ NL :: b))
  = lines (parse_text a)
    ++ (shift (length (split_nl a)) <$> lines (parse_text b)).
Proof.
  rewrite !lines_of_text, split_nl_app, enumerate_app, omap_app.
  by rewrite entries_shift.
Qed.

Lemma speaker_shift (n : nat) (ls : list DialogueLine) :
  speaker <$> (shift n <$> ls) = speaker <$> ls.
Proof. rewrite <- list_fmap_compose. by apply list_fmap_ext. Qed.

Lemma speakers_app (a b : str) :
  speakers (parse_text (a ++ NL :: b))
  = speakers (parse_text a) ∪ speakers (parse_text b).
Proof.
  rewrite !speakers_of_text, lines_app, fmap_app, speaker_shift.
  by rewrite list_to_set_app_L.
Qed.

(** X3.  The parser works line by line: the script of two texts joined by
    a newline is the script of the first followed by the script of the
    second, with the line numbers of the second moved down by the number
    of lines of the first; the speakers are those of both. *)
Theorem parse_is_line_by_line (a b : str) :
  lines (parse_text (a ++ NL :: b))
  = lines (parse_text a)
    ++ (shift (length (split_nl a)) <$> lines (parse_text b))
  ∧ speakers (parse_text (a ++ NL :: b))
    = speakers (parse_text a) ∪ speakers (parse_text b).
Proof. split; [apply lines_app|apply speakers_app]. Qed.

(** A line that the loop passes over. *)
Definition skipped (raw : str) : Prop :=
  strip raw = [] ∨ startswith [HASH] (strip raw) = true.

Lemma parse_line_skipped (raw : str) : skipped raw → parse_line raw = None.
Proof.
  unfold parse_line. intros [->| ->]; [done|].
  by rewrite orb_true_r.
Qed.

Lemma lines_skipped (c : str) : NL ∉ c → skipped c → lines (parse_text c) = [].
Proof.
  intros Hnl Hc. rewrite lines_of_text, split_nl_line by done.
  cbn [enumerate]. rewrite omap_entry_cons, parse_line_skipped; done.
Qed.

Definition spoken_by (l : DialogueLine) : str * str := (speaker l, text l).

Lemma spoken_by_shift (n : nat) (ls : list DialogueLine) :
  spoken_by <$> (shift n <$> ls) = spoken_by <$> ls.
Proof. rewrite <- list_fmap_compose. by apply list_fmap_ext. Qed.

(** X4.  Blank lines and [#] comment lines are transparent: putting one
    between two texts changes neither the speakers and texts that are
    parsed, nor their order, nor the set of speakers; only the line
    numbers after it move by one. *)
Theorem comment_and_blank_lines_are_transparent (a c b : str) :
  NL ∉ c → skipped c →
  lines (parse_text (a ++ NL :: c ++ NL :: b))
  = lines (parse_text a)
    ++ (shift (length (split_nl a) + 1) <$> lines (parse_text b))
  ∧ spoken_by <$> lines (parse_text (a ++ NL :: c ++ NL :: b))
    = spoken_by <$> lines (parse_text (a ++ NL :: b))
  ∧ speakers (parse_text (a ++ NL :: c ++ NL :: b))
    = speakers (parse_text (a ++ NL :: b)).
Proof.
  intros Hnl Hc.
  assert (Hlines : lines (parse_text (a ++ NL :: c ++ NL :: b))
    = lines (parse_text a)
      ++ (shift (length (split_nl a) + 1) <$> lines (parse_text b))).
  { rewrite (lines_app a), (lines_app c), (lines_skipped c) by done.
    rewrite (split_nl_line c) by done. cbn [app length].
    rewrite <- list_fmap_compose. f_equal. apply list_fmap_ext.
    intros _ l _. unfold shift. simpl. f_equal. lia. }
  split; [exact Hlines|]. split.
  - rewrite Hlines, (lines_app a b), !fmap_app. by rewrite !spoken_by_shift.
  - rewrite !speakers_of_text, Hlines, (lines_app a b), !fmap_app.
    by rewrite !speaker_shift.
Qed.

Lemma comment_and_blank_lines_are_transparent_witness :
  (NL ∉ u "# a remark") ∧ skipped (u "# a remark")
  ∧ spoken_by <$> lines (parse_text (u "[A]: hi" ++ NL :: u "# a remark"
                                       ++ NL :: u "[B]: bye"))
    = spoken_by <$> lines (parse_text (u "[A]: hi" ++ NL :: u "[B]: bye")).
Proof.
  assert (H1 : NL ∉ u "# a remark")
    by (apply no_newline_check; vm_compute; reflexivity).
  assert (H2 : skipped (u "# a remark")) by (right; vm_compute; reflexivity).
  split; [exact H1|]. split; [exact H2|].
  exact (proj1 (proj2 (comment_and_blank_lines_are_transparent
                         (u "[A]: hi") _ (u "[B]: bye") H1 H2))).
Defined.

(** *** The narration parser *)

(** The loop of [parse_narration_script] on a text. *)
Definition sections_of (txt : str) : list (str * str) :=
  narration_loop (split_nl txt) [] (u "Introduction") [].

(** A [##] header line, and the title it sets. *)
Definition header (raw : str) : Prop :=
  startswith [HASH; HASH] (strip raw) = true.

Definition title_of (raw : str) : str :=
  strip (lstrip_char HASH (strip raw)).

(** The section that is closed when a header or the end is reached. *)
Definition closed (current_section : str) (current_text : list str)
    : list (str * str) :=
  match current_text with
  | [] => []
  | _ => [(current_section, strip (join [NL] current_text))]
  end.

Lemma narration_loop_nil secs cur txt :
  narration_loop [] secs cur txt = secs ++ closed cur txt.
Proof. destruct txt; simpl; by rewrite ?app_nil_r. Qed.

Lemma narration_loop_cons raw rest secs cur txt :
  narration_loop (raw :: rest) secs cur txt
  = if startswith [HASH; HASH] (strip raw)
    then narration_loop rest (secs ++ closed cur txt) (title_of raw) []
    else if startswith [HASH] (strip raw)
    then narration_loop rest secs cur txt
    else if truthy (strip raw)
    then narration_loop rest secs cur (txt ++ [strip raw])
    else narration_loop rest secs cur txt.
Proof.
  cbn [narration_loop]. destruct (startswith [HASH; HASH] (strip raw)); [|done].
  destruct txt; simpl; by rewrite ?app_nil_r.
Qed.

(** The sections emitted so far are only ever appended to. *)
Lemma narration_loop_acc ls secs cur txt :
  narration_loop ls secs cur txt = secs ++ narration_loop ls [] cur txt.
Proof.
  revert secs cur txt. induction ls as [|raw rest IH]; intros secs cur txt.
  - rewrite !narration_loop_nil. done.
  - rewrite !narration_loop_cons.
    destruct (startswith [HASH; HASH] (strip raw)).
    { rewrite IH, (IH ([] ++ _)). by rewrite app_assoc. }
    destruct (startswith [HASH] (strip raw)); [apply IH|].
    destruct (truthy (strip raw)); apply IH.
Qed.

Lemma narration_loop_header l1 h l2 cur txt :
  header h →
  narration_loop (l1 ++ h :: l2) [] cur txt
  = narration_loop l1 [] cur txt ++ narration_loop l2 [] (title_of h) [].
Proof.
  intros Hh. revert cur txt. induction l1 as [|raw rest IH]; intros cur txt.
  - cbn [app]. rewrite narration_loop_cons, Hh, narration_loop_nil.
    by rewrite narration_loop_acc.
  - change ((raw :: rest) ++ h :: l2) with (raw :: (rest ++ h :: l2)).
    rewrite !narration_loop_cons.
    destruct (startswith [HASH; HASH] (strip raw)).
    { rewrite narration_loop_acc, IH, (narration_loop_acc rest ([] ++ _)).
      by rewrite app_assoc. }
    destruct (startswith [HASH] (strip raw)); [apply IH|].
    destruct (truthy (strip raw)); apply IH.
Qed.

(** X5.  A [##] header line ends the section before it, and what follows
    it is parsed on its own under the header's title: the sections of
    [a], then those of [b] read with the title of [h] in force. *)
Theorem narration_header_splits (a h b : str) :
  NL ∉ h → header h →
  sections_of (a ++ NL :: h ++ NL :: b)
  = sections_of a ++ narration_loop (split_nl b) [] (title_of h) [].
Proof.
  intros Hnl Hh. unfold sections_of.
  rewrite split_nl_app, split_nl_app, (split_nl_line h) by done.
  cbn [app]. by apply narration_loop_header.
Qed.

Lemma narration_header_splits_witness :
  (NL ∉ u "## Two  ") ∧ header (u "## Two  ")
  ∧ sections_of (u "one" ++ NL :: u "## Two  " ++ NL :: u "two")
    = [(u "Introduction", u "one"); (u "Two", u "two")].
Proof.
  assert (H1 : NL ∉ u "## Two  ")
    by (apply no_newline_check; vm_compute; reflexivity).
  assert (H2 : header (u "## Two  ")) by (vm_compute; reflexivity).
  split; [exact H1|]. split; [exact H2|].
  rewrite (narration_header_splits (u "one") _ (u "two") H1 H2).
  vm_compute. reflexivity.
Defined.

(** A body line: an input line, stripped, that is neither blank nor a
    comment. *)
Definition body_line (all : list str) (l : str) : Prop :=
  l ≠ [] ∧ startswith [HASH] l = false ∧ ∃ raw, raw ∈ all ∧ l = strip raw.

(** A section made of body lines joined by newlines, under a stripped
    title. *)
Definition well_formed (all : list str) (section : str * str) : Prop :=
  strip section.1 = section.1
  ∧ ∃ ls, ls ≠ [] ∧ Forall (body_line all) ls ∧ section.2 = join [NL] ls.

Lemma starts_visible_app (s t : str) :
  s ≠ [] → starts_visible s → starts_visible (s ++ t).
Proof. by destruct s. Qed.

Lemma join_cons_ne {A} (sep l : list A) (ls : list (list A)) :
  l ≠ [] → join sep (l :: ls) ≠ [].
Proof. destruct l; [done|]. by destruct ls. Qed.

Lemma join_starts_visible (ls : list str) :
  Forall (fun l => l ≠ [] ∧ starts_visible l) ls →
  starts_visible (join [NL] ls).
Proof.
  destruct 1 as [|l ls [Hne Hl] _]; [done|].
  destruct ls; [done|]. cbn [join]. by apply starts_visible_app.
Qed.

Lemma join_ends_visible (ls : list str) :
  Forall (fun l => l ≠ [] ∧ ends_visible l) ls →
  ends_visible (join [NL] ls).
Proof.
  induction 1 as [|l ls [Hne Hl] Hall IH]; [done|].
  destruct ls as [|l' ls]; [done|].
  change (join [NL] (l :: l' :: ls)) with (l ++ NL :: join [NL] (l' :: ls)).
  unfold ends_visible. rewrite rev_app_distr. cbn [rev].
  rewrite <- !app_assoc. apply starts_visible_app; [|exact IH].
  inversion Hall as [|? ? [Hne' _] _]; subst.
  intros Hrev. apply (join_cons_ne [NL] l' ls Hne').
  by rewrite <- (rev_involutive (join [NL] (l' :: ls))), Hrev.
Qed.

Lemma body_line_visible all l :
  body_line all l → (l ≠ [] ∧ starts_visible l) ∧ (l ≠ [] ∧ ends_visible l).
Proof.
  intros (Hne & _ & raw & _ & ->).
  split; (split; [done|]); [apply strip_starts_visible|apply strip_ends_visible].
Qed.

Lemma strip_join_body_lines all ls :
  Forall (body_line all) ls → strip (join [NL] ls) = join [NL] ls.
Proof.
  intros Hall. apply strip_fix.
  - apply join_starts_visible. eapply Forall_impl; [exact Hall|].
    intros l Hl. by apply body_line_visible in Hl as [? _].
  - apply join_ends_visible. eapply Forall_impl; [exact Hall|].
    intros l Hl. by apply body_line_visible in Hl as [_ ?].
Qed.

Lemma closed_well_formed all cur txt :
  strip cur = cur → Forall (body_line all) txt →
  Forall (well_formed all) (closed cur txt).
Proof.
  intros Hcur Htxt. destruct txt as [|l txt]; [constructor|].
  unfold closed. repeat constructor; [done|].
  exists (l :: txt). split; [done|]. split; [done|].
  by apply (strip_join_body_lines all).
Qed.

Lemma narration_loop_well_formed all ls cur txt :
  ls ⊆ all → strip cur = cur → Forall (body_line all) txt →
  Forall (well_formed all) (narration_loop ls [] cur txt).
Proof.
  revert cur txt. induction ls as [|raw rest IH]; intros cur txt Hsub Hcur Htxt.
  - rewrite narration_loop_nil. by apply closed_well_formed.
  - assert (Hrest : rest ⊆ all) by (intros x Hx; apply Hsub; by right).
    rewrite narration_loop_cons.
    destruct (startswith [HASH; HASH] (strip raw)).
    { rewrite narration_loop_acc. apply Forall_app. split.
      - by apply closed_well_formed.
      - apply IH; [done|apply strip_strip|constructor]. }
    destruct (startswith [HASH] (strip raw)) eqn:Hhash; [by apply IH|].
    destruct (truthy (strip raw)) eqn:Htruthy; [|by apply IH].
    apply IH; [done|done|]. apply Forall_app. split; [done|].
    repeat constructor; [by apply truthy_ne|done|].
    exists raw. split; [apply Hsub; left|done].
Qed.

(** X6.  A section of [parse_narration_script] is never empty: its title
    is stripped, and its text is a non-empty sequence of input lines,
    each stripped and neither blank nor a [#] line, joined by single
    newlines; stripping the text changes nothing. *)
Theorem narration_sections_hold_their_lines (fs : filesystem)
    (content : source) (sections : list (str * str)) (title text : str) :
  parse_narration_script fs content = inr sections →
  (title, text) ∈ sections →
  ∃ txt, load fs content = inr txt
    ∧ strip title = title ∧ text ≠ [] ∧ strip text = text
    ∧ Forall (body_line (split_nl txt)) (split_nl text).
Proof.
  unfold parse_narration_script.
  destruct (load fs content) as [e|txt]; [done|].
  intros [= <-] Hin. exists txt. split; [done|].
  assert (Hwf : Forall (well_formed (split_nl txt))
                   (narration_loop (split_nl txt) [] (u "Introduction") [])).
  { apply narration_loop_well_formed; [done|by vm_compute|constructor]. }
  rewrite Forall_forall in Hwf.
  destruct (Hwf _ Hin) as (Htitle & ls & Hne & Hls & Htext).
  simpl in Htitle, Htext. subst text.
  split; [done|]. split; [|split].
  - destruct ls as [|l ls]; [done|]. apply join_cons_ne.
    inversion Hls as [|? ? [Hl _] _]; by subst.
  - by eapply strip_join_body_lines.
  - rewrite split_nl_join; [done|done|].
    eapply Forall_impl; [exact Hls|].
    intros l (_ & _ & raw & Hraw & ->) Hnl.
    pose proof (split_nl_no_newline txt) as Hall.
    rewrite Forall_forall in Hall. apply (Hall raw Hraw).
    by apply strip_subseteq.
Qed.

Definition two_sections : str := u "# notes
  opening words
## Part one
first line
   second line  ".

Lemma narration_sections_hold_their_lines_witness :
  parse_narration_script only_cwd (OfStr two_sections)
  = inr [(u "Introduction", u "opening words");
         (u "Part one", u "first line
second line")]
  ∧ ∃ txt, load only_cwd (OfStr two_sections) = inr txt
      ∧ strip (u "Part one") = u "Part one"
      ∧ Forall (body_line (split_nl txt)) (split_nl (u "first line
second line")).
Proof.
  assert (H1 : parse_narration_script only_cwd (OfStr two_sections)
    = inr [(u "Introduction", u "opening words");
           (u "Part one", u "first line
second line")]) by (vm_compute; reflexivity).
  split; [exact H1|].
  destruct (narration_sections_hold_their_lines _ _ _ (u "Part one")
              (u "first line
second line") H1) as (txt & Hl & Ht & _ & _ & Hb).
  { right; left. }
  exists txt. split; [exact Hl|]. split; [exact Ht|exact Hb].
Defined.

Lemma startswith_hash_hash (s : str) :
  startswith [HASH; HASH] s = true → startswith [HASH] s = true.
Proof.
  destruct s as [|c s]; [done|]. cbn [startswith].
  intros [H _]%andb_true_iff. by rewrite H.
Qed.

Lemma narration_loop_text ls cur txt :
  txt ≠ [] → narration_loop ls [] cur txt ≠ [].
Proof.
  revert cur txt. induction ls as [|raw rest IH]; intros cur txt Hne.
  - rewrite narration_loop_nil. by destruct txt.
  - rewrite narration_loop_cons.
    destruct (startswith [HASH; HASH] (strip raw)).
    { rewrite narration_loop_acc. destruct txt; [done|]. simpl. done. }
    destruct (startswith [HASH] (strip raw)); [by apply IH|].
    destruct (truthy (strip raw)); [|by apply IH].
    apply IH. by destruct txt.
Qed.

(** X7.  [parse_narration_script] finds no section exactly when the text
    has no body line: every line is blank or starts with [#].  Headers
    alone give nothing, and one body line is enough for a section. *)
Theorem narration_is_empty_without_body (txt : str) :
  sections_of txt = [] ↔ Forall skipped (split_nl txt).
Proof.
  unfold sections_of. generalize (u "Introduction") as cur.
  induction (split_nl txt) as [|raw rest IH]; intros cur.
  - split; [constructor|done].
  - rewrite narration_loop_cons. unfold skipped at 1.
    destruct (startswith [HASH; HASH] (strip raw)) eqn:Hh.
    { rewrite IH. apply startswith_hash_hash in Hh.
      split; [intros ?; constructor; auto|by inversion 1]. }
    destruct (startswith [HASH] (strip raw)) eqn:Hc.
    { rewrite IH. split; [intros ?; constructor; auto|by inversion 1]. }
    destruct (truthy (strip raw)) eqn:Ht.
    + split.
      * intros H. by apply narration_loop_text in H.
      * inversion 1 as [|? ? [Hs|Hs] _]; subst.
        -- by rewrite Hs in Ht.
        -- unfold skipped in *. congruence.
    + rewrite IH. split; [|by inversion 1].
      intros ?. constructor; [|done]. left.
      by destruct (strip raw).
Qed.

End ScriptParserExtras.

(* ===================================================================== *)
(** ** More on [src/tts/voice_manager.py] *)
(* ===================================================================== *)

Module VoiceManagerExtras.
Import Py Sorted VoiceManager SortedFacts ScriptParserFacts VoiceManagerFacts.

(** The language of the presets a manager draws from. *)
Definition preset_language (self : VoiceManager) : str :=
  if startswith (u "ja") (default_language self) then u "ja-JP" else u "en-US".

Lemma presets_length self : length (presets self) = 5.
Proof. unfold presets. by destruct (startswith _ _). Qed.

Lemma at_mod_presets self i :
  ∃ v, at_mod (presets self) i = Some v
       ∧ language_code v = preset_language self
       ∧ ∃ preset_name, get_preset self preset_name = Some v.
Proof.
  unfold at_mod. rewrite presets_length.
  pose proof (Nat.mod_upper_bound i 5 ltac:(lia)) as Hlt.
  unfold presets, preset_language, get_preset.
  destruct (startswith (u "ja") (default_language self));
    destruct (i mod 5) as [|[|[|[|[|?]]]]]; try lia;
    (eexists; split; [reflexivity|]; split; [reflexivity|]).
  all: first [ exists (u "male_1"); vm_compute; reflexivity
             | exists (u "male_2"); vm_compute; reflexivity
             | exists (u "female_1"); vm_compute; reflexivity
             | exists (u "female_2"); vm_compute; reflexivity
             | exists (u "narrator"); vm_compute; reflexivity ].
Qed.

Lemma presets_inj self i j :
  i < 5 → j < 5 → presets self !! i = presets self !! j → i = j.
Proof.
  intros Hi Hj. unfold presets.
  destruct (startswith (u "ja") (default_language self));
    destruct i as [|[|[|[|[|?]]]]]; try lia;
    destruct j as [|[|[|[|[|?]]]]]; try lia;
    try reflexivity; vm_compute; intros [=].
Qed.

(** X8.  For a speaker who has no voice yet, [get_voice] assigns the
    preset at the counter, advances the counter by one and returns that
    preset.  The preset is one of the five named ones of the manager's
    language, which is Japanese when the language code starts with [ja]
    and US English for every other code. *)
Theorem get_voice_assigns_a_preset (self : VoiceManager) (speaker : str) :
  speaker_voices self !! speaker = None →
  ∃ v, get_voice self speaker
       = (Some v, {| default_language := default_language self;
                     speaker_voices := <[speaker := v]> (speaker_voices self);
                     _voice_index := _voice_index self + 1 |})
     ∧ presets self !! (_voice_index self mod 5) = Some v
     ∧ language_code v = preset_language self
     ∧ ∃ preset_name, get_preset self preset_name = Some v.
Proof.
  intros Hnone.
  destruct (at_mod_presets self (_voice_index self)) as (v & Hv & Hlang & Hname).
  exists v. unfold get_voice, _auto_assign_voice. rewrite Hnone, Hv. simpl.
  rewrite lookup_insert_eq. repeat split; try done.
  unfold at_mod in Hv. by rewrite presets_length in Hv.
Qed.

Lemma get_voice_assigns_a_preset_witness :
  speaker_voices (init (u "fr-FR")) !! u "Amélie" = None
  ∧ ∃ v, (get_voice (init (u "fr-FR")) (u "Amélie")).1 = Some v
         ∧ language_code v = u "en-US".
Proof.
  assert (H : speaker_voices (init (u "fr-FR")) !! u "Amélie" = None)
    by reflexivity.
  split; [exact H|].
  destruct (get_voice_assigns_a_preset _ _ H) as (v & Hg & _ & Hl & _).
  exists v. rewrite Hg. split; [reflexivity|exact Hl].
Defined.

Lemma assign_loop_keeps (voices : list VoiceConfig) (ranked : list (nat * str))
    (m : gmap str VoiceConfig) (s : str) (v : VoiceConfig) :
  m !! s = Some v → assign_loop voices ranked m !! s = Some v.
Proof.
  revert m. induction ranked as [|[i t] rest IH]; intros m Hs; [done|].
  cbn [assign_loop]. destruct (m !! t) eqn:Ht; [by apply IH|].
  destruct (at_mod voices i); [|done].
  apply IH. rewrite lookup_insert_ne; [done|]. by intros ->; congruence.
Qed.

(** X9.  A voice, once assigned, stays: neither the batch assignment nor
    a request for that speaker or for any other speaker changes it, and a
    request for the speaker returns it without touching the manager. *)
Theorem assigned_voice_is_kept (self : VoiceManager) (s : str) (v : VoiceConfig) :
  speaker_voices self !! s = Some v →
  get_voice self s = (Some v, self)
  ∧ (∀ speakers,
       speaker_voices (assign_voices_for_dialogue self speakers) !! s = Some v)
  ∧ (∀ other, speaker_voices (get_voice self other).2 !! s = Some v).
Proof.
  intros Hs. split; [|split].
  - unfold get_voice. rewrite Hs. simpl. by rewrite Hs.
  - intros speakers. simpl. by apply assign_loop_keeps.
  - intros other. unfold get_voice. simpl.
    destruct (speaker_voices self !! other) eqn:Ho; [done|].
    unfold _auto_assign_voice.
    destruct (at_mod (presets self) (_voice_index self)); [|done].
    simpl. rewrite lookup_insert_ne; [done|]. intros ->. congruence.
Qed.

Lemma assigned_voice_is_kept_witness :
  speaker_voices session !! u "A" = Some (voice "ja-JP-Neural2-C" "ja-JP")
  ∧ speaker_voices (get_voice session (u "C")).2 !! u "A"
    = Some (voice "ja-JP-Neural2-C" "ja-JP").
Proof.
  assert (H : speaker_voices VoiceManagerFacts.session !! u "A"
              = Some (voice "ja-JP-Neural2-C" "ja-JP"))
    by (vm_compute; reflexivity).
  split; [exact H|].
  exact (proj2 (proj2 (assigned_voice_is_kept _ _ _ H)) (u "C")).
Defined.

Lemma enumerate_snd {A} (xs : list A) (start : nat) : (enumerate start xs).*2 = xs.
Proof.
  revert start. induction xs as [|x xs IH]; intros start; [done|].
  simpl. by rewrite IH.
Qed.

Lemma assign_loop_others (voices : list VoiceConfig) (ranked : list (nat * str))
    (m : gmap str VoiceConfig) (s : str) :
  s ∉ ranked.*2 → assign_loop voices ranked m !! s = m !! s.
Proof.
  revert m. induction ranked as [|[i t] rest IH]; intros m Hs; [done|].
  rewrite fmap_cons, not_elem_of_cons in Hs. destruct Hs as [Hst Hs].
  cbn [assign_loop]. destruct (m !! t) eqn:Ht; [by apply IH|].
  destruct (at_mod voices i); [|done].
  rewrite IH by done. by rewrite lookup_insert_ne.
Qed.

Lemma assign_loop_rank (voices : list VoiceConfig) (ranked : list (nat * str))
    (m : gmap str VoiceConfig) :
  (∀ i, is_Some (at_mod voices i)) →
  NoDup ranked.*2 →
  (∀ s, s ∈ ranked.*2 → m !! s = None) →
  ∀ i s, (i, s) ∈ ranked → assign_loop voices ranked m !! s = at_mod voices i.
Proof.
  intros Hv. revert m.
  induction ranked as [|[j t] rest IH]; intros m Hnd Hm i s Hin.
  { by apply elem_of_nil in Hin. }
  rewrite fmap_cons in Hnd. apply NoDup_cons in Hnd as [Ht Hnd].
  cbn [assign_loop]. rewrite (Hm t) by (rewrite fmap_cons; left).
  destruct (Hv j) as [v Hj]. rewrite Hj.
  apply elem_of_cons in Hin as [[= -> ->]|Hin].
  - rewrite Hj. apply assign_loop_keeps. by rewrite lookup_insert_eq.
  - apply IH; [done| |done].
    intros s' Hs'. rewrite lookup_insert_ne by (by intros ->).
    apply Hm. rewrite fmap_cons. by right.
Qed.

Lemma at_mod_presets_some self i : is_Some (at_mod (presets self) i).
Proof. destruct (at_mod_presets self i) as (v & -> & _). by eexists. Qed.

(** The speakers in the order of [sorted(speakers)]. *)
Definition ranking (speakers : gset str) : list str :=
  sorted str_le (elements speakers).

Lemma ranking_perm speakers : ranking speakers ≡ₚ elements speakers.
Proof. apply sorted_perm. Qed.

Lemma ranking_NoDup speakers : NoDup (ranking speakers).
Proof. rewrite ranking_perm. apply NoDup_elements. Qed.

Lemma elem_of_ranking speakers s : s ∈ ranking speakers ↔ s ∈ speakers.
Proof. by rewrite ranking_perm, elem_of_elements. Qed.

Lemma length_ranking speakers : length (ranking speakers) = size speakers.
Proof. by rewrite ranking_perm. Qed.

Lemma batch_rank lang speakers k s :
  ranking speakers !! k = Some s →
  speaker_voices (assign_voices_for_dialogue (init lang) speakers) !! s
  = presets (init lang) !! (k mod 5).
Proof.
  intros Hk. simpl.
  rewrite (assign_loop_rank (presets (init lang))
             (enumerate 0 (sorted str_le (elements speakers))) ∅
             (at_mod_presets_some (init lang))) with (i := k).
  - unfold at_mod. by rewrite presets_length.
  - rewrite enumerate_snd. apply ranking_NoDup.
  - done.
  - apply elem_of_enumerate. split; [lia|]. by rewrite Nat.sub_0_r.
Qed.

Lemma batch_outside lang speakers s :
  s ∉ speakers →
  speaker_voices (assign_voices_for_dialogue (init lang) speakers) !! s = None.
Proof.
  intros Hs. simpl. rewrite assign_loop_others; [done|].
  rewrite enumerate_snd. fold (ranking speakers). by rewrite elem_of_ranking.
Qed.

Lemma batch_voice_rank lang speakers s v :
  speaker_voices (assign_voices_for_dialogue (init lang) speakers) !! s = Some v →
  ∃ k, ranking speakers !! k = Some s ∧ k < size speakers
       ∧ presets (init lang) !! (k mod 5) = Some v.
Proof.
  intros Hv. destruct (decide (s ∈ speakers)) as [Hin|Hout].
  - apply elem_of_ranking, list_elem_of_lookup in Hin as [k Hk].
    exists k. split; [done|]. split.
    + rewrite <- length_ranking. by eapply lookup_lt_Some.
    + by rewrite <- (batch_rank lang speakers k s Hk).
  - by rewrite batch_outside in Hv.
Qed.

(** X10.  On a fresh manager the batch assignment goes by sort rank: the
    speaker of rank k gets the preset k mod 5, and nobody else gets a
    voice.  Up to five speakers get five different configurations; the
    sixth gets the configuration of the first again; and the third and
    the fifth always share a voice name, the fifth preset being the
    narrator, which is the third voice at another speaking rate. *)
Theorem batch_assigns_by_rank (lang : str) (speakers : gset str) :
  let m := assign_voices_for_dialogue (init lang) speakers in
  (∀ k s, ranking speakers !! k = Some s →
          speaker_voices m !! s = presets (init lang) !! (k mod 5))
  ∧ (∀ s, s ∉ speakers → speaker_voices m !! s = None)
  ∧ (size speakers ≤ 5 →
     ∀ s1 s2 v, speaker_voices m !! s1 = Some v →
                speaker_voices m !! s2 = Some v → s1 = s2)
  ∧ (∀ s0 s5, ranking speakers !! 0 = Some s0 →
              ranking speakers !! 5 = Some s5 →
              speaker_voices m !! s0 = speaker_voices m !! s5)
  ∧ (∀ s2 s4, ranking speakers !! 2 = Some s2 →
              ranking speakers !! 4 = Some s4 →
              name <$> speaker_voices m !! s2 = name <$> speaker_voices m !! s4
              ∧ speaker_voices m !! s2 ≠ speaker_voices m !! s4).
Proof.
  intros m. subst m. split; [|split; [|split; [|split]]].
  - intros k s. apply batch_rank.
  - intros s. apply batch_outside.
  - intros Hsize s1 s2 v H1 H2.
    apply batch_voice_rank in H1 as (k1 & Hk1 & Hlt1 & Hp1).
    apply batch_voice_rank in H2 as (k2 & Hk2 & Hlt2 & Hp2).
    rewrite Nat.mod_small in Hp1, Hp2 by lia.
    assert (k1 = k2) by (apply (presets_inj (init lang)); [lia|lia|congruence]).
    congruence.
  - intros s0 s5 H0 H5.
    by rewrite (batch_rank _ _ _ _ H0), (batch_rank _ _ _ _ H5).
  - intros s2 s4 H2 H4.
    rewrite (batch_rank _ _ _ _ H2), (batch_rank _ _ _ _ H4).
    unfold presets. destruct (startswith (u "ja") (default_language (init lang)));
      by vm_compute.
Qed.

Lemma batch_assigns_by_rank_witness :
  ranking {[ u "B"; u "A"; u "C" ]} !! 2 = Some (u "C")
  ∧ speaker_voices
      (assign_voices_for_dialogue (init (u "en-GB")) {[ u "B"; u "A"; u "C" ]})
      !! u "C"
    = Some (voice "en-US-Neural2-F" "en-US").
Proof.
  assert (H : ranking {[ u "B"; u "A"; u "C" ]} !! 2 = Some (u "C"))
    by (vm_compute; reflexivity).
  split; [exact H|].
  exact (proj1 (batch_assigns_by_rank (u "en-GB") _) 2 (u "C") H).
Defined.

End VoiceManagerExtras.

(* ===================================================================== *)
(** ** More on [src/audio/track_builder.py] *)
(* ===================================================================== *)

Module TrackExtras.
Import Py Pydub Sorted SortedFacts AudioProcessor TrackBuilder AudioFacts.

Local Open Scope Z_scope.

(** Insertion sort leaves a sorted list as it is. *)
Lemma sorted_id {A} (le : A -> A -> bool) (l : list A) :
  StronglySorted (fun a b => le a b = true) l → sorted le l = l.
Proof.
  induction 1 as [|x l Hs IH Hx]; [done|].
  unfold sorted in *. cbn [foldr]. rewrite IH.
  destruct l as [|y l']; [done|]. cbn [insert].
  inversion Hx as [|? ? Hxy _]; subst. by rewrite Hxy.
Qed.

Section Sequential.
Context `{C : Codec}.

(** A clip as it sounds once overlaid on silence. *)
Definition onto_silence (a : AudioSegment) : AudioSegment := mix quiet <$> a.

Lemma length_onto_silence (a : AudioSegment) :
  length (onto_silence a) = length a.
Proof. apply length_fmap. Qed.

Lemma add_sequential_app clips files gap pos :
  add_sequential clips files gap pos
  = clips ++ add_sequential [] files gap pos.
Proof.
  revert clips pos. induction files as [|[f a] rest IH]; intros clips pos.
  - by rewrite app_nil_r.
  - cbn [add_sequential]. rewrite IH, (IH ([] ++ _)). by rewrite <- app_assoc.
Qed.

Lemma add_sequential_cons f a rest gap pos :
  add_sequential [] ((f, a) :: rest) gap pos
  = {| audio := a; start_ms := pos; label := f |}
      :: add_sequential [] rest gap (pos + len a + gap).
Proof. cbn [add_sequential]. by rewrite add_sequential_app. Qed.

(** Overlaying onto a stretch of silence, [g] frames into it. *)
Lemma overlay_onto_silence (P layer : AudioSegment) (n g : nat) :
  (g + length layer ≤ n)%nat →
  overlay (P ++ replicate n quiet) layer (Z.of_nat (length P + g))
  = P ++ replicate g quiet ++ onto_silence layer
      ++ replicate (n - g - length layer) quiet.
Proof.
  intros Hle. unfold overlay, slice_to, slice_from, bound.
  destruct (Z.ltb_spec (Z.of_nat (length P + g)) 0) as [?|_]; [lia|].
  rewrite Nat2Z.id, take_app_add, drop_app_add.
  rewrite take_replicate, drop_replicate, Nat.min_l by lia.
  rewrite zip_with_replicate_l by lia.
  rewrite drop_replicate. rewrite <- !app_assoc. reflexivity.
Qed.

(** The clips of [add_sequential] joined by the gap. *)
Definition body (gap : nat) (audios : list AudioSegment) : AudioSegment :=
  join (replicate gap quiet) (onto_silence <$> audios).

Lemma body_cons gap a b rest :
  body gap (a :: b :: rest)
  = onto_silence a ++ replicate gap quiet ++ body gap (b :: rest).
Proof. reflexivity. Qed.

Lemma foldl_sequential (files : list (list N * AudioSegment)) (gap : nat) :
  ∀ (P : AudioSegment) (g n : nat),
    (g + length (body gap files.*2) ≤ n)%nat →
    files ≠ [] →
    foldl overlay_clip (P ++ replicate n quiet)
      (add_sequential [] files (Z.of_nat gap) (Z.of_nat (length P + g)))
    = P ++ replicate g quiet ++ body gap files.*2
        ++ replicate (n - g - length (body gap files.*2)) quiet.
Proof.
  induction files as [|[f a] rest IH]; intros P g n Hle Hne; [done|].
  rewrite add_sequential_cons. cbn [foldl]. unfold overlay_clip at 2.
  cbn [audio start_ms].
  destruct rest as [|[f' a'] rest'].
  - cbn [add_sequential foldl].
    change (body gap [(f, a)].*2) with (onto_silence a) in *.
    rewrite length_onto_silence in *. by apply overlay_onto_silence.
  - set (rest := (f', a') :: rest') in *.
    assert (Hrest : rest ≠ []) by done.
    change (((f, a) :: rest).*2) with (a :: rest.*2) in *.
    assert (Hbody : body gap (a :: rest.*2)
                    = onto_silence a ++ replicate gap quiet ++ body gap rest.*2)
      by reflexivity.
    rewrite Hbody in *. clearbody rest.
    rewrite !length_app, length_replicate, length_onto_silence in *.
    rewrite overlay_onto_silence by lia.
    replace (P ++ replicate g quiet ++ onto_silence a
               ++ replicate (n - g - length a) quiet)
      with ((P ++ replicate g quiet ++ onto_silence a)
              ++ replicate (n - g - length a) quiet)
      by (by rewrite <- !app_assoc).
    replace (Z.of_nat (length P + g) + len a + Z.of_nat gap)
      with (Z.of_nat (length (P ++ replicate g quiet ++ onto_silence a) + gap))
      by (rewrite !length_app, length_replicate, length_onto_silence;
          unfold len; lia).
    rewrite IH; [|lia|done].
    rewrite <- !app_assoc. do 5 f_equal. f_equal. lia.
Qed.

End Sequential.

Section SequentialTrack.
Context `{C : Codec}.

(** What the clips after the first add to the end of the track. *)
Definition span (gap : Z) (audios : list AudioSegment) : Z :=
  foldr (fun a acc => gap + len a + acc) 0 audios.

Lemma len_nonneg (a : AudioSegment) : 0 ≤ len a.
Proof. unfold len. lia. Qed.

Lemma span_nonneg gap audios : 0 ≤ gap → 0 ≤ span gap audios.
Proof.
  intros Hg. induction audios as [|a audios IH]; simpl; [lia|].
  pose proof (len_nonneg a). lia.
Qed.

Lemma span_total gap audios :
  span gap audios = total_len audios + Z.of_nat (length audios) * gap.
Proof.
  induction audios as [|a audios IH]; [done|].
  cbn [span total_len foldr length] in *. unfold span in IH. rewrite IH.
  unfold total_len. lia.
Qed.

Lemma total_len_onto_silence (audios : list AudioSegment) :
  total_len (onto_silence <$> audios) = total_len audios.
Proof.
  induction audios as [|a audios IH]; [done|].
  rewrite fmap_cons. cbn [total_len foldr] in *. unfold total_len in IH.
  rewrite IH. unfold len. by rewrite length_onto_silence.
Qed.

Lemma sequential_sorted files gap pos :
  0 ≤ gap →
  StronglySorted (fun a b => by_start a b = true)
    (add_sequential [] files gap pos)
  ∧ Forall (fun c => pos ≤ start_ms c) (add_sequential [] files gap pos).
Proof.
  intros Hg. revert pos. induction files as [|[f a] rest IH]; intros pos.
  - split; constructor.
  - rewrite add_sequential_cons.
    destruct (IH (pos + len a + gap)) as [Hs Hall].
    pose proof (len_nonneg a).
    assert (Hpos : Forall (fun c => pos ≤ start_ms c)
                     (add_sequential [] rest gap (pos + len a + gap))).
    { eapply Forall_impl; [exact Hall|]. simpl. intros c Hc. lia. }
    split.
    + constructor; [done|]. eapply Forall_impl; [exact Hpos|].
      intros c Hc. unfold by_start. simpl. by apply Z.leb_le.
    + constructor; [simpl; lia|done].
Qed.

Lemma sequential_max_end files gap E :
  0 ≤ gap →
  max_of E (clip_end <$> add_sequential [] files gap (E + gap))
  = E + span gap files.*2.
Proof.
  intros Hg. revert E. induction files as [|[f a] rest IH]; intros E.
  - simpl. unfold max_of. simpl. lia.
  - rewrite add_sequential_cons, !fmap_cons. unfold max_of. cbn [foldl].
    unfold clip_end at 1. cbn [start_ms audio snd span foldr].
    pose proof (len_nonneg a).
    rewrite Z.max_r by lia.
    replace (E + gap + len a + gap) with ((E + gap + len a) + gap) by lia.
    fold (max_of (E + gap + len a)
            (clip_end <$> add_sequential [] rest gap (E + gap + len a + gap))).
    rewrite IH. unfold span. lia.
Qed.

Lemma sequential_duration f a rest gap start :
  0 ≤ gap →
  get_duration_ms (add_sequential [] ((f, a) :: rest) gap start)
  = start + len a + span gap rest.*2.
Proof.
  intros Hg. rewrite add_sequential_cons. unfold get_duration_ms.
  unfold clip_end at 1. cbn [start_ms audio].
  replace (start + len a + gap) with ((start + len a) + gap) by lia.
  by rewrite sequential_max_end.
Qed.

End SequentialTrack.

Section SequentialTheorems.
Context `{C : Codec}.

Lemma length_body (gap : nat) (a : AudioSegment) (rest : list AudioSegment) :
  Z.of_nat (length (body gap (a :: rest)))
  = len a + span (Z.of_nat gap) rest.
Proof.
  revert a. induction rest as [|b rest IH]; intros a.
  - unfold body. simpl. rewrite length_onto_silence. unfold len. lia.
  - rewrite body_cons, !length_app, length_replicate, length_onto_silence.
    rewrite !Nat2Z.inj_add, IH.
    change (span (Z.of_nat gap) (b :: rest))
      with (Z.of_nat gap + len b + span (Z.of_nat gap) rest).
    unfold len. lia.
Qed.

Lemma sequential_audios (files : list (list N * AudioSegment)) gap pos :
  audio <$> add_sequential [] files gap pos = files.*2.
Proof.
  revert pos. induction files as [|[f a] rest IH]; intros pos; [done|].
  rewrite add_sequential_cons, !fmap_cons. cbn [audio snd]. by rewrite IH.
Qed.

Lemma sequential_positions (files : list (list N * AudioSegment)) gap pos :
  ∀ i c c',
    add_sequential [] files gap pos !! i = Some c →
    add_sequential [] files gap pos !! S i = Some c' →
    start_ms c' = clip_end c + gap.
Proof.
  revert pos. induction files as [|[f a] rest IH]; intros pos i c c'; [done|].
  rewrite add_sequential_cons. destruct i as [|i].
  - cbn [lookup list_lookup]. intros [= <-].
    destruct rest as [|[f' a'] rest'].
    + cbn. by intros ?.
    + rewrite add_sequential_cons. cbn [lookup list_lookup].
      intros [= <-]. reflexivity.
  - cbn [lookup list_lookup]. apply IH.
Qed.

(** X11.  Clips placed by [add_sequential] on an empty builder lie one
    after the other, each starting where the one before ends plus the gap.
    For a gap and a start that are not negative, the track built without
    normalisation is the start silence followed by the clips (each as it
    sounds mixed onto silence) with the gap silence between them, which is
    what [insert_silence_between] makes of them; and the duration is the
    start plus the clip lengths plus one gap between neighbours. *)
Theorem sequential_track_is_joined (files : list (list N * AudioSegment))
    (gap start : Z) :
  0 ≤ gap → 0 ≤ start → files ≠ [] →
  let clips := add_sequential [] files gap start in
  let audios := onto_silence <$> files.*2 in
  build clips false = silent start ++ insert_silence_between audios gap
  ∧ get_duration_ms clips
    = start + total_len files.*2 + (Z.of_nat (length files) - 1) * gap
  ∧ len (build clips false) = get_duration_ms clips
  ∧ audio <$> clips = files.*2
  ∧ (∀ i c c', clips !! i = Some c → clips !! S i = Some c' →
               start_ms c' = clip_end c + gap).
Proof.
  intros Hg Hs Hne clips audios. subst clips audios.
  destruct files as [|[f a] rest]; [done|]. clear Hne.
  assert (Hdur : get_duration_ms (add_sequential [] ((f, a) :: rest) gap start)
                 = start + len a + span gap rest.*2)
    by (by apply sequential_duration).
  assert (Hbuild : build (add_sequential [] ((f, a) :: rest) gap start) false
                   = silent start
                     ++ insert_silence_between
                          (onto_silence <$> ((f, a) :: rest).*2) gap).
  { pose proof (sequential_sorted ((f, a) :: rest) gap start Hg) as [Hsorted _].
    revert Hdur Hsorted. rewrite add_sequential_cons. intros Hdur Hsorted.
    rewrite build_false, (sorted_id _ _ Hsorted).
    unfold get_duration_ms in Hdur. rewrite Hdur.
    rewrite <- add_sequential_cons.
    pose proof (span_nonneg gap rest.*2 Hg) as Hspan.
    pose proof (len_nonneg a) as Hlen.
    pose proof (length_body (Z.to_nat gap) a rest.*2) as Hbody.
    rewrite Z2Nat.id in Hbody by done.
    unfold silent at 1.
    rewrite <- (app_nil_l (replicate _ quiet)).
    replace start with (Z.of_nat (length (@nil frame) + Z.to_nat start)) at 2
      by (simpl; lia).
    replace gap with (Z.of_nat (Z.to_nat gap)) at 2 by lia.
    rewrite foldl_sequential; [|cbn [fmap list_fmap snd]; lia|done].
    cbn [fmap list_fmap snd app].
    replace (Z.to_nat (start + len a + span gap rest.*2) - Z.to_nat start
             - length (body (Z.to_nat gap) (a :: rest.*2)))%nat with 0%nat
      by lia.
    cbn [replicate]. rewrite app_nil_r.
    unfold insert_silence_between. rewrite foldl_add_gap.
    reflexivity. }
  split; [exact Hbuild|]. split; [|split; [|split]].
  - rewrite Hdur, span_total. cbn [fmap list_fmap snd total_len foldr length].
    rewrite length_fmap. unfold total_len. lia.
  - rewrite Hbuild, Hdur. unfold len. rewrite length_app.
    unfold silent at 1. rewrite length_replicate.
    unfold insert_silence_between. cbn [fmap list_fmap snd].
    rewrite foldl_add_gap.
    pose proof (length_body (Z.to_nat gap) a rest.*2) as Hbody.
    rewrite Z2Nat.id in Hbody by done. unfold body in Hbody.
    cbn [fmap list_fmap] in Hbody. unfold silent.
    rewrite Nat2Z.inj_add, Hbody. unfold len. lia.
  - apply sequential_audios.
  - apply sequential_positions.
Qed.

End SequentialTheorems.

Lemma sequential_track_is_joined_witness :
  let files : list (list N * list (@frame pcm16)) :=
    [(u "a.mp3", pcm [100; 200]); (u "b.mp3", pcm [300])] in
  build (add_sequential [] files 2 1) false = pcm [0; 100; 200; 0; 0; 300]
  ∧ get_duration_ms (add_sequential [] files 2 1) = 6.
Proof.
  intros files.
  destruct (sequential_track_is_joined files 2 1) as (Hb & Hd & _);
    [lia|lia|done|].
  split; [rewrite Hb|rewrite Hd]; vm_compute; reflexivity.
Defined.

Section BgmEdges.
Context `{C : Codec} `{!KeepsDuration C}.

Lemma len_build (clips : list AudioClip) (normalize : bool) :
  (∀ c, c ∈ clips → 0 ≤ start_ms c) →
  len (build clips normalize) = get_duration_ms clips.
Proof.
  intros Hpos. destruct clips as [|first others]; [done|].
  assert (Hfalse : len (build (first :: others) false)
                   = get_duration_ms (first :: others)).
  { apply len_build_max. apply Hpos. left. }
  destruct normalize; [|done].
  rewrite <- Hfalse. unfold len, build, AudioProcessor.normalize.
  by rewrite apply_gain_length.
Qed.

Lemma processed_nil (g : dB) (fi fo : Z) :
  fade_out (fade_in (apply_gain [] g) fi) fo = [].
Proof.
  apply nil_length_inv.
  by rewrite fade_out_length, fade_in_length, apply_gain_length.
Qed.

(** X12.  The edges of [build_with_bgm], for gain operations that keep
    durations.  A builder without clips gives an empty track whatever the
    background music is: the music alone is never returned.  An empty
    background track raises [ZeroDivisionError] exactly when the voice
    track has a positive duration, and gives an empty track otherwise. *)
Theorem build_with_bgm_edges (clips : list AudioClip) (g : dB) (fi fo : Z) :
  (∀ c, c ∈ clips → 0 ≤ start_ms c) →
  (∀ bgm, build_with_bgm [] bgm g fi fo = inr [])
  ∧ build_with_bgm clips [] g fi fo
    = if 0 <? get_duration_ms clips then inl ZeroDivisionError else inr [].
Proof.
  intros Hpos. split.
  - intros bgm. unfold build_with_bgm. cbn [build].
    change (len empty) with 0.
    destruct (Z.ltb_spec (len bgm) 0) as [Hlt|_];
      [pose proof (len_nonneg bgm); lia|].
    unfold slice_to, bound. cbn [Z.ltb Z.compare Z.to_nat take].
    rewrite take_0, processed_nil. reflexivity.
  - unfold build_with_bgm. rewrite (len_build clips true Hpos).
    change (len []) with 0.
    destruct (Z.ltb_spec 0 (get_duration_ms clips)) as [Hlt|Hge]; [done|].
    assert (Hnil : build clips true = []).
    { apply nil_length_inv. pose proof (len_build clips true Hpos) as Hl.
      unfold len in Hl. pose proof (len_nonneg (build clips true)).
      unfold len in *. lia. }
    rewrite Hnil. unfold slice_to. rewrite take_nil, processed_nil.
    reflexivity.
Qed.

End BgmEdges.

Lemma build_with_bgm_edges_witness :
  build_with_bgm [clip_a] (pcm []) (0 : @dB pcm16) 2000 2000
  = inl ZeroDivisionError
  ∧ build_with_bgm [] (pcm [7; 7; 7]) (0 : @dB pcm16) 2000 2000 = inr [].
Proof.
  destruct (build_with_bgm_edges (C := pcm16) (KeepsDuration0 := pcm16_keeps_duration)
              [clip_a] (0 : @dB pcm16) 2000 2000) as [Hnone Hempty].
  - intros c Hc. apply list_elem_of_singleton in Hc as ->. done.
  - split; [|apply Hnone].
    etrans; [exact Hempty|]. vm_compute. reflexivity.
Defined.

End TrackExtras.

(* ===================================================================== *)
(** ** More on [app.py]: [generate_audio] *)
(* ===================================================================== *)

Module AppExtras.
Import Py Sorted SortedFacts Wave Gateway App PipelineFacts ScriptParserFacts.

Lemma total_frames_saved (responses : list (list Byte.byte)) :
  total_frames (saved <$> responses)
  = sum_list ((fun a => length a / 2) <$> responses).
Proof.
  induction responses as [|a responses IH]; [done|].
  rewrite !fmap_cons. cbn [total_frames foldr sum_list].
  unfold total_frames in IH. by rewrite IH.
Qed.

(** X13.  [generate_audio] needs one segment to succeed.  When every
    gateway call raises (or there is no segment at all) it does not return
    an empty result: nothing was combined, the combined file does not
    exist, and opening it raises [FileNotFoundError].  When at least one
    call succeeds it returns a duration at 24000 frames per second whose
    frame count is the whole 16-bit frames of every response plus 7200
    frames (0.3 s) for each of them. *)
Theorem generate_audio_outcome (client : gateway)
    (ffmpeg : wav -> option (list Byte.byte)) (segments : list segment) :
  let responses :=
    (omap (call client (assign segments).1 (assign segments).2)
          (enumerate 0 segments)).*2 in
  (responses = [] → generate_audio client ffmpeg segments = inl FileNotFoundError)
  ∧ (responses ≠ [] →
     ∃ g, generate_audio client ffmpeg segments = inr g
          ∧ duration_rate g = 24000%N
          ∧ duration_frames g
            = sum_list ((fun a => length a / 2) <$> responses)
              + length responses * N.to_nat 7200).
Proof.
  intros responses. unfold generate_audio.
  destruct (assign segments) as [voices styles] eqn:Hassign.
  simpl in responses.
  rewrite synthesize_loop_calls, app_nil_l.
  set (cs := omap (call client voices styles) (enumerate 0 segments)) in *.
  split.
  - intros Hnil. assert (Hcs : cs = []).
    { unfold responses in Hnil. by apply fmap_nil_inv in Hnil. }
    rewrite Hcs. reflexivity.
  - intros Hne.
    assert (Hnd : NoDup cs.*1).
    { apply omap_enumerate_fst. intros [i seg] q. unfold call. simpl.
      destruct (client i _ _); [|done]. by intros [= <-]. }
    assert (Hcs : cs ≠ []) by (intros Hnil; apply Hne; unfold responses; by rewrite Hnil).
    destruct (combine_wav_files_24k (foldl store ∅ cs) (segment_wav <$> cs.*1)
                (saved <$> cs.*2) combined_wav)
      as [out [Hrun [Hp [_ Hframes]]]].
    + destruct cs; [done|]. done.
    + by apply open_all_stored.
    + apply Forall_fmap, Forall_true. done.
    + rewrite Hrun, lookup_insert_eq. eexists. split; [reflexivity|].
      cbn [duration_rate duration_frames]. rewrite Hp. split; [done|].
      rewrite Hframes, total_frames_saved, length_fmap. reflexivity.
Qed.

(** A gateway that is down. *)
Definition down : gateway := fun _ _ _ => None.

Lemma generate_audio_outcome_witness :
  generate_audio down (fun _ => None)
    [{| seg_speaker := u "A"; seg_text := u "hi" |}]
  = inl FileNotFoundError.
Proof.
  apply (proj1 (generate_audio_outcome down (fun _ => None)
                  [{| seg_speaker := u "A"; seg_text := u "hi" |}])).
  vm_compute. reflexivity.
Defined.

(** *** Voices and styles by sort rank *)

(** The speakers of a run in the order the voices are dealt out. *)
Definition order (segments : list segment) : list str :=
  sorted str_le (elements (list_to_set (seg_speaker <$> segments) : gset str)).




(** The voice and the style dealt to the speaker of rank [i]. *)
Definition voice_of_rank (i : nat) : str :=
  if Nat.even i
  then default [] (female_voices !! (i / 2 mod length female_voices))
  else default [] (male_voices !! (i / 2 mod length male_voices)).




Lemma voice_of_rank_mod8 k : voice_of_rank k = voice_of_rank (k mod 8).
Proof.
  unfold voice_of_rank.
  assert (He : Nat.even (k mod 8) = Nat.even k).
  { replace (Nat.even k) with (Nat.even (k mod 8 + 2 * (4 * (k / 8))))
      by (f_equal; pose proof (Nat.div_mod_eq k 8); lia).
    by rewrite Nat.even_add_mul_2. }
  assert (Hd : (k mod 8) / 2 mod 4 = k / 2 mod 4).
  { change (length female_voices) with 4.
    pose proof (Nat.div_mod_eq k 8) as H8.
    pose proof (Nat.mod_upper_bound k 8 ltac:(lia)) as Hlt.
    pose proof (Nat.div_mod_eq (k mod 8) 2) as H2.
    pose proof (Nat.mod_upper_bound (k mod 8) 2 ltac:(lia)) as Hlt2.
    pose proof (Nat.div_mod_eq k 2) as H2'.
    pose proof (Nat.mod_upper_bound k 2 ltac:(lia)) as Hlt2'.
    assert (Hq : k / 2 = 4 * (k / 8) + (k mod 8) / 2).
    { symmetry. apply (Nat.div_unique k 2 _ ((k mod 8) mod 2)); lia. }
    rewrite Hq. rewrite Nat.add_comm, Nat.mul_comm, Nat.Div0.mod_add. done. }
  change (length female_voices) with 4. change (length male_voices) with 4.
  by rewrite He, Hd.
Qed.


Lemma voice_of_rank_named k : voice_of_rank k ∈ female_voices ++ male_voices.
Proof.
  rewrite voice_of_rank_mod8.
  pose proof (Nat.mod_upper_bound k 8 ltac:(lia)) as Hlt.
  destruct (k mod 8) as [|[|[|[|[|[|[|[|?]]]]]]]]; try lia;
    vm_compute; set_solver.
Qed.






End AppExtras.

(* ===================================================================== *)
(** ** More on [src/tts/gemini_tts.py]: the files of a run *)
(* ===================================================================== *)

Module GeminiExtras.
Import Py Sorted Wave Gateway Pydub GeminiTTS PipelineFacts.

Section Files.
Context `{C : Codec} (from_wav : wav -> AudioSegment).

Lemma unlink_all_temp (fs : gmap path file) (ids : list nat) (i : nat) :
  unlink_all fs (temp_segment <$> ids) !! temp_segment i
  = if decide (i ∈ ids) then None else fs !! temp_segment i.
Proof.
  revert fs. induction ids as [|j ids IH]; intros fs.
  - destruct (decide (i ∈ [])) as [?%elem_of_nil|]; done.
  - rewrite fmap_cons. cbn [unlink_all foldl]. fold (unlink_all (delete (temp_segment j) fs) (temp_segment <$> ids)).
    rewrite IH. destruct (decide (i ∈ ids)) as [Hin|Hout].
    + rewrite decide_True; [done|]. by right.
    + destruct (decide (i = j)) as [->|Hne].
      * rewrite decide_True by left. apply lookup_delete_eq.
      * rewrite decide_False by (intros [?|?]%elem_of_cons; done).
        apply lookup_delete_ne. by intros [= ->].
Qed.

(** X15.  The files [synthesize_dialogue] leaves behind.  When every
    gateway call raises it returns without touching a file: nothing is
    written at the output path, which is returned all the same.  When some
    call succeeds, the output is written, the temporary file of every
    successful segment is gone afterwards (also one that was there before
    the run), and a file named like the temporary file of a failed or
    absent segment is as it was. *)
Theorem synthesize_dialogue_files (client : gateway) (fs : gmap path file)
    (segments : list segment) (fmt : format)
    (speaker_voices speaker_styles : option (gmap str str)) :
  let voices := default (default_voices segments) speaker_voices in
  let styles := default ∅ speaker_styles in
  let succeeded :=
    (omap (gcall client voices styles) (enumerate 0 segments)).*1 in
  (succeeded = [] →
   synthesize_dialogue from_wav client fs segments fmt
     speaker_voices speaker_styles = Some fs)
  ∧ (succeeded ≠ [] →
     ∃ fs', synthesize_dialogue from_wav client fs segments fmt
              speaker_voices speaker_styles = Some fs'
       ∧ (∃ a, fs' !! output_path = Some (Exported fmt a))
       ∧ ∀ i, fs' !! temp_segment i
              = if decide (i ∈ succeeded) then None else fs !! temp_segment i).
Proof.
  intros voices styles succeeded.
  unfold synthesize_dialogue. fold voices styles.
  rewrite gemini_loop_calls, app_nil_l.
  set (cs := omap (gcall client voices styles) (enumerate 0 segments)) in *.
  split.
  - intros Hnil. assert (Hcs : cs = []).
    { unfold succeeded in Hnil. by apply fmap_nil_inv in Hnil. }
    by rewrite Hcs.
  - intros Hne.
    assert (Hnd : NoDup cs.*1).
    { apply omap_enumerate_fst. intros [i seg] q. unfold gcall. simpl.
      destruct (client i _ _); [|done]. by intros [= <-]. }
    rewrite (combine_stored from_wav) by by apply foldl_gstore_lookup.
    destruct (temp_segment <$> cs.*1) eqn:Hfiles.
    { apply fmap_nil_inv in Hfiles. done. }
    rewrite <- Hfiles. eexists. split; [reflexivity|]. split.
    + eexists. by rewrite unlink_all_output, lookup_insert_eq.
    + intros i. rewrite unlink_all_temp. fold succeeded.
      destruct (decide (i ∈ succeeded)) as [Hin|Hout]; [done|].
      rewrite lookup_insert_ne by done.
      apply foldl_gstore_other. by intros j [= ->].
Qed.

End Files.

Lemma synthesize_dialogue_files_witness :
  ∃ fs', synthesize_dialogue bytes_as_frames second_call_raises ∅
           three_segments mp3 None None = Some fs'
    ∧ fs' !! temp_segment 0 = None
    ∧ fs' !! temp_segment 2 = None.
Proof.
  destruct (synthesize_dialogue_files (C := AudioFacts.pcm16) bytes_as_frames
              second_call_raises ∅ three_segments mp3 None None)
    as [_ Hsome].
  destruct Hsome as (fs' & Hrun & _ & Hfiles).
  - vm_compute. discriminate.
  - exists fs'. split; [exact Hrun|]. split.
    + rewrite (Hfiles 0). vm_compute. reflexivity.
    + rewrite (Hfiles 2). vm_compute. reflexivity.
Defined.

End GeminiExtras.
